(** * LightBase / LightTip / L: a shallow embedding and its verified properties

    The development follows the JavaScript sources file by file:
    - [Tip]: the placement geometry of LightTip 1.1.0
      ([computePosition], [fitsViewport], [fallbackPlacements] and the
      candidate search of [_positionWithArrow]);
    - [LFacade]: the parts of the L facade the component base consumes
      ([pathToTokens], [getByPath], [L.interpolate], [L.assert]);
    - [Base]: the component base LightBase 1.0.1 (constructor, resource
      tracking, cascading [destruct]) over an explicit world: DOM forest,
      instance store, registry, host handles and a trace of collaborator
      calls;
    - [LUtil], [Log], [Throttle], [Debounce], [Events]: further parts of
      the L facade ([clamp], [escapeHTML], [setByPath], the array helpers,
      [registerErrors], [L.log], [L.throttle], [L.debounce], [on] and
      [off]);
    - [TipParts]: [parsePlacement] of LightTip. *)

From Stdlib Require Import ZArith QArith Qround Qminmax Ascii String List Lia Lqa.
From Stdlib Require Import Sorted Permutation.
From Stdlib Require Floats.PrimFloat Floats.FloatOps Floats.SpecFloat.
From stdpp Require Import gmap strings list fin_maps pretty.

(* ===================================================================== *)
(** * LightTip: placement geometry                                        *)
(* ===================================================================== *)

Module Tip.

Import PrimFloat FloatOps SpecFloat.
Local Open Scope Z_scope.

(** [side] and [align] of a parsed placement.  The source carries them as
    the strings 'top' | 'bottom' | 'left' | 'right' and
    'start' | 'center' | 'end'. *)
Inductive Side := top | bottom | left | right.
Inductive Align := start | center | end_.

Record Placement := { side : Side; align : Align; auto : bool }.

(** A DOMRect as read by the code (field by field).  Numbers are the
    binary64 floats of the language: every sum, difference and quotient
    below is rounded as the engine rounds it. *)
Record Rect := {
  r_left : float; r_top : float; r_right : float; r_bottom : float;
  r_width : float; r_height : float
}.

(** The measured tip size ([_measure] applies Math.ceil to both fields). *)
Record Size := { width : float; height : float }.

Record Pos := { p_left : float; p_top : float }.

Definition Side_eqb (a b : Side) : bool :=
  match a, b with
  | top, top | bottom, bottom | left, left | right, right => true
  | _, _ => false
  end.

Definition Align_eqb (a b : Align) : bool :=
  match a, b with
  | start, start | center, center | end_, end_ => true
  | _, _ => false
  end.

Definition Placement_eqb (p q : Placement) : bool :=
  Side_eqb (side p) (side q) && Align_eqb (align p) (align q)
  && Bool.eqb (auto p) (auto q).

(** The real number a float is; [None] for NaN and the infinities. *)
Definition value (x : float) : option Q :=
  match Prim2SF x with
  | S754_zero _ => Some 0%Q
  | S754_finite s m e =>
      Some (inject_Z (if s then Z.neg m else Z.pos m) * 2 ^ e)%Q
  | S754_infinity _ | S754_nan => None
  end.

(** The float of an integer below 2^53 in absolute value, which every
    such integer is exactly; zero takes the sign [negative]. *)
Definition of_integer (negative : bool) (z : Z) : float :=
  match z with
  | Z0 => if negative then neg_zero else zero
  | Z.pos p => SF2Prim (S754_finite false p 0)
  | Z.neg p => SF2Prim (S754_finite true p 0)
  end.

(** The nearest integer, halves towards +infinity. *)
Definition round_half_up (x : Q) : Z := Qfloor (x + (1 # 2))%Q.

(** Math.round: NaN, the infinities and the integers (both zeros among
    them) are returned as they are; any other number, which is below
    2^52 in absolute value, gives the nearest integer, halves towards
    +infinity, and a zero result takes the sign of the argument. *)
Definition Math_round (x : float) : float :=
  match value x with
  | None => x
  | Some q =>
      if Qeq_bool (inject_Z (Qfloor q)) q then x
      else of_integer (x <? 0)%float (round_half_up q)
  end.

(** [x|0] on a real number: truncate towards zero, then wrap to a signed
    32-bit integer. *)
Definition Qtrunc (x : Q) : Z := if Qle_bool 0 x then Qfloor x else Qceiling x.
Definition to_int32 (z : Z) : Z := (z + 2 ^ 31) mod 2 ^ 32 - 2 ^ 31.
Definition bitor0 (x : Q) : Z := to_int32 (Qtrunc x).

(** [x|0] on a float: NaN and the infinities give 0. *)
Definition int32_of (x : float) : Z :=
  match value x with
  | Some q => bitor0 q
  | None => 0
  end.

(** function computePosition(anchorRect, tipSize, placement, offset) *)
Definition computePosition (anchorRect : Rect) (tipSize : Size)
    (placement : Placement) (offset : float) : Pos :=
  let o := of_integer false (int32_of offset) in
  let vertical (a : Align) : float :=
    match a with
    | start => r_top anchorRect
    | end_ => (r_bottom anchorRect - height tipSize)%float
    | center =>
        (r_top anchorRect + (r_height anchorRect - height tipSize) / 2)%float
    end in
  let horizontal (a : Align) : float :=
    match a with
    | start => r_left anchorRect
    | end_ => (r_right anchorRect - width tipSize)%float
    | center =>
        (r_left anchorRect + (r_width anchorRect - width tipSize) / 2)%float
    end in
  let '(l, t) :=
    match side placement with
    | right => ((r_right anchorRect + o)%float, vertical (align placement))
    | left =>
        ((r_left anchorRect - width tipSize - o)%float,
         vertical (align placement))
    | top =>
        (horizontal (align placement),
         (r_top anchorRect - height tipSize - o)%float)
    | bottom =>
        (horizontal (align placement), (r_bottom anchorRect + o)%float)
    end in
  {| p_left := Math_round l; p_top := Math_round t |}.

(** The viewport as L.viewport() reports it. *)
Record Viewport := { vw : float; vh : float }.

(** function fitsViewport(pos, tipSize, margin = 4); a comparison with
    NaN is false. *)
Definition fitsViewport (v : Viewport) (pos : Pos) (tipSize : Size)
    (margin : float) : bool :=
  (margin <=? p_left pos)%float && (margin <=? p_top pos)%float
  && (p_left pos + width tipSize <=? vw v - margin)%float
  && (p_top pos + height tipSize <=? vh v - margin)%float.

Definition default_margin : float := 4.

Definition oppositeSide (s : Side) : Side :=
  match s with top => bottom | bottom => top | left => right | right => left end.

Definition aligns : list Align := [start; center; end_].

(** function fallbackPlacements(preferred) *)
Definition fallbackPlacements (preferred : Placement) : list Placement :=
  let s := side preferred in
  let a := align preferred in
  let others :=
    map (fun a' => {| side := s; align := a'; auto := true |})
        (List.filter (fun a' => negb (Align_eqb a' a)) aligns) in
  let opp := [ {| side := oppositeSide s; align := a; auto := true |} ] in
  let perpendicular :=
    match s with
    | top | bottom =>
        [ {| side := left; align := center; auto := true |};
          {| side := right; align := center; auto := true |} ]
    | _ =>
        [ {| side := top; align := center; auto := true |};
          {| side := bottom; align := center; auto := true |} ]
    end in
  preferred :: others ++ opp ++ perpendicular.

(** The [for ... of] loop of [_positionWithArrow]: the first candidate
    that fits replaces [(chosen, pos)] and breaks; otherwise the pair the
    loop was entered with is kept. *)
Fixpoint search (v : Viewport) (anchorRect : Rect) (size : Size) (offset : float)
    (cands : list Placement) (acc : Placement * Pos) : Placement * Pos :=
  match cands with
  | [] => acc
  | p :: rest =>
      let testPos := computePosition anchorRect size p offset in
      if fitsViewport v testPos size default_margin then (p, testPos)
      else search v anchorRect size offset rest acc
  end.

(** The part of [_positionWithArrow] that picks [(chosen, pos)], i.e. the
    arguments it hands to [_applyPosition] and [_positionArrow]. *)
Definition positionWithArrow (v : Viewport) (anchorRect : Rect) (size : Size)
    (pref : Placement) (offset : float) : Placement * Pos :=
  let chosen := pref in
  let pos := computePosition anchorRect size chosen offset in
  if auto pref
  then search v anchorRect size offset (fallbackPlacements pref) (chosen, pos)
  else (chosen, pos).

End Tip.

(* ===================================================================== *)
(** * L: path lookup, interpolation, assertions                           *)
(* ===================================================================== *)

Module LFacade.

Local Open Scope string_scope.
Local Open Scope nat_scope.

(** JavaScript values as far as contexts and messages use them.  A
    plain object is the map of its own properties; it inherits the
    members of Object.prototype ([inherited] below).  A function is
    known by its name and prints as a built-in function does.  Numbers
    are the integers up to 2^53 in absolute value.  What arrays, strings,
    numbers, booleans and functions inherit from their prototypes depends
    on the host: a lookup that reaches it is left undetermined ([None] in
    [get_prop]). *)
#[warnings="-register-all"]
Inductive JsVal :=
| JUndef
| JNull
| JBool (b : bool)
| JNum (z : Z)
| JStr (s : string)
| JFn (name : string)
| JArr (items : list JsVal)
| JObj (fields : gmap string JsVal).

(** [v == null] *)
Definition nullish (v : JsVal) : bool :=
  match v with JUndef | JNull => true | _ => false end.

(** ToBoolean *)
Definition truthy (v : JsVal) : bool :=
  match v with
  | JUndef | JNull => false
  | JBool b => b
  | JNum z => negb (Z.eqb z 0)
  | JStr s => negb (String.eqb s EmptyString)
  | JFn _ | JArr _ | JObj _ => true
  end.

Fixpoint join (sep : string) (l : list string) : string :=
  match l with
  | [] => EmptyString
  | [x] => x
  | x :: rest => x +:+ sep +:+ join sep rest
  end.

(** String(v) *)
Fixpoint to_String (v : JsVal) : string :=
  match v with
  | JUndef => "undefined"
  | JNull => "null"
  | JBool true => "true"
  | JBool false => "false"
  | JNum z => pretty z
  | JStr s => s
  | JFn n => "function " +:+ n +:+ "() { [native code] }"
  | JArr items =>
      join "," (map (fun x => if nullish x then EmptyString else to_String x) items)
  | JObj _ => "[object Object]"
  end.

(** ** Character classes of the two regular expressions *)

Definition is_digit (c : ascii) : bool :=
  let n := nat_of_ascii c in (48 <=? n) && (n <=? 57).

(** [\w] *)
Definition is_word (c : ascii) : bool :=
  let n := nat_of_ascii c in
  is_digit c || ((65 <=? n) && (n <=? 90)) || ((97 <=? n) && (n <=? 122))
  || (n =? 95).

(** [\s], on code units below 256 *)
Definition is_space (c : ascii) : bool :=
  let n := nat_of_ascii c in
  ((9 <=? n) && (n <=? 13)) || (n =? 32) || (n =? 160).

(** [[\w.[\]0-9]] : the characters of a placeholder path *)
Definition is_path_char (c : ascii) : bool :=
  is_word c || Ascii.eqb c "." || Ascii.eqb c "[" || Ascii.eqb c "]".

(** [[^[.\]]] : the characters of a key token *)
Definition is_key_char (c : ascii) : bool :=
  negb (Ascii.eqb c "[" || Ascii.eqb c "." || Ascii.eqb c "]").

(** The longest prefix of [s] whose characters satisfy [f], and the rest. *)
Fixpoint span (f : ascii -> bool) (s : string) : string * string :=
  match s with
  | EmptyString => (EmptyString, EmptyString)
  | String c s' =>
      if f c then let '(a, b) := span f s' in (String c a, b)
      else (EmptyString, s)
  end.

(** ** Path utils: "a.b[0].c" *)

(** A token is a number ([Number(idx)] for a bracketed index) or a
    string.  Up to 2^53 the number is the integer the digits denote;
    beyond, it is that integer rounded to a double, which the model does
    not carry: [TRounded] keeps the digits and every lookup with such a
    token is left undetermined. *)
Inductive Token :=
| TIdx (n : N)
| TKey (k : string)
| TRounded (digits : string).

(** The integer a string of decimal digits denotes. *)
Fixpoint digits_to_N (acc : N) (s : string) : N :=
  match s with
  | EmptyString => acc
  | String c s' =>
      digits_to_N (acc * 10 + N.of_nat (nat_of_ascii c - 48))%N s'
  end.

(** Number(idx) for a string of decimal digits *)
Definition Number_of_digits (ds : string) : Token :=
  let n := digits_to_N 0%N ds in
  if (n <=? 2 ^ 53)%N then TIdx n else TRounded ds.

(** One attempt of [/\[(\d+)\]|([^[.\]]+)/] at the head of [s]: the token
    and the number of characters the match spans. *)
Definition match_token (s : string) : option (Token * nat) :=
  match s with
  | EmptyString => None
  | String c s' =>
      if Ascii.eqb c "[" then
        let '(ds, rest) := span is_digit s' in
        match ds, rest with
        | String _ _, String c' _ =>
            if Ascii.eqb c' "]"
            then Some (Number_of_digits ds, String.length ds + 2)
            else None
        | _, _ => None
        end
      else if is_key_char c then
        let '(k, _) := span is_key_char s in
        Some (TKey k, String.length k)
      else None
  end.

(** The global scan of [path.replace(re, push)]: [skip] counts the
    characters still covered by the previous match. *)
Fixpoint tokens_from (skip : nat) (s : string) : list Token :=
  match s with
  | EmptyString => []
  | String _ s' =>
      match skip with
      | S k => tokens_from k s'
      | O =>
          match match_token s with
          | Some (t, len) => t :: tokens_from (len - 1) s'
          | None => tokens_from 0 s'
          end
      end
  end.

(** const pathToTokens = (path) => ... *)
Definition pathToTokens (path : string) : list Token := tokens_from 0 path.

Definition char_at (s : string) (i : nat) : JsVal :=
  match String.get i s with
  | Some c => JStr (String c EmptyString)
  | None => JUndef
  end.

(** [l[n]] and [s[n]] for a number [n]: undefined beyond the end. *)
Definition item (l : list JsVal) (n : N) : JsVal :=
  if (n <? N.of_nat (length l))%N then default JUndef (l !! N.to_nat n)
  else JUndef.

Definition char_item (s : string) (n : N) : JsVal :=
  if (n <? N.of_nat (String.length s))%N then char_at s (N.to_nat n)
  else JUndef.

Fixpoint all_digits (s : string) : bool :=
  match s with
  | EmptyString => true
  | String c s' => is_digit c && all_digits s'
  end.

(** The number a property key is the canonical decimal form of. *)
Definition key_number (k : string) : option N :=
  if negb (String.eqb k EmptyString) && all_digits k
     && String.eqb (pretty (digits_to_N 0%N k)) k
  then Some (digits_to_N 0%N k) else None.

(** The members of Object.prototype. *)
Definition object_prototype : list string :=
  [ "constructor"; "__defineGetter__"; "__defineSetter__"; "hasOwnProperty";
    "__lookupGetter__"; "__lookupSetter__"; "isPrototypeOf";
    "propertyIsEnumerable"; "toString"; "valueOf"; "__proto__";
    "toLocaleString" ].

Definition inherited (k : string) : bool :=
  existsb (String.eqb k) object_prototype.

(** [Object.prototype[k]] *)
Definition prototype_member (k : string) : JsVal :=
  if negb (inherited k) then JUndef
  else if String.eqb k "constructor" then JFn "Object"
  else if String.eqb k "__proto__" then JObj ∅
  else JFn k.

(** [obj[k]] for a plain object: own properties first. *)
Definition object_get (m : gmap string JsVal) (k : string) : JsVal :=
  match m !! k with
  | Some v => v
  | None => prototype_member k
  end.

(** [cur[t]] for a non-nullish [cur].  A plain object answers for every
    key.  An array or a string owns its indices and its length, and
    nothing it inherits is named by a number.  Any other key of an
    array, a string, a number, a boolean or a function (except the name
    of a function) may name a member the host's prototypes supply: the
    result is [None]. *)
Definition get_prop (cur : JsVal) (t : Token) : option JsVal :=
  match cur, t with
  | (JUndef | JNull), _ => None
  | _, TRounded _ => None
  | JObj m, TKey k => Some (object_get m k)
  | JObj m, TIdx n => Some (object_get m (pretty n))
  | JArr l, TIdx n => Some (item l n)
  | JArr l, TKey k =>
      if String.eqb k "length" then Some (JNum (Z.of_nat (length l)))
      else match key_number k with
           | Some n => Some (item l n)
           | None => None
           end
  | JStr s, TIdx n => Some (char_item s n)
  | JStr s, TKey k =>
      if String.eqb k "length" then Some (JNum (Z.of_nat (String.length s)))
      else match key_number k with
           | Some n => Some (char_item s n)
           | None => None
           end
  | JFn n, TKey k => if String.eqb k "name" then Some (JStr n) else None
  | (JFn _ | JNum _ | JBool _), TIdx _ => Some JUndef
  | (JNum _ | JBool _), TKey _ => None
  end.

(** The loop of [getByPath]. *)
Fixpoint walk (cur : JsVal) (tokens : list Token) (def : JsVal) : option JsVal :=
  match tokens with
  | [] => Some (match cur with JUndef => def | _ => cur end)
  | t :: rest =>
      if nullish cur then Some def
      else match get_prop cur t with
           | Some v => walk v rest def
           | None => None
           end
  end.

(** const getByPath = (obj, path, def) => ... (string paths) *)
Definition getByPath (obj : JsVal) (path : string) (def : JsVal) : option JsVal :=
  walk obj (pathToTokens path) def.

(** ** L.interpolate *)

Definition drop_spaces (s : string) : string := snd (span is_space s).

(** One attempt of [/\{\{\s*([\w.[\]0-9]+)\s*\}\}/] at the head of [s]:
    the captured path and the number of characters the match spans. *)
Definition match_placeholder (s : string) : option (string * nat) :=
  match s with
  | String c1 (String c2 s1) =>
      if Ascii.eqb c1 "{" && Ascii.eqb c2 "{" then
        let s2 := drop_spaces s1 in
        let '(p, s3) := span is_path_char s2 in
        let s4 := drop_spaces s3 in
        match p, s4 with
        | String _ _, String c3 (String c4 rest) =>
            if Ascii.eqb c3 "}" && Ascii.eqb c4 "}"
            then Some (p, String.length s - String.length rest)
            else None
        | _, _ => None
        end
      else None
  | _ => None
  end.

(** [v == null ? '' : String(v)] *)
Definition shown (v : JsVal) : string :=
  if nullish v then EmptyString else to_String v.

(** The replacer callback: (_, p) => { v = getByPath(data, p); ... } *)
Definition replacement (data : JsVal) (p : string) : option string :=
  shown <$> getByPath data p JUndef.

(** [tpl.replace(re, replacer)] with the global flag; [None] when a
    lookup is undetermined. *)
Fixpoint replace_from (data : JsVal) (skip : nat) (s : string) : option string :=
  match s with
  | EmptyString => Some EmptyString
  | String c s' =>
      match skip with
      | S k => replace_from data k s'
      | O =>
          match match_placeholder s with
          | Some (p, len) =>
              match replacement data p, replace_from data (len - 1) s' with
              | Some r, Some rest => Some (r +:+ rest)
              | _, _ => None
              end
          | None => String c <$> replace_from data 0 s'
          end
      end
  end.

(** L.interpolate = (tpl, data) => tpl.replace(...), for a string [tpl] *)
Definition interpolate (tpl : string) (data : JsVal) : option string :=
  replace_from data 0 tpl.

(** ** Error tables and L.assert *)

(** An error object: its message, and the [code] and [info] fields
    [L.assert] attaches.  The message is [None] where the model does not
    determine the text.  An error without a code has the empty code
    (which [L.assert] never attaches) and the info [undefined]. *)
Record JsError := {
  err_message : option string;
  err_code : string;
  err_info : JsVal
}.

(** A TypeError of the engine or of the host; its text is theirs. *)
Definition type_error : JsError :=
  {| err_message := None; err_code := EmptyString; err_info := JUndef |}.

Inductive Result (A : Type) :=
| Ok (a : A)
| Throw (e : JsError).
Arguments Ok {A} a.
Arguments Throw {A} e.

(** L.errors and L._errorsByNs, by their own properties, which are
    strings.  [L.errors] is a plain object; [L._errorsByNs] and the store
    of each namespace are made by Object.create(null) and inherit
    nothing. *)
Record LState := {
  errors : gmap string string;
  _errorsByNs : gmap string (gmap string string)
}.

Definition dq : string := String (ascii_of_nat 34) EmptyString.

(** The table [L.errors] is initialised with. *)
Definition default_errors : gmap string string :=
  list_to_map [
    ("E_INVALID_ID", "Invalid id " +:+ dq +:+ "{{id}}" +:+ dq);
    ("E_NO_ELEMENT", "No element found with id " +:+ dq +:+ "{{id}}" +:+ dq);
    ("E_INSTANCE_EXISTS",
       "Instance " +:+ dq +:+ "{{cls}}" +:+ dq +:+ " for #{{id}} already exists");
    ("E_ALREADY_DESTRUCTED",
       "Instance " +:+ dq +:+ "{{cls}}" +:+ dq +:+ " for #{{id}} already destructed");
    ("E_DESTRUCT_IN_PROGRESS",
       "Destruction already in progress for " +:+ dq +:+ "{{cls}}" +:+ dq +:+ " #{{id}}");
    ("E_NO_ROOT", "Root element is required for " +:+ dq +:+ "{{cls}}" +:+ dq);
    ("E_ASSERT_FAILED", "Assertion failed: {{message}}")
  ].

(** What LightBase registers under its namespace when it is loaded. *)
Definition LightBase_errors : gmap string string :=
  list_to_map [
    ("CONFLICT_OWNER",
       "Element #{{id}} is already owned by " +:+ dq +:+ "{{owner}}" +:+ dq);
    ("INVALID_CONSTRUCTOR_ID",
       "Constructor requires a non-empty string id without " +:+ dq +:+ "#" +:+ dq);
    ("ALREADY_DESTRUCTED",
       "Instance " +:+ dq +:+ "{{cls}}" +:+ dq +:+ " for #{{id}} already destructed");
    ("DESTRUCT_IN_PROGRESS",
       "Destruction already in progress for " +:+ dq +:+ "{{cls}}" +:+ dq +:+ " #{{id}}")
  ].

Definition loaded : LState :=
  {| errors := default_errors;
     _errorsByNs := {[ "LightBase" := LightBase_errors ]} |}.

Definition is_dot (c : ascii) : bool := Ascii.eqb c ".".

Fixpoint includes_char (c : ascii) (s : string) : bool :=
  match s with
  | EmptyString => false
  | String c' s' => Ascii.eqb c c' || includes_char c s'
  end.

(** [code.split('.')[0]] and [code.slice(ns.length + 1)] *)
Definition split_code (code : string) : string * string :=
  let '(ns, rest) := span (fun c => negb (is_dot c)) code in
  (ns, match rest with EmptyString => EmptyString | String _ c => c end).

(** [L.errors[code]]: an own property, or else what Object.prototype
    has under that name. *)
Definition errors_get (st : LState) (code : string) : JsVal :=
  match errors st !! code with
  | Some s => JStr s
  | None => prototype_member code
  end.

(** The template [L.assert] resolves for [code]:
    [tpl = (L._errorsByNs[ns] && L._errorsByNs[ns][c]) || ''], then
    [if (!tpl) tpl = L.errors[code] || '{{message}}'].  It is no string
    when [code] names a member of Object.prototype that [L.errors] does
    not own. *)
Definition resolve_template (st : LState) (code : string) : JsVal :=
  let tpl :=
    if includes_char "." code then
      let '(ns, c) := split_code code in
      default EmptyString (_errorsByNs st !! ns ≫= (.!! c))
    else EmptyString in
  if negb (String.eqb tpl EmptyString) then JStr tpl
  else
    let t := errors_get st code in
    if truthy t then t else JStr "{{message}}".

(** The [data] object of [L.assert]. *)
Definition assert_data (code : string) (dataOrMessage : JsVal) : JsVal :=
  match dataOrMessage with
  | JObj _ | JArr _ => dataOrMessage
  | _ =>
      let m :=
        if truthy dataOrMessage then to_String dataOrMessage
        else if negb (String.eqb code EmptyString) then code
        else "Assertion failed" in
      JObj {[ "message" := JStr m ]}
  end.

(** What [L.assert] throws when [cond] is falsy: the error it builds
    or, when the template is no string, the TypeError of
    [L.interpolate], whose [tpl.replace] is then no function. *)
Definition assert_error (st : LState) (code : string) (dataOrMessage : JsVal)
  : JsError :=
  let data := assert_data code dataOrMessage in
  match resolve_template st code with
  | JStr tpl =>
      {| err_message := interpolate tpl data;
         err_code := if negb (String.eqb code EmptyString) then code
                     else "E_ASSERT_FAILED";
         err_info := data |}
  | _ => type_error
  end.

(** L.assert = function(cond, code, dataOrMessage) *)
Definition assert (st : LState) (cond : bool) (code : string)
    (dataOrMessage : JsVal) : Result unit :=
  if cond then Ok tt else Throw (assert_error st code dataOrMessage).

End LFacade.

(* ===================================================================== *)
(** * LightBase: the component base                                       *)
(* ===================================================================== *)

Module Base.

Import LFacade.
Local Open Scope string_scope.
Local Open Scope nat_scope.

(** ** The DOM the base class touches

    Elements are objects of a store, addressed by reference; an element
    that was removed from its parent stays in the store (the instances
    bound to it keep their reference).  Only what LightBase reads or
    writes is kept: the [id], the [data-light-name] attribute, the parent
    and the child elements. *)

Record Element := {
  el_id : string;
  el_marker : option string;
  el_parent : option nat;
  el_children : list nat
}.

Record Dom := {
  elems : gmap nat Element;
  doc_children : list nat
}.

Definition set_marker (m : option string) (x : Element) : Element :=
  {| el_id := el_id x; el_marker := m;
     el_parent := el_parent x; el_children := el_children x |}.

Definition set_parent (p : option nat) (x : Element) : Element :=
  {| el_id := el_id x; el_marker := el_marker x;
     el_parent := p; el_children := el_children x |}.

Definition set_children (c : list nat) (x : Element) : Element :=
  {| el_id := el_id x; el_marker := el_marker x;
     el_parent := el_parent x; el_children := c |}.

Definition with_elems (f : gmap nat Element -> gmap nat Element) (d : Dom) : Dom :=
  {| elems := f (elems d); doc_children := doc_children d |}.

(** el.getAttribute('data-light-name') *)
Definition getAttribute (d : Dom) (e : nat) : option string :=
  elems d !! e ≫= el_marker.

(** el.id *)
Definition getId (d : Dom) (e : nat) : string :=
  default EmptyString (el_id <$> elems d !! e).

(** el.parentElement *)
Definition parentElement (d : Dom) (e : nat) : option nat :=
  elems d !! e ≫= el_parent.

Definition children (d : Dom) (e : nat) : list nat :=
  default [] (el_children <$> elems d !! e).

(** el.setAttribute('data-light-name', v) *)
Definition setAttribute (d : Dom) (e : nat) (v : string) : Dom :=
  with_elems (alter (set_marker (Some v)) e) d.

(** el.removeAttribute('data-light-name') *)
Definition removeAttribute (d : Dom) (e : nat) : Dom :=
  with_elems (alter (set_marker None) e) d.

(** The descendants of [e] in document order.  A DOM tree is finite and
    acyclic; [fuel] bounds the nesting depth that is followed. *)
Fixpoint descendants (fuel : nat) (d : Dom) (e : nat) : list nat :=
  match fuel with
  | O => []
  | S f => flat_map (fun c => c :: descendants f d c) (children d e)
  end.

Definition dom_fuel (d : Dom) : nat := S (size (elems d)).

(** The elements of the document, in document order. *)
Definition document_order (d : Dom) : list nat :=
  flat_map (fun c => c :: descendants (dom_fuel d) d c) (doc_children d).

(** document.getElementById(id) *)
Definition getElementById (d : Dom) (i : string) : option nat :=
  List.find (fun e => String.eqb (getId d e) i) (document_order d).

(** document.querySelector(sel); a selector string is represented by the
    test it denotes on an element. *)
Definition querySelector (d : Dom) (sel : Element -> bool) : option nat :=
  List.find (fun e => match elems d !! e with Some x => sel x | None => false end)
            (document_order d).

(** root.querySelectorAll('[data-light-name]'), as L(root).find(...) *)
Definition find_marked (d : Dom) (root : nat) : list nat :=
  List.filter (fun e => match getAttribute d e with Some _ => true | None => false end)
              (descendants (dom_fuel d) d root).

(** L.dom.clear(el): remove every child *)
Definition clear (d : Dom) (e : nat) : Dom :=
  let kids := children d e in
  with_elems (fun m =>
    alter (set_children []) e
      (foldr (fun c acc => alter (set_parent None) c acc) m kids)) d.

(** The local function [depth] of [_collectOwnedDescendantsDeepFirst]:
    [while (p && p !== this.root) { p = p.parentElement; d++; }] *)
Fixpoint depth_from (fuel : nat) (d : Dom) (root : nat) (p : option nat) : nat :=
  match fuel, p with
  | S f, Some e =>
      if Nat.eqb e root then 0
      else S (depth_from f d root (parentElement d e))
  | _, _ => 0
  end.

Definition depth (d : Dom) (root : nat) (el : nat) : nat :=
  depth_from (dom_fuel d) d root (Some el).

(** [nodes.sort((a, b) => depth(b) - depth(a))]: Array.prototype.sort is
    stable, so elements of equal depth keep their document order. *)
Fixpoint insert_desc (key : nat -> nat) (x : nat) (l : list nat) : list nat :=
  match l with
  | [] => [x]
  | y :: l' => if key x <? key y then y :: insert_desc key x l' else x :: l
  end.

Fixpoint sort_desc (key : nat -> nat) (l : list nat) : list nat :=
  match l with
  | [] => []
  | x :: l' => insert_desc key x (sort_desc key l')
  end.

(** _collectOwnedDescendantsDeepFirst() *)
Definition _collectOwnedDescendantsDeepFirst (d : Dom) (root : nat) : list nat :=
  sort_desc (depth d root) (find_marked d root).

(** ** Values handed to the base class *)

(** An argument of [addEvent]: a function, a string, a boolean or nothing. *)
Inductive JsArg := AUndef | AFn (f : nat) | AStr (s : string) | ABool (b : bool).

Definition arg_truthy (a : JsArg) : bool :=
  match a with
  | AUndef => false
  | AFn _ => true
  | AStr s => negb (String.eqb s EmptyString)
  | ABool b => b
  end.

Definition is_function (a : JsArg) : bool :=
  match a with AFn _ => true | _ => false end.

(** [a || false] *)
Definition or_false (a : JsArg) : JsArg :=
  if arg_truthy a then a else ABool false.

Inductive EventTarget := TWindow | TDocument | TElem (e : nat).

(** The [target] argument of [addEvent]: a selector string, an object, or
    a falsy value. *)
Inductive Target :=
| TSelector (sel : Element -> bool)
| TObject (t : EventTarget)
| TFalsy.

(** A record of [_listeners]; [l_uid] is the identity of the object. *)
Record ListenerRec := {
  l_uid : nat;
  l_target : EventTarget;
  l_type : string;
  l_selector : JsArg;
  l_handler : JsArg;
  l_opts : JsArg
}.

(** A function handed over by the client (a disposer): calling it either
    returns or throws. *)
Record Callback := { cb_id : nat; cb_throws : bool }.

(** An AbortController: its identity and whether [abort()] throws. *)
Abbreviation AbortCtl := (nat * bool)%type.

(** The [destruct] an instance answers to: the inherited one, or an
    override of a subclass that throws before or after calling
    [super.destruct()]. *)
Inductive DestructMethod :=
| Inherited
| ThrowsBeforeSuper (e : JsError)
| ThrowsAfterSuper (e : JsError).

(** What [getClassName] and the constructor read from a class. *)
Record Class := {
  c_name : string;
  c_version : string;
  c_destruct : DestructMethod
}.

Inductive Level := info | warning | danger.

Inductive LogArgs :=
| LogText (s : string)
| LogChildError (text : string) (e : JsError).

Inductive ObserverKind := resize | intersection | mutation.

(** Calls that leave the base class: the event bus, the host timers, the
    client's callbacks, the logger; and [EvDestruct i], the moment the
    [destruct()] of instance [i] has passed its two guards and begins. *)
Inductive Event :=
| EvOn (t : EventTarget) (type : string) (selector handler opts : JsArg)
| EvOff (uid : nat) (t : EventTarget) (type : string) (selector handler : JsArg)
| EvObserve (k : ObserverKind) (el : nat) (handler : nat) (disposer : nat)
| EvSetTimeout (h : nat) (fn ms : nat)
| EvClearTimeout (h : nat)
| EvSetInterval (h : nat) (fn ms : nat)
| EvClearInterval (h : nat)
| EvRequestFrame (h : nat) (fn : nat)
| EvCancelFrame (h : nat)
| EvCall (d : Callback)
| EvAbort (ac : AbortCtl)
| EvLog (lvl : Level) (args : LogArgs)
| EvDestruct (inst : nat).

(** ** Instances and the world *)

Record Instance := {
  inst_id : string;
  root : nat;
  className : string;
  version : string;
  locale : JsVal;
  isDestructing : bool;
  isDestructed : bool;
  _listeners : list ListenerRec;
  _disposers : list Callback;
  _timeouts : gset nat;
  _intervals : gset nat;
  _rafs : gset nat;
  _aborts : gset AbortCtl;
  destructImpl : DestructMethod
}.

(** What the code reads but never writes. *)
Record Env := {
  lstate : LState;
  logLevel : nat;
  LNG : JsVal;
  envLNG : JsVal
}.

Record World := {
  env : Env;
  dom : Dom;
  REG : gmap string (gmap string nat);
  heap : list Instance;
  nextTimer : nat;
  nextFrame : nat;
  nextUid : nat;
  trace : list Event
}.

Definition with_dom (f : Dom -> Dom) (w : World) : World :=
  {| env := env w; dom := f (dom w); REG := REG w; heap := heap w;
     nextTimer := nextTimer w; nextFrame := nextFrame w;
     nextUid := nextUid w; trace := trace w |}.

Definition with_REG (f : gmap string (gmap string nat) -> gmap string (gmap string nat))
    (w : World) : World :=
  {| env := env w; dom := dom w; REG := f (REG w); heap := heap w;
     nextTimer := nextTimer w; nextFrame := nextFrame w;
     nextUid := nextUid w; trace := trace w |}.

Definition with_heap (f : list Instance -> list Instance) (w : World) : World :=
  {| env := env w; dom := dom w; REG := REG w; heap := f (heap w);
     nextTimer := nextTimer w; nextFrame := nextFrame w;
     nextUid := nextUid w; trace := trace w |}.

Definition emit (evs : list Event) (w : World) : World :=
  {| env := env w; dom := dom w; REG := REG w; heap := heap w;
     nextTimer := nextTimer w; nextFrame := nextFrame w;
     nextUid := nextUid w; trace := (trace w ++ evs)%list |}.

Definition bump_timer (w : World) : World :=
  {| env := env w; dom := dom w; REG := REG w; heap := heap w;
     nextTimer := S (nextTimer w); nextFrame := nextFrame w;
     nextUid := nextUid w; trace := trace w |}.

Definition bump_frame (w : World) : World :=
  {| env := env w; dom := dom w; REG := REG w; heap := heap w;
     nextTimer := nextTimer w; nextFrame := S (nextFrame w);
     nextUid := nextUid w; trace := trace w |}.

Definition bump_uid (w : World) : World :=
  {| env := env w; dom := dom w; REG := REG w; heap := heap w;
     nextTimer := nextTimer w; nextFrame := nextFrame w;
     nextUid := S (nextUid w); trace := trace w |}.

(** Assign to fields of the object [this]. *)
Definition update (this : nat) (f : Instance -> Instance) (w : World) : World :=
  with_heap (alter f this) w.

(** ** Instance fields *)

Definition set_flags (destructing destructed : bool) (i : Instance) : Instance :=
  {| inst_id := inst_id i; root := root i; className := className i;
     version := version i; locale := locale i;
     isDestructing := destructing; isDestructed := destructed;
     _listeners := _listeners i; _disposers := _disposers i;
     _timeouts := _timeouts i; _intervals := _intervals i; _rafs := _rafs i;
     _aborts := _aborts i; destructImpl := destructImpl i |}.

Definition set_listeners (l : list ListenerRec) (i : Instance) : Instance :=
  {| inst_id := inst_id i; root := root i; className := className i;
     version := version i; locale := locale i;
     isDestructing := isDestructing i; isDestructed := isDestructed i;
     _listeners := l; _disposers := _disposers i;
     _timeouts := _timeouts i; _intervals := _intervals i; _rafs := _rafs i;
     _aborts := _aborts i; destructImpl := destructImpl i |}.

Definition set_disposers (l : list Callback) (i : Instance) : Instance :=
  {| inst_id := inst_id i; root := root i; className := className i;
     version := version i; locale := locale i;
     isDestructing := isDestructing i; isDestructed := isDestructed i;
     _listeners := _listeners i; _disposers := l;
     _timeouts := _timeouts i; _intervals := _intervals i; _rafs := _rafs i;
     _aborts := _aborts i; destructImpl := destructImpl i |}.

Definition set_timeouts (s : gset nat) (i : Instance) : Instance :=
  {| inst_id := inst_id i; root := root i; className := className i;
     version := version i; locale := locale i;
     isDestructing := isDestructing i; isDestructed := isDestructed i;
     _listeners := _listeners i; _disposers := _disposers i;
     _timeouts := s; _intervals := _intervals i; _rafs := _rafs i;
     _aborts := _aborts i; destructImpl := destructImpl i |}.

Definition set_intervals (s : gset nat) (i : Instance) : Instance :=
  {| inst_id := inst_id i; root := root i; className := className i;
     version := version i; locale := locale i;
     isDestructing := isDestructing i; isDestructed := isDestructed i;
     _listeners := _listeners i; _disposers := _disposers i;
     _timeouts := _timeouts i; _intervals := s; _rafs := _rafs i;
     _aborts := _aborts i; destructImpl := destructImpl i |}.

Definition set_rafs (s : gset nat) (i : Instance) : Instance :=
  {| inst_id := inst_id i; root := root i; className := className i;
     version := version i; locale := locale i;
     isDestructing := isDestructing i; isDestructed := isDestructed i;
     _listeners := _listeners i; _disposers := _disposers i;
     _timeouts := _timeouts i; _intervals := _intervals i; _rafs := s;
     _aborts := _aborts i; destructImpl := destructImpl i |}.

Definition set_aborts (s : gset AbortCtl) (i : Instance) : Instance :=
  {| inst_id := inst_id i; root := root i; className := className i;
     version := version i; locale := locale i;
     isDestructing := isDestructing i; isDestructed := isDestructed i;
     _listeners := _listeners i; _disposers := _disposers i;
     _timeouts := _timeouts i; _intervals := _intervals i; _rafs := _rafs i;
     _aborts := s; destructImpl := destructImpl i |}.

(** The lifecycle state the two flags encode. *)
Inductive Lifecycle := Active | Destructing | Destructed.

Definition lifecycle (i : Instance) : Lifecycle :=
  if isDestructed i then Destructed
  else if isDestructing i then Destructing
  else Active.

(** [!inst.isDestructing && !inst.isDestructed] *)
Definition is_active (i : Instance) : bool :=
  negb (isDestructing i) && negb (isDestructed i).

(** ** Registry and logger *)

(** function getClassName(cls) *)
Definition getClassName (C : Class) : string :=
  if String.eqb (c_name C) EmptyString then "UnnamedClass" else c_name C.

(** function ensureClassBucket(className) *)
Definition ensureClassBucket (cls : string) (w : World) : World :=
  match REG w !! cls with
  | Some _ => w
  | None => with_REG (insert cls ∅) w
  end.

(** [REG[cls] && REG[cls][id]] *)
Definition lookupReg (w : World) (cls i : string) : option nat :=
  REG w !! cls ≫= (.!! i).

Definition level_num (l : Level) : nat :=
  match l with danger => 1 | warning => 2 | info => 3 end.

(** L.log.isEnabled(lvl) *)
Definition isEnabled (w : World) (l : Level) : bool :=
  (level_num l <=? logLevel (env w)) && negb (logLevel (env w) =? 0).

(** A call of [L.log.<lvl>(...)]. *)
Definition L_log (l : Level) (a : LogArgs) (w : World) : World :=
  emit [EvLog l a] w.

(** The scoped logger [this.log.<lvl>(() => text)] of an instance. *)
Definition scoped_log (cls i : string) (l : Level) (text : string) (w : World) : World :=
  if isEnabled w l
  then L_log l (LogText ("[" +:+ cls +:+ "#" +:+ i +:+ "] " +:+ text)) w
  else w.

Definition L_assert (w : World) (cond : bool) (code : string) (ctx : JsVal)
  : Result unit :=
  assert (lstate (env w)) cond code ctx.

(** What [L.assert(false, code, ctx)] throws. *)
Definition L_error (w : World) (code : string) (ctx : JsVal) : JsError :=
  assert_error (lstate (env w)) code ctx.

(** ** constructor(id, options = {}) *)

(** [!!id && typeof id === 'string' && !id.includes('#')] *)
Definition valid_id (i : string) : bool :=
  negb (String.eqb i EmptyString) && negb (includes_char "#" i).

Definition owner_val (o : option string) : JsVal :=
  match o with Some s => JStr s | None => JNull end.

(** [!owner || owner === cls] *)
Definition owner_ok (o : option string) (cls : string) : bool :=
  match o with
  | None => true
  | Some s => String.eqb s EmptyString || String.eqb s cls
  end.

Definition read_locale (w : World) : JsVal :=
  if truthy (LNG (env w)) then JStr (to_String (LNG (env w)))
  else if truthy (envLNG (env w)) then envLNG (env w)
  else JStr "pl".

Definition new_instance (C : Class) (i : string) (el : nat) (w : World) : Instance :=
  {| inst_id := i; root := el; className := getClassName C;
     version := if String.eqb (c_version C) EmptyString then "0.0.0" else c_version C;
     locale := read_locale w;
     isDestructing := false; isDestructed := false;
     _listeners := []; _disposers := [];
     _timeouts := ∅; _intervals := ∅; _rafs := ∅; _aborts := ∅;
     destructImpl := c_destruct C |}.

Definition construct (C : Class) (i : string) (w : World) : Result nat * World :=
  let cls := getClassName C in
  let ctx := JObj {[ "id" := JStr i; "cls" := JStr cls ]} in
  match L_assert w (valid_id i) "LightBase.INVALID_CONSTRUCTOR_ID" ctx with
  | Throw e => (Throw e, w)
  | Ok _ =>
  let w := ensureClassBucket cls w in
  match L_assert w (negb (bool_decide (is_Some (lookupReg w cls i))))
                 "E_INSTANCE_EXISTS" ctx with
  | Throw e => (Throw e, w)
  | Ok _ =>
  match getElementById (dom w) i with
  | None => (Throw (L_error w "E_NO_ELEMENT" ctx), w)
  | Some el =>
  let owner := getAttribute (dom w) el in
  match L_assert w (owner_ok owner cls) "LightBase.CONFLICT_OWNER"
                 (JObj {[ "id" := JStr i; "owner" := owner_val owner ]}) with
  | Throw e => (Throw e, w)
  | Ok _ =>
  let w := with_dom (fun d => setAttribute d el cls) w in
  let this := length (heap w) in
  let inst := new_instance C i el w in
  let w := with_heap (fun h => (h ++ [inst])%list) w in
  let w := with_REG (fun r => <[cls := <[i := this]> (default ∅ (r !! cls))]> r) w in
  let w := scoped_log cls i info
             ("init v" +:+ version inst +:+ " locale=" +:+ to_String (locale inst)) w in
  (Ok this, w)
  end end end end.

(** ** Resource tracking *)

(** What [addEvent] returns: [() => {}] or [() => this._removeEvent(rec)]. *)
Inductive EventDisposer := NoopDisposer | RemoveEvent (rec : ListenerRec).

Definition resolve_target (w : World) (target : Target) : option EventTarget :=
  match target with
  | TSelector sel => TElem <$> querySelector (dom w) sel
  | TObject t => Some t
  | TFalsy => None
  end.

(** Whether the call of [L.on] throws.  With a truthy selector [L.on]
    hands the host a closure of its own; without one it hands over the
    handler itself, and [addEventListener] ignores null and undefined,
    takes a function, and refuses a string or a boolean with a
    TypeError. *)
Definition on_throws (selector handler : JsArg) : bool :=
  negb (arg_truthy selector)
  && match handler with AStr _ | ABool _ => true | AUndef | AFn _ => false end.

(** addEvent(target, type, selectorOrFn, fnOrOpts, maybeOpts): an
    exception of [L.on] leaves the method before the record is made. *)
Definition addEvent (this : nat) (target : Target) (type : string)
    (selectorOrFn fnOrOpts maybeOpts : JsArg) (w : World)
  : Result EventDisposer * World :=
  match resolve_target w target with
  | None => (Ok NoopDisposer, w)
  | Some t =>
      let '(selector, handler, opts) :=
        if is_function selectorOrFn
        then (AUndef, selectorOrFn, or_false fnOrOpts)
        else (selectorOrFn, fnOrOpts, or_false maybeOpts) in
      let w := emit [EvOn t type selector handler opts] w in
      if on_throws selector handler then (Throw type_error, w)
      else
        let rec := {| l_uid := nextUid w; l_target := t; l_type := type;
                      l_selector := selector; l_handler := handler;
                      l_opts := opts |} in
        let w := bump_uid w in
        let w := update this (fun i => set_listeners ((_listeners i ++ [rec])%list) i) w in
        (Ok (RemoveEvent rec), w)
  end.

(** _removeEvent(rec): L.off with or without the selector.  The call is
    taken to return, as it does unless the registry of L holds a record
    that a throwing [L.on] left behind (see [Events]). *)
Definition _removeEvent (rec : ListenerRec) (w : World) : World :=
  emit [EvOff (l_uid rec) (l_target rec) (l_type rec)
              (if arg_truthy (l_selector rec) then l_selector rec else AUndef)
              (l_handler rec)] w.

Definition run_event_disposer (d : EventDisposer) (w : World) : World :=
  match d with
  | NoopDisposer => w
  | RemoveEvent rec => _removeEvent rec w
  end.

(** addDisposer(fn); [None] stands for an argument that is no function *)
Definition addDisposer (this : nat) (fn : option Callback) (w : World)
  : Result (option Callback) * World :=
  match fn with
  | Some d => (Ok fn, update this (fun i => set_disposers ((_disposers i ++ [d])%list) i) w)
  | None => (Ok fn, w)
  end.

(** L.observe.<kind>(el, ...): a new observer and the function that
    disconnects it. *)
Definition L_observe (k : ObserverKind) (el handler : nat) (w : World)
  : Callback * World :=
  let d := {| cb_id := nextUid w; cb_throws := false |} in
  (d, bump_uid (emit [EvObserve k el handler (cb_id d)] w)).

Definition observe (k : ObserverKind) (this el handler : nat) (w : World)
  : Result Callback * World :=
  let '(dispose, w) := L_observe k el handler w in
  let '(_, w) := addDisposer this (Some dispose) w in
  (Ok dispose, w).

Definition observeResize := observe resize.
Definition observeIntersection := observe intersection.
Definition observeMutation := observe mutation.

(** setT(fn, ms) *)
Definition setT (this fn ms : nat) (w : World) : Result nat * World :=
  let h := nextTimer w in
  let w := bump_timer (emit [EvSetTimeout h fn ms] w) in
  (Ok h, update this (fun i => set_timeouts ({[h]} ∪ _timeouts i) i) w).

(** clearT(id) *)
Definition clearT (this h : nat) (w : World) : Result unit * World :=
  let w := emit [EvClearTimeout h] w in
  (Ok tt, update this (fun i => set_timeouts (_timeouts i ∖ {[h]}) i) w).

(** setI(fn, ms) *)
Definition setI (this fn ms : nat) (w : World) : Result nat * World :=
  let h := nextTimer w in
  let w := bump_timer (emit [EvSetInterval h fn ms] w) in
  (Ok h, update this (fun i => set_intervals ({[h]} ∪ _intervals i) i) w).

(** clearI(id) *)
Definition clearI (this h : nat) (w : World) : Result unit * World :=
  let w := emit [EvClearInterval h] w in
  (Ok tt, update this (fun i => set_intervals (_intervals i ∖ {[h]}) i) w).

(** requestFrame(fn) *)
Definition requestFrame (this fn : nat) (w : World) : Result nat * World :=
  let h := nextFrame w in
  let w := bump_frame (emit [EvRequestFrame h fn] w) in
  (Ok h, update this (fun i => set_rafs ({[h]} ∪ _rafs i) i) w).

(** cancelFrame(id) *)
Definition cancelFrame (this h : nat) (w : World) : Result unit * World :=
  let w := emit [EvCancelFrame h] w in
  (Ok tt, update this (fun i => set_rafs (_rafs i ∖ {[h]}) i) w).

(** addAbortController(ac); [None] stands for an argument without an
    [abort] function *)
Definition addAbortController (this : nat) (ac : option AbortCtl) (w : World)
  : Result (option AbortCtl) * World :=
  match ac with
  | Some a => (Ok ac, update this (fun i => set_aborts ({[a]} ∪ _aborts i) i) w)
  | None => (Ok ac, w)
  end.

(** ** destruct() *)

Definition callback_error : JsError :=
  {| err_message := Some "callback failed"; err_code := EmptyString;
     err_info := JUndef |}.

(** d() *)
Definition call_cb (d : Callback) (w : World) : Result unit * World :=
  let w := emit [EvCall d] w in
  if cb_throws d then (Throw callback_error, w) else (Ok tt, w).

(** ac.abort() *)
Definition abort (ac : AbortCtl) (w : World) : Result unit * World :=
  let w := emit [EvAbort ac] w in
  if snd ac then (Throw callback_error, w) else (Ok tt, w).

(** [try { m } catch(_){}] *)
Definition swallow {A} (m : World -> Result A * World) (w : World) : World :=
  snd (m w).

(** [try { body } finally { fin }]; [None] when the fuel ran out. *)
Definition try_finally {A} (body : World -> option (Result A * World))
    (fin : World -> World) (w : World) : option (Result A * World) :=
  match body w with
  | Some (r, w') => Some (r, fin w')
  | None => None
  end.

(** The call [inst.destruct()]: the method the instance answers to, with
    [base] for LightBase.prototype.destruct. *)
Definition invoke (base : nat -> World -> option (Result unit * World))
    (i : nat) (w : World) : option (Result unit * World) :=
  match destructImpl <$> heap w !! i with
  | None => None
  | Some Inherited => base i w
  | Some (ThrowsBeforeSuper e) => Some (Throw e, w)
  | Some (ThrowsAfterSuper e) =>
      match base i w with
      | Some (Ok _, w') => Some (Throw e, w')
      | r => r
      end
  end.

(** One turn of the loop over [nodes] (step 1 of destruct). *)
Definition cascade_step (base : nat -> World -> option (Result unit * World))
    (el : nat) (w : World) : option World :=
  let cname := default EmptyString (getAttribute (dom w) el) in
  let cid := getId (dom w) el in
  if String.eqb cname EmptyString || String.eqb cid EmptyString then Some w
  else
    match lookupReg w cname cid with
    | None => Some w
    | Some i =>
        match heap w !! i with
        | None => Some w
        | Some inst =>
            if is_active inst then
              match invoke base i w with
              | None => None
              | Some (Ok _, w') => Some w'
              | Some (Throw e, w') =>
                  Some (L_log danger (LogChildError "child destruct error" e) w')
              end
            else Some w
        end
    end.

Fixpoint cascade (base : nat -> World -> option (Result unit * World))
    (nodes : list nat) (w : World) : option World :=
  match nodes with
  | [] => Some w
  | el :: rest =>
      match cascade_step base el w with
      | None => None
      | Some w' => cascade base rest w'
      end
  end.

(** Step 2: listeners, disposers, timers, frames, aborts. *)
Definition release_listeners (this : nat) (w : World) : World :=
  match heap w !! this with
  | None => w
  | Some inst =>
      update this (set_listeners [])
             (foldl (fun w rec => _removeEvent rec w) w (_listeners inst))
  end.

Definition run_disposers (this : nat) (w : World) : World :=
  match heap w !! this with
  | None => w
  | Some inst =>
      update this (set_disposers [])
             (foldl (fun w d => swallow (call_cb d) w) w (_disposers inst))
  end.

Definition clear_timeouts (this : nat) (w : World) : World :=
  match heap w !! this with
  | None => w
  | Some inst =>
      update this (set_timeouts ∅)
             (emit (map EvClearTimeout (elements (_timeouts inst))) w)
  end.

Definition clear_intervals (this : nat) (w : World) : World :=
  match heap w !! this with
  | None => w
  | Some inst =>
      update this (set_intervals ∅)
             (emit (map EvClearInterval (elements (_intervals inst))) w)
  end.

Definition cancel_frames (this : nat) (w : World) : World :=
  match heap w !! this with
  | None => w
  | Some inst =>
      update this (set_rafs ∅)
             (emit (map EvCancelFrame (elements (_rafs inst))) w)
  end.

Definition run_aborts (this : nat) (w : World) : World :=
  match heap w !! this with
  | None => w
  | Some inst =>
      update this (set_aborts ∅)
             (foldl (fun w ac => swallow (abort ac) w) w (elements (_aborts inst)))
  end.

(** Steps 3 and 4: clear the own DOM, remove the attribute. *)
Definition clear_root (this : nat) (w : World) : World :=
  match heap w !! this with
  | None => w
  | Some inst => with_dom (fun d => clear d (root inst)) w
  end.

Definition unmark_root (this : nat) (w : World) : World :=
  match heap w !! this with
  | None => w
  | Some inst => with_dom (fun d => removeAttribute d (root inst)) w
  end.

(** Step 5: [if (bucket[id] === this) delete bucket[id]] *)
Definition release (cls i : string) (this : nat) (w : World) : World :=
  match lookupReg w cls i with
  | Some j => if Nat.eqb j this then with_REG (alter (delete i) cls) w else w
  | None => w
  end.

(** The closing log line of the [try] block. *)
Definition log_destructed (this : nat) (w : World) : World :=
  match heap w !! this with
  | None => w
  | Some inst =>
      if isEnabled w info
      then L_log info (LogText ("destructed v" +:+ version inst)) w
      else w
  end.

(** Everything of the [try] block after the cascade. *)
Definition cleanup (cls i : string) (this : nat) (w : World) : World :=
  let w := release_listeners this w in
  let w := run_disposers this w in
  let w := clear_timeouts this w in
  let w := clear_intervals this w in
  let w := cancel_frames this w in
  let w := run_aborts this w in
  let w := clear_root this w in
  let w := unmark_root this w in
  let w := release cls i this w in
  log_destructed this w.

(** The [finally] block. *)
Definition finish (this : nat) (w : World) : World :=
  update this (set_flags false true) w.

Definition cls_ctx (cls i : string) : JsVal :=
  JObj {[ "cls" := JStr cls; "id" := JStr i ]}.

(** The [try] block of destruct. *)
Definition destruct_body (base : nat -> World -> option (Result unit * World))
    (cls i : string) (this : nat) (w : World) : option (Result unit * World) :=
  match heap w !! this with
  | None => None
  | Some inst =>
      let nodes := _collectOwnedDescendantsDeepFirst (dom w) (root inst) in
      match cascade base nodes w with
      | None => None
      | Some w => Some (Ok tt, cleanup cls i this w)
      end
  end.

(** LightBase.prototype.destruct.  [fuel] bounds the nesting of the
    cascade; the result is [None] only when it ran out, or when [this]
    is no instance. *)
Fixpoint destruct (fuel : nat) (this : nat) (w : World)
  : option (Result unit * World) :=
  match fuel with
  | O => None
  | S fuel' =>
      match heap w !! this with
      | None => None
      | Some inst =>
          let cls := className inst in
          let i := inst_id inst in
          let w := ensureClassBucket cls w in
          if isDestructed inst then
            Some (Throw (L_error w "LightBase.ALREADY_DESTRUCTED" (cls_ctx cls i)), w)
          else if isDestructing inst then
            Some (Throw (L_error w "LightBase.DESTRUCT_IN_PROGRESS" (cls_ctx cls i)), w)
          else
            let w := emit [EvDestruct this] w in
            let w := update this (set_flags true (isDestructed inst)) w in
            try_finally (destruct_body (destruct fuel') cls i this)
                        (finish this) w
      end
  end.

(** Enough fuel for any cascade started in [w]: every nested call runs
    on an instance that is still active. *)
Definition active_count (w : World) : nat :=
  length (List.filter is_active (heap w)).

Definition enough_fuel (w : World) : nat := S (active_count w).

End Base.

(* ===================================================================== *)
(** * L: further utilities of the facade                                  *)
(* ===================================================================== *)

Module LUtil.

Import LFacade.
Local Open Scope string_scope.

(** ** Strings *)

(** [s.startsWith(pre)] *)
Fixpoint starts_with (pre s : string) : bool :=
  match pre, s with
  | EmptyString, _ => true
  | String a pre', String b s' => Ascii.eqb a b && starts_with pre' s'
  | String _ _, EmptyString => false
  end.

(** [s.replace(/pat/g, rep)] for a pattern [pat] that is a non-empty
    literal string: the occurrences are found scanning from the left and
    do not overlap; [skip] counts the characters still covered by the
    previous match. *)
Fixpoint replace_lit_from (pat rep : string) (skip : nat) (s : string) : string :=
  match s with
  | EmptyString => EmptyString
  | String c s' =>
      match skip with
      | S k => replace_lit_from pat rep k s'
      | O =>
          if starts_with pat s
          then rep +:+ replace_lit_from pat rep (String.length pat - 1) s'
          else String c (replace_lit_from pat rep 0 s')
      end
  end.

Definition replace_all (pat rep s : string) : string :=
  replace_lit_from pat rep 0 s.

(** const escapeHTML = (s) => String(s).replace(/&/g, '&amp;')... *)
Definition escapeHTML (s : JsVal) : string :=
  replace_all "'" "&#39;"
    (replace_all dq "&quot;"
       (replace_all ">" "&gt;"
          (replace_all "<" "&lt;"
             (replace_all "&" "&amp;" (to_String s))))).

(** const unescapeHTML = (s) => String(s).replace(/&lt;/g, '<')... *)
Definition unescapeHTML (s : JsVal) : string :=
  replace_all "&amp;" "&"
    (replace_all "&#39;" "'"
       (replace_all "&quot;" dq
          (replace_all "&gt;" ">"
             (replace_all "&lt;" "<" (to_String s))))).

(** ** Numbers *)


(** ** Paths: setByPath, hasByPath *)

(** How a call that the engine may refuse ends: it returns, or a
    TypeError is thrown. *)
Inductive Completion (T : Type) :=
| Returns (t : T)
| TypeError.
Arguments Returns {T} t.
Arguments TypeError {T}.

(** const isObj = v => v !== null && typeof v === 'object' *)
Definition isObj (v : JsVal) : bool :=
  match v with JArr _ | JObj _ => true | _ => false end.

(** The property key a token is used as; [None] for a number the model
    does not carry. *)
Definition token_key (t : Token) : option string :=
  match t with
  | TIdx n => Some (pretty n)
  | TKey k => Some k
  | TRounded _ => None
  end.

(** The array index a token denotes: a number below 2^32 - 1, given as a
    number or as its canonical decimal form. *)
Definition token_index (t : Token) : option nat :=
  match t with
  | TIdx n => Some n
  | TKey k => key_number k
  | TRounded _ => None
  end
  ≫= fun n => if (n <? 4294967295)%N then Some (N.to_nat n) else None.

(** [arr[i] = v]: an index beyond the end makes the array grow; the
    elements in between were never assigned and read as undefined. *)
Definition store (l : list JsVal) (i : nat) (v : JsVal) : list JsVal :=
  if (i <? length l)%nat then <[i := v]> l
  else (l ++ replicate (i - length l) JUndef ++ [v])%list.

(** [cur[t] = v] in strict mode.  The result is [None] where the
    assignment leaves the values modelled: on a function object, on a
    named property (or the length) of an array, under a number the model
    does not carry, and on ['__proto__'], which sets the prototype unless
    the object owns a property of that name.  A boolean, a number or a
    string takes no property: the assignment throws. *)
Definition set_prop (cur : JsVal) (t : Token) (v : JsVal)
  : option (Completion JsVal) :=
  match cur with
  | JUndef | JNull => Some TypeError
  | JObj m =>
      match token_key t with
      | Some k =>
          if String.eqb k "__proto__" && negb (bool_decide (is_Some (m !! k)))
          then None
          else Some (Returns (JObj (<[k := v]> m)))
      | None => None
      end
  | JArr l =>
      match token_index t with
      | Some i => Some (Returns (JArr (store l i v)))
      | None => None
      end
  | JFn _ => None
  | JBool _ | JNum _ | JStr _ =>
      if bool_decide (token_key t = Some "__proto__") then None
      else Some TypeError
  end.

(** [typeof tokens[i + 1] === 'number' ? [] : {}] *)
Definition fresh_for (next : Token) : JsVal :=
  match next with
  | TIdx _ | TRounded _ => JArr []
  | TKey _ => JObj ∅
  end.

(** The loop and the last assignment of [setByPath], for a non-empty list
    of tokens.  The objects on the way are updated in place; the
    result is the value of [cur] after the call.  Where [cur[t]] is
    undetermined the result is, too, except on a boolean, a number or a
    string: what such a value has under a key other than ['__proto__']
    is never an object, so the assignment is made, and throws. *)
Fixpoint set_walk (cur : JsVal) (tokens : list Token) (val : JsVal)
  : option (Completion JsVal) :=
  match tokens with
  | [] => Some (Returns cur)
  | [t] => set_prop cur t val
  | t :: ((next :: _) as rest) =>
      if nullish cur then Some TypeError
      else
        match get_prop cur t with
        | None =>
            match cur with
            | JBool _ | JNum _ | JStr _ => set_prop cur t (fresh_for next)
            | _ => None
            end
        | Some child =>
            let start := if isObj child then child else fresh_for next in
            match set_prop cur t start with
            | Some (Returns _) =>
                match set_walk start rest val with
                | Some (Returns child') => set_prop cur t child'
                | other => other
                end
            | other => other
            end
        end
  end.

(** const setByPath = (obj, path, val) => ... (string paths); the values
    are trees, [val] shares nothing with [obj]. *)
Definition setByPath (obj : JsVal) (path : string) (val : JsVal)
  : option (Completion JsVal) :=
  match pathToTokens path with
  | [] => Some (Returns obj)
  | tokens => set_walk obj tokens val
  end.

(** The loop of [getByPath] when the default is the registered symbol
    Symbol.for('undef'): the result [Some None] stands for that symbol,
    which is none of the values modelled. *)
Fixpoint walk_sym (cur : JsVal) (tokens : list Token) : option (option JsVal) :=
  match tokens with
  | [] => Some (match cur with JUndef => None | _ => Some cur end)
  | t :: rest =>
      if nullish cur then Some None
      else match get_prop cur t with
           | Some v => walk_sym v rest
           | None => None
           end
  end.

(** const hasByPath = (obj, path) =>
      getByPath(obj, path, Symbol.for('undef')) !== Symbol.for('undef') *)
Definition hasByPath (obj : JsVal) (path : string) : option bool :=
  (fun r => bool_decide (is_Some r)) <$> walk_sym obj (pathToTokens path).

(** ** Arrays *)

Section Arrays.

Context {A : Type}.

(** The loop of [L.chunk]:
    [for (let i = 0; i < array.length; i += size)
       out.push(array.slice(i, i + size))];
    [fuel] bounds the number of turns. *)
Fixpoint chunk_loop (fuel : nat) (array : list A) (size i : nat) : list (list A) :=
  match fuel with
  | O => []
  | S f =>
      if (i <? length array)%nat
      then take size (drop i array) :: chunk_loop f array size (i + size)
      else []
  end.

(** [Math.max(1, size|0)] *)
Definition chunk_size (size : Q) : nat := Z.to_nat (Z.max 1 (Tip.bitor0 size)).

(** L.chunk = (array, size) => ... *)
Definition chunk (array : list A) (size : Q) : list (list A) :=
  chunk_loop (length array) array (chunk_size size) 0.

Context `{EqDecision A}.

(** [set.add(x)] on a Set, kept in insertion order.  The elements are
    compared as SameValueZero does, which on the values modelled is
    equality. *)
Definition set_add (s : list A) (x : A) : list A :=
  if decide (x ∈ s) then s else (s ++ [x])%list.

(** L.unique = (array) => Array.from(new Set(array)) *)
Definition unique (array : list A) : list A := foldl set_add [] array.

Context {K : Type} `{EqDecision K}.

(** [map.set(k, v)] on a Map, kept in insertion order: a key that is
    present keeps its place and takes the new value. *)
Fixpoint map_set (m : list (K * A)) (k : K) (v : A) : list (K * A) :=
  match m with
  | [] => [(k, v)]
  | (k', v') :: m' =>
      if decide (k' = k) then (k, v) :: m' else (k', v') :: map_set m' k v
  end.

(** L.uniqueBy = (array, keyFn) => { const map = new Map();
      array.forEach(item => map.set(keyFn(item), item));
      return Array.from(map.values()); } *)
Definition uniqueBy (array : list A) (keyFn : A -> K) : list A :=
  (foldl (fun m item => map_set m (keyFn item) item) [] array).*2.

(** One turn of the reducer of [L.groupBy]:
    [(acc[k] || (acc[k] = [])).push(it)].  The accumulator is a plain
    object: for a key it does not own, [acc[k]] is the member of
    Object.prototype of that name when there is one, which is truthy and
    has no [push]; the call is a TypeError, [None]. *)
Definition groupBy_step (keyFn : A -> string) (acc : gmap string (list A)) (it : A)
  : option (gmap string (list A)) :=
  let k := keyFn it in
  match acc !! k with
  | Some l => Some (<[k := (l ++ [it])%list]> acc)
  | None => if inherited k then None else Some (<[k := [it]]> acc)
  end.

(** L.groupBy = (array, keyFn) => array.reduce(..., {}); [None] when a
    turn throws the TypeError.  [keyFn] gives the property key its result
    is used as. *)
Definition groupBy (array : list A) (keyFn : A -> string)
  : option (gmap string (list A)) :=
  foldl (fun acc it => acc ≫= fun m => groupBy_step keyFn m it) (Some ∅) array.

End Arrays.

(** ** L.registerErrors *)

(** How a call that may [throw new Error(message)] ends. *)
Inductive Outcome (T : Type) :=
| Fine (t : T)
| Raised (message : string).
Arguments Fine {T} t.
Arguments Raised {T} message.

(** String.prototype.trim, on code units below 256 *)
Fixpoint trim_end (s : string) : string :=
  match s with
  | EmptyString => EmptyString
  | String c s' =>
      match trim_end s' with
      | EmptyString => if is_space c then EmptyString else String c EmptyString
      | r => String c r
      end
  end.

Definition trim (s : string) : string := trim_end (drop_spaces s).

(** The loop [for (const k of Object.keys(map))] of [registerErrors] over
    the entries of [map], on the store of the namespace. *)
Fixpoint register_loop (ns : string) (override : bool)
    (entries : list (string * JsVal)) (store : gmap string string)
  : Outcome unit * gmap string string :=
  match entries with
  | [] => (Fine tt, store)
  | (k, v) :: rest =>
      if negb override
         && negb (String.eqb (default EmptyString (store !! k)) EmptyString)
      then (Raised ("registerErrors: code " +:+ ns +:+ "." +:+ k
                    +:+ " already exists"), store)
      else register_loop ns override rest (<[k := to_String v]> store)
  end.

(** L.registerErrors = function(namespace, map, { override = false } = {}).
    [map] is given by its own enumerable properties in the order of
    Object.keys, [None] standing for an argument that is no object.  The
    call returns a frozen copy of the store of the namespace. *)
Definition registerErrors (namespace : JsVal)
    (map : option (list (string * JsVal))) (override : bool) (st : LState)
  : Outcome (option (gmap string string)) * LState :=
  match namespace with
  | JStr (String c s) =>
      match map with
      | None => (Fine None, st)
      | Some entries =>
          let ns := trim (String c s) in
          let store := default ∅ (_errorsByNs st !! ns) in
          let '(r, store') := register_loop ns override entries store in
          let st' := {| errors := errors st;
                        _errorsByNs := <[ns := store']> (_errorsByNs st) |} in
          (match r with
           | Fine _ => Fine (Some store')
           | Raised m => Raised m
           end, st')
      end
  | _ => (Raised "registerErrors: invalid namespace", st)
  end.

End LUtil.

(* ===================================================================== *)
(** * L.log: levels and configuration                                     *)
(* ===================================================================== *)

Module Log.

Import LFacade.
Local Open Scope string_scope.

(** What [LEVELS[l]] is for a name [l] with [l in LEVELS]: the number of
    one of the four levels, or, [LEVELS] being a plain object, the member
    of Object.prototype of that name. *)
Inductive LevelValue :=
| LNumber (n : nat)
| LMember (name : string).

(** const LEVELS = { off: 0, danger: 1, warning: 2, info: 3 };
    [None] when [l in LEVELS] is false. *)
Definition LEVELS (l : string) : option LevelValue :=
  if String.eqb l "off" then Some (LNumber 0)
  else if String.eqb l "danger" then Some (LNumber 1)
  else if String.eqb l "warning" then Some (LNumber 2)
  else if String.eqb l "info" then Some (LNumber 3)
  else if inherited l then Some (LMember l)
  else None.

(** const state = { level, prefix: '' } *)
Record State := { level : LevelValue; prefix : string }.

(** [a <= b] on level values: numbers compare as numbers; two members
    of the prototype compare by the strings they convert to; a number
    against a member compares with NaN. *)
Definition level_le (a b : LevelValue) : bool :=
  match a, b with
  | LNumber x, LNumber y => (x <=? y)%nat
  | LMember x, LMember y =>
      String.leb (to_String (prototype_member x)) (to_String (prototype_member y))
  | _, _ => false
  end.

(** [state.level !== LEVELS.off] *)
Definition not_off (v : LevelValue) : bool :=
  match v with LNumber 0 => false | _ => true end.

(** const enabled = (lvl) =>
      LEVELS[lvl] <= state.level && state.level !== LEVELS.off *)
Definition enabled (st : State) (lvl : string) : bool :=
  match LEVELS lvl with
  | Some v => level_le v (level st) && not_off (level st)
  | None => false
  end.

(** String.prototype.toLowerCase, on code units below 256 *)
Definition lower_char (c : ascii) : ascii :=
  let n := nat_of_ascii c in
  if ((65 <=? n) && (n <=? 90))%nat
     || ((192 <=? n) && (n <=? 222) && negb (n =? 215))%nat
  then ascii_of_nat (n + 32) else c.

Fixpoint toLowerCase (s : string) : string :=
  match s with
  | EmptyString => EmptyString
  | String c s' => String (lower_char c) (toLowerCase s')
  end.

(** The start of [initLogging]: the level is 'info' unless the URL
    parameter [log] names a level. *)
Definition init (urlLog : option string) : State :=
  let urlLevel := toLowerCase (default EmptyString urlLog) in
  {| level := if String.eqb urlLevel EmptyString then LNumber 3
              else default (LNumber 3) (LEVELS urlLevel);
     prefix := EmptyString |}.

(** The options of [configure]; a field that is absent is undefined. *)
Record Options := { o_level : JsVal; o_prefix : JsVal }.

(** L.log.configure(opts = {}) *)
Definition configure (opts : Options) (st : State) : State :=
  let st :=
    if truthy (o_level opts) then
      let l := toLowerCase (to_String (o_level opts)) in
      match LEVELS l with
      | Some v => {| level := v; prefix := prefix st |}
      | None => st
      end
    else st in
  match o_prefix opts with
  | JUndef => st
  | p => {| level := level st;
            prefix := if truthy p then to_String p else EmptyString |}
  end.

(** L.log.level(): the name whose number is the current level, or 'off' *)
Definition level_name (st : State) : string :=
  match level st with
  | LNumber 0 => "off"
  | LNumber 1 => "danger"
  | LNumber 2 => "warning"
  | LNumber 3 => "info"
  | _ => "off"
  end.

End Log.

(* ===================================================================== *)
(** * L.throttle                                                           *)
(* ===================================================================== *)

Module Throttle.

Local Open Scope Z_scope.

(** [opts.leading !== false] and [opts.trailing !== false] *)
Record Opts := { leading : bool; trailing : bool }.

(** The variables of the closure: [last], the pending timeout (kept as
    the time before which the host does not run it: the time it was set
    plus the delay) and [pendingArgs]; and, for the record, the calls of
    [fn] so far, each with the time [invoke] read and the arguments. *)
Record State := {
  last : Z;
  timer : option Z;
  pendingArgs : option nat;
  invoked : list (Z * option nat)
}.

Definition init : State :=
  {| last := 0; timer := None; pendingArgs := None; invoked := [] |}.

(** const invoke = () => { last = now(); fn.apply(pendingCtx, pendingArgs);
      pendingArgs = pendingCtx = null; };
    [throws] tells whether this call of [fn] throws. *)
Definition invoke (now : Z) (throws : bool) (st : State) : State :=
  {| last := now; timer := timer st;
     pendingArgs := if throws then pendingArgs st else None;
     invoked := (invoked st ++ [(now, pendingArgs st)])%list |}.

(** A call of the throttled function: [ts] is the time it reads first,
    [now] the time [invoke] reads if it gets that far. *)
Definition call (wait : Z) (o : Opts) (ts now : Z) (args : nat) (throws : bool)
    (st : State) : State :=
  let last1 := if (last st =? 0) && negb (leading o) then ts else last st in
  let remaining := wait - (ts - last1) in
  let st := {| last := last1; timer := timer st; pendingArgs := Some args;
               invoked := invoked st |} in
  if (remaining <=? 0) || (wait <? remaining) then
    invoke now throws
      {| last := last st; timer := None; pendingArgs := pendingArgs st;
         invoked := invoked st |}
  else if negb (bool_decide (is_Some (timer st))) && trailing o then
    {| last := last st; timer := Some (ts + remaining);
       pendingArgs := pendingArgs st; invoked := invoked st |}
  else st.

(** The callback of the timeout:
    [timer = null; if (trailing && pendingArgs) invoke();] *)
Definition fire (o : Opts) (now : Z) (throws : bool) (st : State) : State :=
  let st := {| last := last st; timer := None; pendingArgs := pendingArgs st;
               invoked := invoked st |} in
  if trailing o && bool_decide (is_Some (pendingArgs st))
  then invoke now throws st else st.

(** What happens to a throttled function: it is called, or its timeout
    runs (at time [at_]). *)
Inductive Input :=
| Call (ts now : Z) (args : nat) (throws : bool)
| Fire (at_ now : Z) (throws : bool).

Definition step (wait : Z) (o : Opts) (i : Input) (st : State) : State :=
  match i with
  | Call ts now args throws => call wait o ts now args throws st
  | Fire _ now throws => fire o now throws st
  end.

Definition run (wait : Z) (o : Opts) (inputs : list Input) (st : State) : State :=
  foldl (fun st i => step wait o i st) st inputs.

(** What the host guarantees: the clock reads positive times and never
    goes back, and a timeout runs only while it is pending and not before
    the delay has passed (for the delays setTimeout honours). *)
Fixpoint admissible (wait : Z) (o : Opts) (clock : Z) (st : State)
    (inputs : list Input) : Prop :=
  match inputs with
  | [] => True
  | i :: rest =>
      match i with
      | Call ts now _ _ => 0 < ts /\ clock <= ts /\ ts <= now
      | Fire at_ now _ =>
          (exists due, timer st = Some due /\ due <= at_)
          /\ 0 < at_ /\ clock <= at_ /\ at_ <= now
      end
      /\ admissible wait o
           (match i with Call _ now _ _ | Fire _ now _ => now end)
           (step wait o i st) rest
  end.

End Throttle.

(* ===================================================================== *)
(** * LightTip: placement strings                                          *)
(* ===================================================================== *)

Module TipParts.

Local Open Scope string_scope.

(** What [parsePlacement] returns: [side] and [align] are the strings
    found in the option. *)
Record Parsed := { p_side : string; p_align : string; p_auto : bool }.

(** [s.split(sep)] for a separator of one character *)
Fixpoint split_on (sep : ascii) (s : string) : list string :=
  match s with
  | EmptyString => [EmptyString]
  | String c s' =>
      if Ascii.eqb c sep then EmptyString :: split_on sep s'
      else match split_on sep s' with
           | x :: rest => String c x :: rest
           | [] => [String c EmptyString]
           end
  end.

(** [s.slice(n)] *)
Fixpoint slice_from (n : nat) (s : string) : string :=
  match n, s with
  | S k, String _ s' => slice_from k s'
  | _, _ => s
  end.

(** [a || b] on strings *)
Definition or_else (a b : string) : string :=
  if String.eqb a EmptyString then b else a.

(** const parsePlacement = (p) => ...; a missing option is the empty
    string *)
Definition parsePlacement (p : string) : Parsed :=
  if String.eqb p EmptyString
  then {| p_side := "top"; p_align := "center"; p_auto := false |}
  else
    let auto := LUtil.starts_with "auto-" p in
    let spec := if auto then slice_from 5 p else p in
    let parts := split_on "-" spec in
    let side := default EmptyString (parts !! 0%nat) in
    let align := default EmptyString (parts !! 1%nat) in
    {| p_side := or_else side "top"; p_align := or_else align "center";
       p_auto := auto |}.

(** The value [_applyPosition] writes to [data-placement]:
    [placement.side + '-' + placement.align] *)
Definition placement_attr (side align : string) : string :=
  side +:+ "-" +:+ align.

End TipParts.

(* ===================================================================== *)
(** * L.debounce                                                           *)
(* ===================================================================== *)

Module Debounce.

Local Open Scope Z_scope.

(** [!!opts.leading], [opts.trailing !== false] and [opts.maxWait] when it
    is a number ([null] otherwise). *)
Record Opts := { leading : bool; trailing : bool; maxWait : option Z }.

(** What can be seen of a debounced function from outside: it was called,
    it called [fn], it was cancelled. *)
Inductive Event :=
| Called (ts : Z) (args : nat)
| Invoked (time : Z) (args : nat)
| Cancelled.

(** The variables of the closure: the pending timeout [t] (kept as the
    time before which the host does not run it, and the [args] its
    callback holds), [lastCall] and [lastInvoke] ([None] for undefined),
    and, for the record, the events so far. *)
Record State := {
  t : option (Z * nat);
  lastCall : option Z;
  lastInvoke : option Z;
  trace : list Event
}.

Definition init : State :=
  {| t := None; lastCall := None; lastInvoke := None; trace := [] |}.

(** const invoke = (ctx, args) => { lastInvoke = now(); return fn.apply(ctx, args); } *)
Definition invoke (now : Z) (args : nat) (st : State) : State :=
  {| t := t st; lastCall := lastCall st; lastInvoke := Some now;
     trace := trace st ++ [Invoked now args] |}.

(** [maxWait != null && (time - lastInvoke) >= maxWait]; with [lastInvoke]
    undefined the difference is NaN and the comparison false. *)
Definition overdue (o : Opts) (time : Z) (st : State) : bool :=
  match maxWait o, lastInvoke st with
  | Some m, Some li => m <=? time - li
  | _, _ => false
  end.

(** A call of the debounced function: [ts] is the time it reads first,
    [now] the time [invoke] reads if it gets that far.  A new timeout does
    not run before [wait] (at least 0) milliseconds have passed. *)
Definition call (wait : Z) (o : Opts) (ts now : Z) (args : nat) (st : State)
  : State :=
  let shouldInvoke :=
    match lastCall st with
    | None => true
    | Some lc => (wait <=? ts - lc) || overdue o ts st
    end in
  let st := {| t := t st; lastCall := Some ts; lastInvoke := lastInvoke st;
               trace := trace st ++ [Called ts args] |} in
  if shouldInvoke && leading o then
    invoke now args
      {| t := None; lastCall := lastCall st; lastInvoke := lastInvoke st;
         trace := trace st |}
  else
    {| t := Some (ts + Z.max 0 wait, args); lastCall := lastCall st;
       lastInvoke := lastInvoke st; trace := trace st |}.

(** The callback of the timeout that holds [args]: [now1] is the time its
    condition reads, [now2] the time [invoke] reads. *)
Definition fire (o : Opts) (now1 now2 : Z) (args : nat) (st : State) : State :=
  let st := {| t := None; lastCall := lastCall st; lastInvoke := lastInvoke st;
               trace := trace st |} in
  if trailing o && (negb (leading o) || overdue o now1 st)
  then invoke now2 args st else st.

(** debounced.cancel *)
Definition cancel (st : State) : State :=
  {| t := None; lastCall := None; lastInvoke := lastInvoke st;
     trace := trace st ++ [Cancelled] |}.

(** What happens to a debounced function: it is called, its pending
    timeout runs, or it is cancelled.  A timeout that is not pending does
    not run. *)
Inductive Input :=
| Call (ts now : Z) (args : nat)
| Fire (now1 now2 : Z)
| Cancel.

Definition step (wait : Z) (o : Opts) (i : Input) (st : State) : State :=
  match i with
  | Call ts now args => call wait o ts now args st
  | Fire now1 now2 =>
      match t st with
      | Some (_, args) => fire o now1 now2 args st
      | None => st
      end
  | Cancel => cancel st
  end.

Definition run (wait : Z) (o : Opts) (inputs : list Input) (st : State) : State :=
  foldl (fun st i => step wait o i st) st inputs.

(** What the host guarantees: a timeout does not run before its delay has
    passed, and the clock does not go back while its callback runs. *)
Fixpoint admissible (wait : Z) (o : Opts) (st : State) (inputs : list Input)
  : Prop :=
  match inputs with
  | [] => True
  | i :: rest =>
      match i with
      | Fire now1 now2 =>
          match t st with
          | Some (due, _) => due <= now1 /\ now1 <= now2
          | None => True
          end
      | _ => True
      end
      /\ admissible wait o (step wait o i st) rest
  end.

End Debounce.

(* ===================================================================== *)
(** * The facade's event registry: [on] and [off] (L 1.1.3)               *)
(* ===================================================================== *)

Module Events.

Import LUtil.
Local Open Scope string_scope.

(** The values the code meets as [selector], [handler] and [opts].
    Functions and objects are known by their identity.  [VNone] stands for
    undefined and for null: the code tells them apart nowhere ([isFn],
    truthiness, [== null], and [===] against a truthy operand). *)
Inductive Val :=
| VNone
| VFn (f : nat)
| VStr (s : string)
| VBool (b : bool)
| VObj (o : nat).

#[global] Instance Val_eq_dec : EqDecision Val.
Proof. solve_decision. Defined.

Definition isFn (v : Val) : bool := match v with VFn _ => true | _ => false end.
Definition isObj (v : Val) : bool := match v with VObj _ => true | _ => false end.

Definition truthy (v : Val) : bool :=
  match v with
  | VNone => false
  | VFn _ | VObj _ => true
  | VStr s => negb (s =? EmptyString)
  | VBool b => b
  end.

(** ['::' + selector]: the text of a truthy selector that is no function. *)
Definition selector_text (v : Val) : string :=
  match v with
  | VStr s => s
  | VBool true => "true"
  | VBool false => "false"
  | VObj _ => "[object Object]"
  | VNone => "undefined"
  | VFn _ => EmptyString
  end.

(** What the host holds as a listener's callback: the handler itself, or
    the closure that [_wrapDelegate] made ([n] counts the closures). *)
Inductive Callback := Direct (h : Val) | Delegate (n : nat).

#[global] Instance Callback_eq_dec : EqDecision Callback.
Proof. solve_decision. Defined.

(** [{ wrapped: finalHandler, orig: handler, capture }] *)
Record Rec := { wrapped : Callback; orig : Val; capture : bool }.

(** A listener of an event target: type, callback, capture flag. *)
Definition Listener : Type := string * Callback * bool.

(** [_events] (target -> Map(key -> Set(rec)), both in insertion order; a
    record is a fresh object, so a Set of them never merges two), the
    listeners of every target, the closures made so far, and the
    truthiness of the [capture] member of every object. *)
Record World := {
  events : gmap nat (list (string * list Rec));
  listeners : gmap nat (list Listener);
  closures : nat;
  captures : gmap nat bool
}.

Definition start (captures : gmap nat bool) : World :=
  {| events := ∅; listeners := ∅; closures := 0; captures := captures |}.

Definition set_events (w : World) (root : nat)
    (map : list (string * list Rec)) : World :=
  {| events := <[root := map]> (events w); listeners := listeners w;
     closures := closures w; captures := captures w |}.

Definition set_listeners (w : World) (root : nat) (ls : list Listener) : World :=
  {| events := events w; listeners := <[root := ls]> (listeners w);
     closures := closures w; captures := captures w |}.

Definition listeners_of (w : World) (root : nat) : list Listener :=
  default [] (listeners w !! root).

(** *** The host: EventTarget.addEventListener / removeEventListener *)

(** The capture flag the host reads off [options]: a boolean is the flag,
    an object gives its [capture] member, anything else is converted to a
    boolean (a function counts as an object without that member). *)
Definition flatten (w : World) (options : Val) : bool :=
  match options with
  | VBool b => b
  | VObj o => default false (captures w !! o)
  | VStr s => negb (s =? EmptyString)
  | VFn _ | VNone => false
  end.

(** The callback argument: null is accepted and ignored, a function or an
    object is a listener, any other value is a TypeError. *)
Definition callback_kind (cb : Callback) : option bool :=
  match cb with
  | Direct VNone => Some false
  | Direct (VStr _) | Direct (VBool _) => None
  | Direct (VFn _) | Direct (VObj _) | Delegate _ => Some true
  end.

(** root.addEventListener(type, callback, options): a listener with the
    same type, callback and capture flag is not added twice. *)
Definition addEventListener (root : nat) (type : string) (cb : Callback)
    (options : Val) (w : World) : Completion unit * World :=
  match callback_kind cb with
  | None => (TypeError, w)
  | Some false => (Returns tt, w)
  | Some true =>
      let l : Listener := (type, cb, flatten w options) in
      let ls := listeners_of w root in
      if bool_decide (l ∈ ls) then (Returns tt, w)
      else (Returns tt, set_listeners w root (ls ++ [l]))
  end.

(** root.removeEventListener(type, callback, capture) *)
Definition removeEventListener (root : nat) (type : string) (cb : Callback)
    (options : Val) (w : World) : Completion unit * World :=
  match callback_kind cb with
  | None => (TypeError, w)
  | Some false => (Returns tt, w)
  | Some true =>
      let l : Listener := (type, cb, flatten w options) in
      (Returns tt,
       set_listeners w root
         (filter (fun x => x <> l) (listeners_of w root)))
  end.

(** *** Map(key -> Set(rec)) *)

Fixpoint map_get (key : string) (map : list (string * list Rec))
  : option (list Rec) :=
  match map with
  | [] => None
  | (k, set) :: rest => if k =? key then Some set else map_get key rest
  end.

Fixpoint map_put (key : string) (set : list Rec)
    (map : list (string * list Rec)) : list (string * list Rec) :=
  match map with
  | [] => [(key, set)]
  | (k, s) :: rest =>
      if k =? key then (k, set) :: rest else (k, s) :: map_put key set rest
  end.

Definition map_delete (key : string) (map : list (string * list Rec))
  : list (string * list Rec) :=
  filter (fun e => fst e <> key) map.

(** k.split('::')[0] *)
Fixpoint baseType (k : string) : string :=
  match k with
  | EmptyString => EmptyString
  | String c k' =>
      if starts_with "::" k then EmptyString else String c (baseType k')
  end.

(** type + (selector ? '::' + selector : '') *)
Definition key_of (type : string) (selector : Val) : string :=
  type ++ (if truthy selector then "::" ++ selector_text selector
           else EmptyString).

(** *** function on(root, type, selector, handler, opts)

    [on_shifted] is the body below the first line, which moves the
    arguments one place when [selector] is a function. *)
Definition on_shifted (root : nat) (type : string) (selector handler opts : Val)
    (w : World) : Completion unit * World :=
  let finalHandler :=
    if truthy selector then Delegate (closures w) else Direct handler in
  let capture :=
    bool_decide (opts = VBool true)
    || (isObj opts && flatten w opts) in
  let map := default [] (events w !! root) in
  let key := key_of type selector in
  let set := default [] (map_get key map) in
  let rec := {| wrapped := finalHandler; orig := handler; capture := capture |} in
  let w1 :=
    {| events := <[root := map_put key (set ++ [rec]) map]> (events w);
       listeners := listeners w;
       closures := if truthy selector then S (closures w) else closures w;
       captures := captures w |} in
  addEventListener root type finalHandler
    (if truthy opts then opts else VBool false) w1.

Definition on (root : nat) (type : string) (selector handler opts : Val)
    (w : World) : Completion unit * World :=
  if isFn selector then on_shifted root type VNone selector handler w
  else on_shifted root type selector handler opts w.

(** rec.orig === handler || rec.wrapped === handler, behind [!handler]. *)
Definition matches (handler : Val) (rec : Rec) : bool :=
  negb (truthy handler)
  || bool_decide (orig rec = handler)
  || bool_decide (wrapped rec = Direct handler).

(** The loop over Array.from(set): a matching record has its listener
    removed and is deleted from the set; the result carries the set as the
    loop leaves it (also when the host throws). *)
Fixpoint remove_matching (root : nat) (type : string) (handler : Val)
    (set : list Rec) (w : World) : Completion unit * list Rec * World :=
  match set with
  | [] => (Returns tt, [], w)
  | rec :: rest =>
      if matches handler rec then
        match removeEventListener root type (wrapped rec)
                (VBool (capture rec)) w with
        | (TypeError, w') => (TypeError, rec :: rest, w')
        | (Returns _, w') => remove_matching root type handler rest w'
        end
      else
        let '(r, kept, w') := remove_matching root type handler rest w in
        (r, rec :: kept, w')
  end.

(** The inner loop of "remove all": every record of one key. *)
Fixpoint remove_set (root : nat) (baseType : string) (set : list Rec)
    (w : World) : Completion unit * World :=
  match set with
  | [] => (Returns tt, w)
  | rec :: rest =>
      match removeEventListener root baseType (wrapped rec)
              (VBool (capture rec)) w with
      | (TypeError, w') => (TypeError, w')
      | (Returns _, w') => remove_set root baseType rest w'
      end
  end.

(** The outer loop of "remove all": every entry of the map. *)
Fixpoint remove_entries (root : nat) (map : list (string * list Rec))
    (w : World) : Completion unit * World :=
  match map with
  | [] => (Returns tt, w)
  | (k, set) :: rest =>
      match remove_set root (baseType k) set w with
      | (TypeError, w') => (TypeError, w')
      | (Returns _, w') => remove_entries root rest w'
      end
  end.

(** *** function off(root, type, selector, handler)

    [type] is [None] when the argument is missing.  [off_shifted] is the
    body below the first line, which takes a function in the place of
    [selector] for the handler when no handler is given. *)
Definition off_shifted (root : nat) (type : option string)
    (selector handler : Val) (w : World) : Completion unit * World :=
  match events w !! root with
  | None => (Returns tt, w)
  | Some map =>
      match type with
      | None | Some EmptyString =>
          match remove_entries root map w with
          | (TypeError, w') => (TypeError, w')
          | (Returns _, w') => (Returns tt, set_events w' root [])
          end
      | Some type =>
          let key := key_of type selector in
          match map_get key map with
          | None => (Returns tt, w)
          | Some set =>
              match remove_matching root type handler set w with
              | (TypeError, kept, w') =>
                  (TypeError, set_events w' root (map_put key kept map))
              | (Returns _, kept, w') =>
                  (Returns tt,
                   set_events w' root
                     (match kept with
                      | [] => map_delete key map
                      | _ => map_put key kept map
                      end))
              end
          end
      end
  end.

Definition off (root : nat) (type : option string) (selector handler : Val)
    (w : World) : Completion unit * World :=
  if isFn selector && bool_decide (handler = VNone)
  then off_shifted root type VNone selector w
  else off_shifted root type selector handler w.

(** A history of calls; an exception ends the call that raised it. *)
Inductive Call :=
| On (root : nat) (type : string) (selector handler opts : Val)
| Off (root : nat) (type : option string) (selector handler : Val).

Definition call (c : Call) (w : World) : World :=
  match c with
  | On root type selector handler opts =>
      snd (on root type selector handler opts w)
  | Off root type selector handler => snd (off root type selector handler w)
  end.

Definition run (calls : list Call) (w : World) : World :=
  foldl (fun w c => call c w) w calls.

(** The calls the facade is written for: an event type holds no colon, the
    handler is a function, an object or missing, and the options are a
    boolean, an object or missing. *)
Fixpoint no_colon (s : string) : bool :=
  match s with
  | EmptyString => true
  | String c s' => negb (Ascii.eqb c ":") && no_colon s'
  end.

Definition handler_ok (v : Val) : bool :=
  match v with VNone | VFn _ | VObj _ => true | _ => false end.

Definition opts_ok (v : Val) : bool :=
  match v with VNone | VBool _ | VObj _ => true | _ => false end.

Definition usual (c : Call) : bool :=
  match c with
  | On _ type selector handler opts =>
      no_colon type
      && (if isFn selector then opts_ok handler
          else handler_ok handler && opts_ok opts)
  | Off _ type _ _ =>
      match type with Some t => no_colon t | None => true end
  end.

End Events.

(* ===================================================================== *)
(** * Properties of the placement search                                  *)
(* ===================================================================== *)

Section Placement.

Import Tip.
Local Open Scope Z_scope.

Variables (v : Viewport) (anchorRect : Rect) (size : Size)
  (offset : PrimFloat.float).

Definition fits (p : Placement) : bool :=
  fitsViewport v (computePosition anchorRect size p offset) size default_margin.

Definition at_ (s : Side) (a : Align) : Placement :=
  {| side := s; align := a; auto := true |}.

(** The two alignments other than [a], in the order of [aligns]. *)
Definition other_aligns (a : Align) : Align * Align :=
  match a with
  | start => (center, end_)
  | center => (start, end_)
  | end_ => (start, center)
  end.

(** The two sides perpendicular to [s], in the order the code lists them. *)
Definition perpendicular_sides (s : Side) : Side * Side :=
  match s with
  | top | bottom => (left, right)
  | left | right => (top, bottom)
  end.

Lemma fallbackPlacements_shape (pref : Placement) :
  fallbackPlacements pref =
    [ pref;
      at_ (side pref) (fst (other_aligns (align pref)));
      at_ (side pref) (snd (other_aligns (align pref)));
      at_ (oppositeSide (side pref)) (align pref);
      at_ (fst (perpendicular_sides (side pref))) center;
      at_ (snd (perpendicular_sides (side pref))) center ].
Proof. destruct pref as [s a b]; destruct s, a; reflexivity. Qed.

Lemma search_first_fit (cands pre post : list Placement) (p : Placement)
    (acc : Placement * Pos) :
  cands = (pre ++ p :: post)%list ->
  Forall (fun q => fits q = false) pre ->
  fits p = true ->
  search v anchorRect size offset cands acc
  = (p, computePosition anchorRect size p offset).
Proof.
  intros -> Hpre Hp. induction Hpre as [|q pre Hq _ IH]; simpl.
  - unfold fits in Hp. now rewrite Hp.
  - unfold fits in Hq. now rewrite Hq.
Qed.

Lemma search_none_fit (cands : list Placement) (acc : Placement * Pos) :
  Forall (fun q => fits q = false) cands ->
  search v anchorRect size offset cands acc = acc.
Proof.
  induction 1 as [|q l Hq _ IH]; simpl; [reflexivity|].
  unfold fits in Hq. now rewrite Hq.
Qed.

(** C7 (amended).  In auto mode the candidates are, in this order: the
    preferred placement, the other two alignments on the same side, the
    opposite side at the original alignment, the two perpendicular sides
    at center alignment.  The result is the first candidate whose box
    fits the viewport with margin 4; when no candidate fits, the result
    is the preferred placement (the first candidate), at its computed
    position. *)
Theorem auto_placement_first_fit_else_preferred (pref : Placement) :
  auto pref = true ->
  let cands := fallbackPlacements pref in
  cands = [ pref;
            at_ (side pref) (fst (other_aligns (align pref)));
            at_ (side pref) (snd (other_aligns (align pref)));
            at_ (oppositeSide (side pref)) (align pref);
            at_ (fst (perpendicular_sides (side pref))) center;
            at_ (snd (perpendicular_sides (side pref))) center ]
  /\ (forall pre p post,
        cands = (pre ++ p :: post)%list ->
        Forall (fun q => fits q = false) pre ->
        fits p = true ->
        positionWithArrow v anchorRect size pref offset
        = (p, computePosition anchorRect size p offset))
  /\ (Forall (fun q => fits q = false) cands ->
        positionWithArrow v anchorRect size pref offset
        = (pref, computePosition anchorRect size pref offset)).
Proof.
  intros Hauto cands. split; [apply fallbackPlacements_shape|]. split.
  - intros pre p post Hc Hpre Hp. unfold positionWithArrow. rewrite Hauto.
    now apply (search_first_fit cands pre post).
  - intros Hnone. unfold positionWithArrow. rewrite Hauto.
    now apply search_none_fit.
Qed.

End Placement.

Section PlacementExamples.

Import PrimFloat Tip.
Local Open Scope Z_scope.

(** A 40x20 anchor at (100,100). *)
Definition anchor_mid : Rect :=
  {| r_left := 100; r_top := 100; r_right := 140; r_bottom := 120;
     r_width := 40; r_height := 20 |}.

Definition top_center : Placement :=
  {| side := top; align := center; auto := true |}.

Definition tiny_viewport : Viewport := {| vw := 10; vh := 10 |}.
Definition wide_viewport : Viewport := {| vw := 1000; vh := 135 |}.
Definition big_tip : Size := {| width := 100; height := 100 |}.
Definition small_tip : Size := {| width := 60; height := 30 |}.

(** The tip does not fit above or beside the anchor but fits below it. *)
Example falls_back_to_bottom :
  positionWithArrow {| vw := 1000; vh := 300 |}
    {| r_left := 100; r_top := 10; r_right := 140; r_bottom := 30;
       r_width := 40; r_height := 20 |} small_tip top_center 8
  = ({| side := bottom; align := center; auto := true |},
     {| p_left := 90; p_top := 38 |}).
Proof. reflexivity. Qed.

Lemma auto_placement_first_fit_else_preferred_witness :
  auto top_center = true
  /\ positionWithArrow tiny_viewport anchor_mid big_tip top_center 8
     = (top_center, computePosition anchor_mid big_tip top_center 8).
Proof.
  split; [reflexivity|].
  apply (auto_placement_first_fit_else_preferred
           tiny_viewport anchor_mid big_tip 8 top_center eq_refl).
  repeat constructor.
Defined.

(** C7, as stated, fails: in a 10x10 viewport no candidate for a 100x100
    tip fits, the last candidate evaluated is right-center, and the
    placement used is the preferred top-center. *)
Lemma auto_placement_not_last_candidate :
  ~ (Forall (fun q => fits tiny_viewport anchor_mid big_tip 8 q = false)
            (fallbackPlacements top_center) ->
     Some (fst (positionWithArrow tiny_viewport anchor_mid big_tip top_center 8))
     = List.last (map Some (fallbackPlacements top_center)) None).
Proof.
  intros H. assert (Hn : Forall (fun q => fits tiny_viewport anchor_mid big_tip 8 q = false)
            (fallbackPlacements top_center)) by (repeat constructor).
  specialize (H Hn). vm_compute in H. discriminate H.
Qed.

End PlacementExamples.

(* ===================================================================== *)
(** * Properties of interpolation and assertions                          *)
(* ===================================================================== *)

Section Interpolation.

Import LFacade.
Local Open Scope string_scope.








(** The text of two interpolated pieces, when both are determined. *)
Definition joined (a b : option string) : option string :=
  match a, b with
  | Some x, Some y => Some (x +:+ y)
  | _, _ => None
  end.


Lemma app_cons (x : ascii) (a b : string) :
  String x a +:+ b = String x (a +:+ b).
Proof. reflexivity. Qed.

Lemma app_nil_l (b : string) : EmptyString +:+ b = b.
Proof. reflexivity. Qed.

Ltac push_app := rewrite ?app_cons, ?app_nil_l.


Lemma app_assoc_s (a b c : string) : (a +:+ b) +:+ c = a +:+ (b +:+ c).
Proof.
  induction a as [|x a IH]; push_app; [reflexivity | now rewrite IH].
Qed.

Lemma app_nil_r_s (a : string) : a +:+ EmptyString = a.
Proof. induction a as [|x a IH]; push_app; [reflexivity | now rewrite IH]. Qed.










Lemma span_length (f : ascii -> bool) (s : string) :
  String.length (span f s).2 <= String.length s.
Proof.
  induction s as [|c s IH]; simpl; [lia|].
  destruct (f c); [|simpl; lia]. destruct (span f s) as [u v]. simpl in *. lia.
Qed.




Lemma joined_assoc (a b c : option string) :
  joined (joined a b) c = joined a (joined b c).
Proof. destruct a, b, c; cbn; try reflexivity. now rewrite app_assoc_s. Qed.












(** A code that names no member of Object.prototype has a string for its
    template, whatever the tables hold. *)
Lemma resolve_template_string (st : LState) (code : string) :
  inherited code = false -> exists tpl, resolve_template st code = JStr tpl.
Proof.
  intros Hin. unfold resolve_template.
  destruct (negb (String.eqb _ EmptyString)); [eauto|].
  unfold errors_get, prototype_member. rewrite Hin. cbn [negb].
  destruct (errors st !! code) as [s|]; cbn [truthy]; [|eauto].
  destruct (negb (String.eqb s EmptyString)); eauto.
Qed.





End Interpolation.

(* ===================================================================== *)
(** * Properties of the component base                                    *)
(* ===================================================================== *)

Module Scenario.

Import LFacade Base.
Local Open Scope string_scope.

(** A small page: [html] > [#p] > ([div] > [#d]), [#s]. *)
Definition el (i : string) (p : option nat) (c : list nat) : Element :=
  {| el_id := i; el_marker := None; el_parent := p; el_children := c |}.

Definition page : Dom :=
  {| elems := list_to_map
       [ (0, el EmptyString None [1]);
         (1, el "p" (Some 0) [2; 4]);
         (2, el EmptyString (Some 1) [3]);
         (3, el "d" (Some 2) []);
         (4, el "s" (Some 1) []) ];
     doc_children := [0] |}.

Definition start : World :=
  {| env := {| lstate := loaded; logLevel := 3; LNG := JUndef; envLNG := JUndef |};
     dom := page; REG := ∅; heap := [];
     nextTimer := 1; nextFrame := 1; nextUid := 0; trace := [] |}.

Definition Panel : Class :=
  {| c_name := "Panel"; c_version := "1.0.1"; c_destruct := Inherited |}.
Definition Slot : Class :=
  {| c_name := "Slot"; c_version := "1.0.1"; c_destruct := Inherited |}.
Definition Faulty : Class :=
  {| c_name := "Faulty"; c_version := "1.0.1";
     c_destruct := ThrowsAfterSuper callback_error |}.

(** [new Panel('p')]: instance 0. *)
Definition with_panel : World := snd (construct Panel "p" start).
(** The panel after its own [destruct()]. *)
Definition panel_destructed : World :=
  match destruct 1 0 with_panel with
  | Some (_, w) => w
  | None => with_panel
  end.

End Scenario.

Section Acquisition.

Import LFacade Base.
Local Open Scope string_scope.

Lemma lookup_update (this : nat) (f : Instance -> Instance) (w : World) :
  heap (update this f w) !! this = f <$> heap w !! this.
Proof. unfold update. simpl. apply list_lookup_alter_eq. Qed.

Lemma lookup_update_ne (this j : nat) (f : Instance -> Instance) (w : World) :
  this <> j -> heap (update this f w) !! j = heap w !! j.
Proof. intros H. unfold update. simpl. now apply list_lookup_alter_ne. Qed.

(** C10.  [addEvent] with a selector string that matches no element of
    the document returns normally with the no-op disposer and leaves the
    world as it was: nothing is subscribed, nothing is recorded in
    [_listeners], and a later destruction is the one it would have been
    without the call. *)
Theorem addEvent_unmatched_selector_is_noop
    (w : World) (this : nat) (sel : Element -> bool) (type : string)
    (selectorOrFn fnOrOpts maybeOpts : JsArg) :
  querySelector (dom w) sel = None ->
  addEvent this (TSelector sel) type selectorOrFn fnOrOpts maybeOpts w
    = (Ok NoopDisposer, w)
  /\ (forall w', run_event_disposer NoopDisposer w' = w')
  /\ (forall fuel,
        destruct fuel this
          (snd (addEvent this (TSelector sel) type selectorOrFn fnOrOpts maybeOpts w))
        = destruct fuel this w).
Proof.
  intros Hq. unfold addEvent, resolve_target. rewrite Hq. simpl. auto.
Qed.

Lemma addEvent_unmatched_selector_is_noop_witness :
  querySelector (dom Scenario.with_panel) (fun x => String.eqb (el_id x) "nowhere") = None
  /\ addEvent 0 (TSelector (fun x => String.eqb (el_id x) "nowhere")) "click"
              (AFn 1) AUndef AUndef Scenario.with_panel
     = (Ok NoopDisposer, Scenario.with_panel).
Proof.
  split; [vm_compute; reflexivity|].
  apply (addEvent_unmatched_selector_is_noop Scenario.with_panel 0
           (fun x => String.eqb (el_id x) "nowhere") "click" (AFn 1) AUndef AUndef).
  vm_compute; reflexivity.
Defined.

(** Whether [addEvent(target, type, a, b, ...)] hands [L.on] a handler
    the host refuses: [a] is no function and is falsy, and [b] is a
    string or a boolean. *)
Definition refused (a b : JsArg) : bool :=
  if is_function a then false else on_throws a b.

(** C3 (amended).  No resource-acquisition method looks at the lifecycle
    state: whatever the state of the instance (Active, Destructing or
    Destructed), [addDisposer], the three [observe*] helpers, [setT],
    [setI], [requestFrame] and [addAbortController] return normally,
    record the resource and leave the lifecycle state as it was; so does
    [addEvent] on an existing target, unless the handler is one the host
    refuses, in which case the TypeError of [L.on] leaves [addEvent] and
    nothing is recorded, again whatever the state. *)
Theorem acquisition_ignores_lifecycle (w : World) (this : nat) (inst : Instance) :
  heap w !! this = Some inst ->
  (forall target t type a b c,
      resolve_target w target = Some t ->
      if refused a b
      then exists w',
        addEvent this target type a b c w = (Throw type_error, w')
        /\ heap w' = heap w
      else exists rec w',
        addEvent this target type a b c w = (Ok (RemoveEvent rec), w')
        /\ heap w' !! this = Some (set_listeners (_listeners inst ++ [rec]) inst))
  /\ (forall d, exists w',
      addDisposer this (Some d) w = (Ok (Some d), w')
      /\ heap w' !! this = Some (set_disposers (_disposers inst ++ [d]) inst))
  /\ (forall k el h, exists d w',
      observe k this el h w = (Ok d, w')
      /\ heap w' !! this = Some (set_disposers (_disposers inst ++ [d]) inst))
  /\ (forall fn ms, exists w',
      setT this fn ms w = (Ok (nextTimer w), w')
      /\ heap w' !! this = Some (set_timeouts ({[nextTimer w]} ∪ _timeouts inst) inst))
  /\ (forall fn ms, exists w',
      setI this fn ms w = (Ok (nextTimer w), w')
      /\ heap w' !! this = Some (set_intervals ({[nextTimer w]} ∪ _intervals inst) inst))
  /\ (forall fn, exists w',
      requestFrame this fn w = (Ok (nextFrame w), w')
      /\ heap w' !! this = Some (set_rafs ({[nextFrame w]} ∪ _rafs inst) inst))
  /\ (forall ac, exists w',
      addAbortController this (Some ac) w = (Ok (Some ac), w')
      /\ heap w' !! this = Some (set_aborts ({[ac]} ∪ _aborts inst) inst))
  /\ (forall l, lifecycle (set_listeners l inst) = lifecycle inst)
  /\ (forall l, lifecycle (set_disposers l inst) = lifecycle inst)
  /\ (forall s, lifecycle (set_timeouts s inst) = lifecycle inst)
  /\ (forall s, lifecycle (set_intervals s inst) = lifecycle inst)
  /\ (forall s, lifecycle (set_rafs s inst) = lifecycle inst)
  /\ (forall s, lifecycle (set_aborts s inst) = lifecycle inst).
Proof.
  intros Hi. repeat split; intros.
  - unfold addEvent, refused. rewrite H.
    destruct (is_function a) eqn:Ea.
    + assert (Hn : on_throws AUndef a = false) by (now destruct a).
      rewrite Hn. eexists _, _. split; [reflexivity|].
      rewrite lookup_update. simpl. now rewrite Hi.
    + destruct (on_throws a b).
      * eexists. split; reflexivity.
      * eexists _, _. split; [reflexivity|].
        rewrite lookup_update. simpl. now rewrite Hi.
  - eexists. split; [reflexivity|]. rewrite lookup_update. now rewrite Hi.
  - eexists _, _. split; [reflexivity|].
    rewrite lookup_update. simpl. now rewrite Hi.
  - eexists. split; [reflexivity|]. rewrite lookup_update. simpl. now rewrite Hi.
  - eexists. split; [reflexivity|]. rewrite lookup_update. simpl. now rewrite Hi.
  - eexists. split; [reflexivity|]. rewrite lookup_update. simpl. now rewrite Hi.
  - eexists. split; [reflexivity|]. rewrite lookup_update. now rewrite Hi.
Qed.

Lemma acquisition_ignores_lifecycle_witness :
  exists inst,
    heap Scenario.panel_destructed !! 0 = Some inst
    /\ lifecycle inst = Destructed
    /\ exists w', setT 0 7 100 Scenario.panel_destructed = (Ok 1, w')
        /\ heap w' !! 0 = Some (set_timeouts ({[1]} ∪ _timeouts inst) inst).
Proof.
  destruct (heap Scenario.panel_destructed !! 0) as [inst|] eqn:E;
    [|vm_compute in E; discriminate E].
  exists inst. split; [reflexivity|]. split.
  - vm_compute in E. injection E as <-. vm_compute. reflexivity.
  - exact (proj1 (proj2 (proj2 (proj2
      (acquisition_ignores_lifecycle Scenario.panel_destructed 0 inst E)))) 7 100).
Defined.

(** C3, as stated, fails: the panel of the scenario is Destructed after
    its own [destruct()], and [setT] on it does not throw. *)
Lemma acquisition_on_destructed_does_not_throw :
  (lifecycle <$> heap Scenario.panel_destructed !! 0) = Some Destructed
  /\ ~ (exists e w', setT 0 7 100 Scenario.panel_destructed = (Throw e, w')).
Proof.
  split; [vm_compute; reflexivity|]. intros (e & w' & H).
  unfold setT in H. inversion H.
Qed.

End Acquisition.

Section Construction.

Import LFacade Base.
Local Open Scope string_scope.

Lemma lookupReg_ensureClassBucket (cls : string) (w : World) (k j : string) :
  lookupReg (ensureClassBucket cls w) k j = lookupReg w k j.
Proof.
  unfold ensureClassBucket, lookupReg.
  destruct (REG w !! cls) eqn:E; [reflexivity|]. simpl.
  destruct (decide (cls = k)) as [->|Hne].
  - rewrite lookup_insert_eq, E. reflexivity.
  - now rewrite lookup_insert_ne.
Qed.

Lemma ensureClassBucket_present (cls : string) (w : World) :
  is_Some (REG w !! cls) -> ensureClassBucket cls w = w.
Proof. intros [b Hb]. unfold ensureClassBucket. now rewrite Hb. Qed.


Lemma lookupReg_bucket (w : World) (cls j : string) (r : nat) :
  lookupReg w cls j = Some r -> is_Some (REG w !! cls).
Proof. unfold lookupReg. destruct (REG w !! cls); [eauto | discriminate]. Qed.

Lemma err_code_L_error (w : World) (c : string) (ctx : JsVal) :
  c <> EmptyString -> inherited c = false -> err_code (L_error w c ctx) = c.
Proof.
  intros H Hin. unfold L_error, assert_error.
  destruct (resolve_template_string (lstate (env w)) c Hin) as [tpl ->].
  cbn [err_code].
  destruct (String.eqb_spec c EmptyString); [congruence | reflexivity].
Qed.


(** The world a successful [new C(id)] on element [el] leaves: the class
    bucket, then the marker, then the new object, then the registry
    entry, then the start-up log line. *)
Definition constructed (C : Class) (i : string) (el : nat) (w : World) : World :=
  let cls := getClassName C in
  let w1 := with_dom (fun d => setAttribute d el cls) (ensureClassBucket cls w) in
  let inst := new_instance C i el w1 in
  let w2 := with_heap (fun h => (h ++ [inst])%list) w1 in
  let w3 := with_REG (fun r => <[cls := <[i := length (heap w)]> (default ∅ (r !! cls))]> r) w2 in
  scoped_log cls i info
    ("init v" +:+ version inst +:+ " locale=" +:+ to_String (locale inst)) w3.

Definition ctor_ctx (C : Class) (i : string) : JsVal :=
  JObj {[ "id" := JStr i; "cls" := JStr (getClassName C) ]}.

(** The four validations of the constructor, in their order, and what
    each outcome leaves behind. *)
Lemma construct_cases (C : Class) (i : string) (w : World) :
  let cls := getClassName C in
  let w0 := ensureClassBucket cls w in
  construct C i w =
    if negb (valid_id i)
    then (Throw (L_error w "LightBase.INVALID_CONSTRUCTOR_ID" (ctor_ctx C i)), w)
    else match lookupReg w cls i with
    | Some _ => (Throw (L_error w "E_INSTANCE_EXISTS" (ctor_ctx C i)), w0)
    | None =>
      match getElementById (dom w) i with
      | None => (Throw (L_error w "E_NO_ELEMENT" (ctor_ctx C i)), w0)
      | Some el =>
          if owner_ok (getAttribute (dom w) el) cls
          then (Ok (length (heap w)), constructed C i el w)
          else (Throw (L_error w "LightBase.CONFLICT_OWNER"
                         (JObj {[ "id" := JStr i;
                                  "owner" := owner_val (getAttribute (dom w) el) ]})),
                w0)
      end
    end.
Proof.
  intros cls w0. unfold construct, L_assert, assert, L_error, ctor_ctx. fold cls.
  destruct (valid_id i); simpl; [|reflexivity].
  rewrite (lookupReg_ensureClassBucket cls w cls i).
  assert (Hd : dom (ensureClassBucket cls w) = dom w).
  { unfold ensureClassBucket. now destruct (REG w !! cls). }
  assert (Hh : heap (ensureClassBucket cls w) = heap w).
  { unfold ensureClassBucket. now destruct (REG w !! cls). }
  assert (He : env (ensureClassBucket cls w) = env w).
  { unfold ensureClassBucket. now destruct (REG w !! cls). }
  rewrite Hd, He.
  destruct (lookupReg w cls i) eqn:El.
  - rewrite bool_decide_eq_true_2 by eauto. reflexivity.
  - rewrite bool_decide_eq_false_2 by (intros [? ?]; discriminate). simpl.
    destruct (getElementById (dom w) i) as [el|]; [|reflexivity].
    destruct (owner_ok (getAttribute (dom w) el) cls); [|reflexivity].
    unfold constructed. fold cls. rewrite Hh. reflexivity.
Qed.

Lemma lookupReg_constructed (C : Class) (i : string) (el : nat) (w : World) :
  lookupReg (constructed C i el w) (getClassName C) i = Some (length (heap w)).
Proof.
  unfold constructed, scoped_log, L_log.
  match goal with |- context [if ?b then _ else _] => destruct b end;
    unfold lookupReg; simpl; rewrite lookup_insert_eq; simpl;
    now rewrite lookup_insert_eq.
Qed.

Lemma heap_constructed (C : Class) (i : string) (el : nat) (w : World) :
  exists w1, heap (constructed C i el w) = (heap w ++ [new_instance C i el w1])%list.
Proof.
  unfold constructed, scoped_log, L_log.
  match goal with |- context [if ?b then _ else _] => destruct b end;
    simpl; eexists;
    (replace (heap (ensureClassBucket (getClassName C) w)) with (heap w)
       by (unfold ensureClassBucket; now destruct (REG w !! getClassName C)));
    reflexivity.
Qed.

Lemma construct_ok_inv (C : Class) (i : string) (w : World) (this : nat) (w1 : World) :
  construct C i w = (Ok this, w1) ->
  exists el,
    valid_id i = true /\ lookupReg w (getClassName C) i = None
    /\ getElementById (dom w) i = Some el
    /\ owner_ok (getAttribute (dom w) el) (getClassName C) = true
    /\ this = length (heap w) /\ w1 = constructed C i el w.
Proof.
  rewrite construct_cases. cbv zeta.
  destruct (valid_id i); simpl; [|discriminate].
  destruct (lookupReg w (getClassName C) i); [discriminate|].
  destruct (getElementById (dom w) i) as [el|]; [|discriminate].
  destruct (owner_ok (getAttribute (dom w) el) (getClassName C)) eqn:Eo;
    [|discriminate].
  intros [= <- <-]. exists el. repeat split; auto.
Qed.

Lemma construct_throw_inv (C : Class) (i : string) (w : World) (e : JsError) (w' : World) :
  construct C i w = (Throw e, w') ->
  (w' = w \/ w' = ensureClassBucket (getClassName C) w)
  /\ dom w' = dom w /\ heap w' = heap w /\ trace w' = trace w
  /\ forall k j, lookupReg w' k j = lookupReg w k j.
Proof.
  rewrite construct_cases. cbv zeta.
  assert (Hb : dom (ensureClassBucket (getClassName C) w) = dom w
               /\ heap (ensureClassBucket (getClassName C) w) = heap w
               /\ trace (ensureClassBucket (getClassName C) w) = trace w).
  { unfold ensureClassBucket. now destruct (REG w !! getClassName C). }
  destruct Hb as (Hd & Hh & Ht).
  destruct (valid_id i); simpl.
  2:{ intros [= <- <-]. repeat split; auto. }
  destruct (lookupReg w (getClassName C) i).
  { intros [= <- <-]. repeat split; auto. apply lookupReg_ensureClassBucket. }
  destruct (getElementById (dom w) i) as [el|].
  2:{ intros [= <- <-]. repeat split; auto. apply lookupReg_ensureClassBucket. }
  destruct (owner_ok (getAttribute (dom w) el) (getClassName C)); [discriminate|].
  intros [= <- <-]. repeat split; auto. apply lookupReg_ensureClassBucket.
Qed.

(** C4 (amended).  For every valid id, constructing a second instance of
    a kind whose registry slot for that id is taken fails with
    E_INSTANCE_EXISTS and changes nothing, so after two constructions
    back to back the first instance is still Active and registered.  A
    failed construction leaves no partial registration: the DOM, the
    instances, the trace and every registry entry are what they were;
    the only change it can leave is the empty bucket that
    [ensureClassBucket] creates for a kind seen for the first time,
    before the vacancy, element and ownership checks.  A successful
    construction passed the four validations in their order and then
    set the marker, created the object and claimed the registry slot;
    only the start-up log line follows the claim. *)
Theorem construct_validates_then_claims (C : Class) (i : string) (w : World) :
  let cls := getClassName C in
  (forall first,
      valid_id i = true -> lookupReg w cls i = Some first ->
      exists e, construct C i w = (Throw e, w)
                /\ err_code e = "E_INSTANCE_EXISTS")
  /\ (forall first w1,
        construct C i w = (Ok first, w1) ->
        lookupReg w1 cls i = Some first
        /\ (lifecycle <$> heap w1 !! first) = Some Active
        /\ exists e, construct C i w1 = (Throw e, w1)
                     /\ err_code e = "E_INSTANCE_EXISTS")
  /\ (forall e w',
        construct C i w = (Throw e, w') ->
        (w' = w \/ w' = ensureClassBucket cls w)
        /\ dom w' = dom w /\ heap w' = heap w /\ trace w' = trace w
        /\ forall k j, lookupReg w' k j = lookupReg w k j)
  /\ (forall this w1,
        construct C i w = (Ok this, w1) ->
        exists el,
          valid_id i = true /\ lookupReg w cls i = None
          /\ getElementById (dom w) i = Some el
          /\ owner_ok (getAttribute (dom w) el) cls = true
          /\ this = length (heap w) /\ w1 = constructed C i el w).
Proof.
  intros cls.
  assert (Hdup : forall w0 first,
             valid_id i = true -> lookupReg w0 cls i = Some first ->
             exists e, construct C i w0 = (Throw e, w0)
                       /\ err_code e = "E_INSTANCE_EXISTS").
  { intros w0 first Hv Hl. rewrite construct_cases. fold cls. rewrite Hv, Hl. simpl.
    rewrite (ensureClassBucket_present cls w0) by (eapply lookupReg_bucket; eauto).
    eexists. split; [reflexivity|].
    apply err_code_L_error; [discriminate | reflexivity]. }
  split; [apply Hdup|]. split; [|split].
  - intros first w1 Hc.
    destruct (construct_ok_inv C i w first w1 Hc) as (el & Hv & _ & _ & _ & -> & ->).
    pose proof (lookupReg_constructed C i el w) as Hl. fold cls in Hl.
    split; [exact Hl|]. split; [|now apply (Hdup _ (length (heap w)))].
    destruct (heap_constructed C i el w) as (w1 & ->).
    rewrite lookup_app_r by lia. now rewrite Nat.sub_diag.
  - apply construct_throw_inv.
  - apply construct_ok_inv.
Qed.

Lemma construct_validates_then_claims_witness :
  valid_id "p" = true
  /\ lookupReg Scenario.with_panel "Panel" "p" = Some 0
  /\ exists e, construct Scenario.Panel "p" Scenario.with_panel
               = (Throw e, Scenario.with_panel)
               /\ err_code e = "E_INSTANCE_EXISTS".
Proof.
  assert (Hv : valid_id "p" = true) by (vm_compute; reflexivity).
  assert (Hl : lookupReg Scenario.with_panel "Panel" "p" = Some 0)
    by (vm_compute; reflexivity).
  split; [exact Hv|]. split; [exact Hl|].
  exact (proj1 (construct_validates_then_claims Scenario.Panel "p" Scenario.with_panel)
               0 Hv Hl).
Defined.

(** C4, as stated, fails: [new Slot('nowhere')] on the initial page fails
    with E_NO_ELEMENT after it has changed the registry (the bucket of
    Slot now exists), so not all validation precedes every mutation. *)
Lemma failed_construction_creates_bucket :
  ~ (forall e w',
       construct Scenario.Slot "nowhere" Scenario.start = (Throw e, w') ->
       w' = Scenario.start).
Proof.
  intros H.
  pose proof (construct_cases Scenario.Slot "nowhere" Scenario.start) as Hc.
  cbv zeta in Hc.
  replace (valid_id "nowhere") with true in Hc by (vm_compute; reflexivity).
  replace (lookupReg Scenario.start (getClassName Scenario.Slot) "nowhere")
    with (@None nat) in Hc by (vm_compute; reflexivity).
  replace (getElementById (dom Scenario.start) "nowhere")
    with (@None nat) in Hc by (vm_compute; reflexivity).
  cbn [negb] in Hc. specialize (H _ _ Hc).
  apply (f_equal (fun w => bool_decide (is_Some (REG w !! "Slot")))) in H.
  vm_compute in H. discriminate H.
Qed.

End Construction.

Section Destruction.

Import LFacade Base.
Local Open Scope string_scope.

(** ** The steps of the [try] block in closed form *)

(** The call of [L.off] that [_removeEvent(rec)] makes. *)
Definition off_event (rec : ListenerRec) : Event :=
  EvOff (l_uid rec) (l_target rec) (l_type rec)
        (if arg_truthy (l_selector rec) then l_selector rec else AUndef)
        (l_handler rec).

(** A step that reads a field of [this], makes calls and resets the field. *)
Definition track_step (f : Instance -> Instance) (evs : Instance -> list Event)
    (this : nat) (w : World) : World :=
  match heap w !! this with
  | None => w
  | Some inst => update this f (emit (evs inst) w)
  end.

Lemma emit_nil (w : World) : emit [] w = w.
Proof. destruct w. unfold emit. simpl. now rewrite app_nil_r. Qed.

Lemma emit_emit (a b : list Event) (w : World) :
  emit b (emit a w) = emit (a ++ b) w.
Proof. unfold emit. simpl. now rewrite app_assoc. Qed.

Lemma foldl_emit {A} (g : A -> Event) (step : World -> A -> World) (l : list A) :
  (forall w x, step w x = emit [g x] w) ->
  forall w, foldl step w l = emit (map g l) w.
Proof.
  intros Hs. induction l as [|x l IH]; intros w; simpl.
  - now rewrite emit_nil.
  - rewrite IH, Hs, emit_emit. reflexivity.
Qed.

Lemma release_listeners_step (this : nat) (w : World) :
  release_listeners this w
  = track_step (set_listeners []) (fun i => map off_event (_listeners i)) this w.
Proof.
  unfold release_listeners, track_step. destruct (heap w !! this); [|reflexivity].
  f_equal. now apply foldl_emit.
Qed.

Lemma run_disposers_step (this : nat) (w : World) :
  run_disposers this w
  = track_step (set_disposers []) (fun i => map EvCall (_disposers i)) this w.
Proof.
  unfold run_disposers, track_step. destruct (heap w !! this); [|reflexivity].
  f_equal. apply foldl_emit. intros w0 d. unfold swallow, call_cb.
  now destruct (cb_throws d).
Qed.

Lemma run_aborts_step (this : nat) (w : World) :
  run_aborts this w
  = track_step (set_aborts ∅) (fun i => map EvAbort (elements (_aborts i))) this w.
Proof.
  unfold run_aborts, track_step. destruct (heap w !! this); [|reflexivity].
  f_equal. apply foldl_emit. intros w0 d. unfold swallow, abort.
  now destruct (snd d).
Qed.

(** The cancelling calls the clean-up of an instance makes, in order. *)
Definition resource_events (a : Instance) : list Event :=
  map off_event (_listeners a)
  ++ map EvCall (_disposers a)
  ++ map EvClearTimeout (elements (_timeouts a))
  ++ map EvClearInterval (elements (_intervals a))
  ++ map EvCancelFrame (elements (_rafs a))
  ++ map EvAbort (elements (_aborts a)).

Definition closing_log (enabled : bool) (a : Instance) : list Event :=
  if enabled then [EvLog info (LogText ("destructed v" +:+ version a))] else [].

(** The instance once every tracked set is reset. *)
Definition released (a : Instance) : Instance :=
  set_aborts ∅ (set_rafs ∅ (set_intervals ∅ (set_timeouts ∅
    (set_disposers [] (set_listeners [] a))))).

Lemma track_step_first (f : Instance -> Instance) (evs : Instance -> list Event)
    (this : nat) (w : World) (a : Instance) :
  heap w !! this = Some a ->
  track_step f evs this w = update this f (emit (evs a) w).
Proof. intros H. unfold track_step. now rewrite H. Qed.

Lemma track_step_next (f F : Instance -> Instance) (evs : Instance -> list Event)
    (E : list Event) (this : nat) (w : World) (a : Instance) :
  heap w !! this = Some a ->
  track_step f evs this (update this F (emit E w))
  = update this (f ∘ F) (emit (E ++ evs (F a)) w).
Proof.
  intros H. unfold track_step. rewrite lookup_update. simpl. rewrite H. simpl.
  unfold update, with_heap, emit. simpl. f_equal.
  - apply list_alter_alter_eq.
  - now rewrite app_assoc.
Qed.

Lemma cleanup_resources (this : nat) (w : World) (a : Instance) :
  heap w !! this = Some a ->
  run_aborts this (cancel_frames this (clear_intervals this (clear_timeouts this
    (run_disposers this (release_listeners this w)))))
  = update this (fun _ => released a) (emit (resource_events a) w).
Proof.
  intros H.
  rewrite release_listeners_step, (track_step_first _ _ this w a H).
  rewrite run_disposers_step, (track_step_next _ _ _ _ this w a H).
  change (clear_timeouts this ?x)
    with (track_step (set_timeouts ∅)
            (fun i => map EvClearTimeout (elements (_timeouts i))) this x).
  rewrite (track_step_next _ _ _ _ this w a H).
  change (clear_intervals this ?x)
    with (track_step (set_intervals ∅)
            (fun i => map EvClearInterval (elements (_intervals i))) this x).
  rewrite (track_step_next _ _ _ _ this w a H).
  change (cancel_frames this ?x)
    with (track_step (set_rafs ∅)
            (fun i => map EvCancelFrame (elements (_rafs i))) this x).
  rewrite (track_step_next _ _ _ _ this w a H).
  rewrite run_aborts_step, (track_step_next _ _ _ _ this w a H).
  unfold update, with_heap, emit, resource_events. simpl. f_equal.
  - apply list_alter_ext; [|reflexivity].
    intros x Hx. rewrite H in Hx. now injection Hx as <-.
  - rewrite <- !app_assoc. reflexivity.
Qed.

(** ** What a [destruct()] may change *)

(** The instance when its own [destruct()] has returned. *)
Definition destructed_of (a : Instance) : Instance :=
  set_flags false true (released a).

(** Instance [j] was active in [w] and has been destructed in [w']. *)
Definition became_destructed (w w' : World) (j : nat) : Prop :=
  exists a, heap w !! j = Some a /\ is_active a = true
            /\ heap w' !! j = Some (destructed_of a).

(** Every releasing call of the trace is made for an instance that was
    active in [w], on a resource that instance tracked. *)
Definition traced_to (w : World) (ev : Event) : Prop :=
  match ev with
  | EvLog _ _ | EvDestruct _ => True
  | _ => exists j a, heap w !! j = Some a /\ is_active a = true
                     /\ ev ∈ resource_events a
  end.

Record evolves (w w' : World) : Prop := {
  ev_env : env w' = env w;
  ev_len : length (heap w') = length (heap w);
  ev_heap : forall j, heap w' !! j = heap w !! j \/ became_destructed w w' j;
  ev_reg : forall k i,
      lookupReg w' k i = lookupReg w k i
      \/ (lookupReg w' k i = None
          /\ exists j, lookupReg w k i = Some j /\ became_destructed w w' j);
  ev_bucket : forall k, is_Some (REG w !! k) -> is_Some (REG w' !! k);
  ev_released : forall j a,
      heap w !! j = Some a -> became_destructed w w' j ->
      lookupReg w (className a) (inst_id a) = Some j ->
      lookupReg w' (className a) (inst_id a) = None;
  ev_marker : forall e,
      getAttribute (dom w') e = getAttribute (dom w) e
      \/ (getAttribute (dom w') e = None
          /\ exists j a, heap w !! j = Some a /\ root a = e
                         /\ became_destructed w w' j);
  ev_unmarked : forall j a,
      heap w !! j = Some a -> became_destructed w w' j ->
      getAttribute (dom w') (root a) = None;
  ev_id : forall e, getId (dom w') e = getId (dom w) e;
  ev_trace : exists delta,
      trace w' = (trace w ++ delta)%list /\ Forall (traced_to w) delta
      /\ forall j, became_destructed w w' j -> EvDestruct j ∈ delta;
  ev_uid : nextUid w' = nextUid w;
  ev_timer : nextTimer w' = nextTimer w;
  ev_frame : nextFrame w' = nextFrame w
}.

Lemma destructed_of_inactive (a : Instance) : is_active (destructed_of a) = false.
Proof. reflexivity. Qed.

Lemma evolves_refl (w : World) : evolves w w.
Proof.
  split; auto.
  - intros j a Ha (a' & Ha' & Hact & Hd) _. rewrite Ha' in Hd.
    injection Hd as Hd. rewrite Hd in Hact. discriminate.
  - intros j a Ha (a' & Ha' & Hact & Hd). rewrite Ha' in Hd.
    injection Hd as Hd. rewrite Hd in Hact. discriminate.
  - exists []. split; [now rewrite app_nil_r|]. split; [constructor|].
    intros j (a' & Ha' & Hact & Hd). rewrite Ha' in Hd.
    injection Hd as Hd. rewrite Hd in Hact. discriminate.
Qed.

(** Instances that are active afterwards were not touched. *)
Lemma evolves_active_frame (w w' : World) (j : nat) (b : Instance) :
  evolves w w' -> heap w' !! j = Some b -> is_active b = true ->
  heap w !! j = Some b.
Proof.
  intros H Hb Hact. destruct (ev_heap _ _ H j) as [E | (a & _ & _ & Hd)].
  - now rewrite <- E.
  - rewrite Hb in Hd. injection Hd as ->. discriminate.
Qed.

(** Instances that were not active are not touched. *)
Lemma evolves_inactive_frame (w w' : World) (j : nat) (a : Instance) :
  evolves w w' -> heap w !! j = Some a -> is_active a = false ->
  heap w' !! j = Some a.
Proof.
  intros H Ha Hact. destruct (ev_heap _ _ H j) as [E | (a' & Ha' & Hact' & _)].
  - now rewrite E.
  - rewrite Ha in Ha'. injection Ha' as <-. congruence.
Qed.

Lemma became_destructed_later (w w' w'' : World) (j : nat) :
  became_destructed w w' j -> evolves w' w'' -> became_destructed w w'' j.
Proof.
  intros (a & Ha & Hact & Hd) H. exists a. repeat split; auto.
  eapply evolves_inactive_frame; eauto.
Qed.

Lemma became_destructed_earlier (w w' w'' : World) (j : nat) :
  evolves w w' -> became_destructed w' w'' j -> became_destructed w w'' j.
Proof.
  intros H (a & Ha & Hact & Hd). exists a. repeat split; auto.
  eapply evolves_active_frame; eauto.
Qed.

Lemma traced_to_earlier (w w' : World) (ev : Event) :
  evolves w w' -> traced_to w' ev -> traced_to w ev.
Proof.
  intros H. unfold traced_to.
  destruct ev; auto; intros (j & a & Ha & Hact & Hin); exists j, a;
    (split; [eapply evolves_active_frame; eauto | auto]).
Qed.

Lemma evolves_trans (w w' w'' : World) :
  evolves w w' -> evolves w' w'' -> evolves w w''.
Proof.
  intros H1 H2. split.
  - rewrite (ev_env _ _ H2). apply (ev_env _ _ H1).
  - rewrite (ev_len _ _ H2). apply (ev_len _ _ H1).
  - intros j. destruct (ev_heap _ _ H2 j) as [E2 | B2].
    + destruct (ev_heap _ _ H1 j) as [E1 | B1].
      * left. congruence.
      * right. eapply became_destructed_later; eauto.
    + right. eapply became_destructed_earlier; eauto.
  - intros k i. destruct (ev_reg _ _ H2 k i) as [E2 | (N2 & j & L2 & B2)].
    + destruct (ev_reg _ _ H1 k i) as [E1 | (N1 & j & L1 & B1)].
      * left. congruence.
      * right. split; [congruence|]. exists j. split; [auto|].
        eapply became_destructed_later; eauto.
    + right. split; [auto|].
      destruct (ev_reg _ _ H1 k i) as [E1 | (N1 & j' & L1 & B1)].
      * exists j. split; [congruence|]. eapply became_destructed_earlier; eauto.
      * congruence.
  - intros k Hk. apply (ev_bucket _ _ H2), (ev_bucket _ _ H1), Hk.
  - intros j a Ha B Hl.
    destruct (ev_heap _ _ H1 j) as [E1 | B1].
    + (* destructed in the second phase *)
      assert (B2 : became_destructed w' w'' j).
      { destruct B as (a0 & Ha0 & Hact & Hd). exists a0.
        repeat split; auto. congruence. }
      assert (Ha' : heap w' !! j = Some a) by congruence.
      destruct (ev_reg _ _ H1 (className a) (inst_id a)) as [E | (N & _)].
      * apply (ev_released _ _ H2 j a Ha' B2). congruence.
      * destruct (ev_reg _ _ H2 (className a) (inst_id a)) as [E | (N2 & _)];
          congruence.
    + (* destructed in the first phase *)
      pose proof (ev_released _ _ H1 j a Ha B1 Hl) as N1.
      destruct (ev_reg _ _ H2 (className a) (inst_id a)) as [E | (N2 & _)];
        congruence.
  - intros e. destruct (ev_marker _ _ H2 e) as [E2 | (N2 & j & a & Ha & Hr & B2)].
    + destruct (ev_marker _ _ H1 e) as [E1 | (N1 & j & a & Ha & Hr & B1)].
      * left. congruence.
      * right. split; [congruence|]. exists j, a. repeat split; auto.
        eapply became_destructed_later; eauto.
    + right. split; [auto|]. exists j, a. repeat split; auto.
      * destruct B2 as (a0 & Ha0 & Hact & _).
        assert (a0 = a) by congruence. subst a0.
        eapply evolves_active_frame; eauto.
      * eapply became_destructed_earlier; eauto.
  - intros j a Ha B.
    destruct (ev_heap _ _ H1 j) as [E1 | B1].
    + assert (B2 : became_destructed w' w'' j).
      { destruct B as (a0 & Ha0 & Hact & Hd). exists a0.
        repeat split; auto. congruence. }
      apply (ev_unmarked _ _ H2 j a); [congruence | exact B2].
    + pose proof (ev_unmarked _ _ H1 j a Ha B1) as N1.
      destruct (ev_marker _ _ H2 (root a)) as [E | (N2 & _)]; congruence.
  - intros e. rewrite (ev_id _ _ H2). apply (ev_id _ _ H1).
  - destruct (ev_trace _ _ H1) as (d1 & T1 & F1 & I1).
    destruct (ev_trace _ _ H2) as (d2 & T2 & F2 & I2).
    exists (d1 ++ d2)%list. split; [rewrite T2, T1; now rewrite app_assoc|].
    split.
    + apply Forall_app. split; [exact F1|].
      eapply Forall_impl; [exact F2|]. intros ev. now apply traced_to_earlier.
    + intros j B. apply elem_of_app.
      destruct (ev_heap _ _ H1 j) as [E1 | B1]; [|left; now apply I1].
      right. apply I2. destruct B as (a0 & Ha0 & Hact & Hd). exists a0.
      repeat split; auto. congruence.
  - rewrite (ev_uid _ _ H2). apply (ev_uid _ _ H1).
  - rewrite (ev_timer _ _ H2). apply (ev_timer _ _ H1).
  - rewrite (ev_frame _ _ H2). apply (ev_frame _ _ H1).
Qed.

(** A cascade cannot enlarge the set of active instances. *)
Lemma filter_active_le (l l' : list Instance) :
  length l' = length l ->
  (forall j, l' !! j = l !! j
             \/ exists b, l' !! j = Some b /\ is_active b = false) ->
  length (List.filter is_active l') <= length (List.filter is_active l).
Proof.
  revert l'. induction l as [|a l IH]; intros [|b l'] Hlen H; simpl in *;
    try discriminate; [lia|].
  assert (IH' : length (List.filter is_active l') <= length (List.filter is_active l)).
  { apply IH; [lia|]. intros j. apply (H (S j)). }
  destruct (H 0) as [E | (b0 & E & Hb)]; simpl in E.
  - injection E as ->. destruct (is_active a); simpl; lia.
  - injection E as ->. rewrite Hb. destruct (is_active a); simpl; lia.
Qed.

Lemma evolves_active_count (w w' : World) :
  evolves w w' -> active_count w' <= active_count w.
Proof.
  intros H. unfold active_count. apply filter_active_le; [apply (ev_len _ _ H)|].
  intros j. destruct (ev_heap _ _ H j) as [E | (a & _ & _ & Hd)]; [now left|].
  right. eexists. split; [exact Hd | reflexivity].
Qed.

(** ** The DOM under the two writes of [destruct] *)

Lemma lookup_alter_field {B} (g : Element -> B) (f : Element -> Element)
    (m : gmap nat Element) (i j : nat) :
  (forall x, g (f x) = g x) -> g <$> alter f i m !! j = g <$> m !! j.
Proof.
  intros Hf. destruct (decide (i = j)) as [->|Hne].
  - rewrite lookup_alter_eq. destruct (m !! j); simpl; [now rewrite Hf | reflexivity].
  - now rewrite lookup_alter_ne.
Qed.

Lemma lookup_clear_field {B} (g : Element -> B) (d : Dom) (e j : nat) :
  (forall p x, g (set_parent p x) = g x) ->
  (forall c x, g (set_children c x) = g x) ->
  g <$> elems (clear d e) !! j = g <$> elems d !! j.
Proof.
  intros Hp Hc. unfold clear. simpl. rewrite lookup_alter_field by apply Hc.
  induction (children d e) as [|c l IH]; simpl; [reflexivity|].
  rewrite lookup_alter_field by apply Hp. exact IH.
Qed.

Lemma getAttribute_as_fmap (d : Dom) (e : nat) :
  getAttribute d e = mjoin (el_marker <$> elems d !! e).
Proof. unfold getAttribute. now destruct (elems d !! e). Qed.

Lemma getAttribute_clear (d : Dom) (e j : nat) :
  getAttribute (clear d e) j = getAttribute d j.
Proof. rewrite !getAttribute_as_fmap. now rewrite lookup_clear_field. Qed.

Lemma getId_clear (d : Dom) (e j : nat) : getId (clear d e) j = getId d j.
Proof. unfold getId. now rewrite lookup_clear_field. Qed.

Lemma getAttribute_removeAttribute (d : Dom) (e j : nat) :
  getAttribute (removeAttribute d e) j
  = if decide (e = j) then None else getAttribute d j.
Proof.
  unfold getAttribute, removeAttribute. simpl. destruct (decide (e = j)) as [->|Hne].
  - rewrite lookup_alter_eq. now destruct (elems d !! j).
  - now rewrite lookup_alter_ne.
Qed.

Lemma getId_removeAttribute (d : Dom) (e j : nat) :
  getId (removeAttribute d e) j = getId d j.
Proof. unfold getId, removeAttribute. simpl. now rewrite lookup_alter_field. Qed.

(** ** The registry under [release] *)

Lemma lookupReg_release (cls i : string) (this : nat) (w : World) (k j : string) :
  lookupReg (release cls i this w) k j
  = if decide (k = cls /\ j = i /\ lookupReg w cls i = Some this)
    then None else lookupReg w k j.
Proof.
  unfold release. destruct (lookupReg w cls i) as [r|] eqn:E.
  - destruct (Nat.eqb_spec r this) as [->|Hne].
    + unfold lookupReg in *. simpl.
      destruct (decide (cls = k)) as [<-|Hk].
      * rewrite lookup_alter_eq. destruct (REG w !! cls) as [b|]; [|discriminate].
        simpl in *. destruct (decide (i = j)) as [<-|Hj].
        -- rewrite lookup_delete_eq. now rewrite decide_True.
        -- rewrite lookup_delete_ne by auto.
           rewrite decide_False; [reflexivity | intros (_ & ? & _); congruence].
      * rewrite lookup_alter_ne by auto.
        rewrite decide_False; [reflexivity | intros (? & _); congruence].
    + rewrite decide_False; [reflexivity | intros (_ & _ & ?); congruence].
  - rewrite decide_False; [reflexivity | intros (_ & _ & ?); congruence].
Qed.

Lemma release_bucket (cls i : string) (this : nat) (w : World) (k : string) :
  is_Some (REG w !! k) -> is_Some (REG (release cls i this w) !! k).
Proof.
  intros Hk. unfold release. destruct (lookupReg w cls i) as [r|]; [|exact Hk].
  destruct (Nat.eqb r this); [|exact Hk]. simpl.
  destruct (decide (cls = k)) as [<-|Hne].
  - rewrite lookup_alter_eq. destruct Hk as [b ->]. simpl. eauto.
  - now rewrite lookup_alter_ne.
Qed.

(** ** The clean-up in closed form *)

(** The world after the clean-up and the [finally] block, given the
    world [w] the cascade left and the record [a] of [this] in it. *)
Definition cleaned (cls i : string) (this : nat) (a : Instance) (w : World) : World :=
  {| env := env w;
     dom := removeAttribute (clear (dom w) (root a)) (root a);
     REG := REG (release cls i this w);
     heap := alter (fun _ => destructed_of a) this (heap w);
     nextTimer := nextTimer w; nextFrame := nextFrame w; nextUid := nextUid w;
     trace := trace w ++ resource_events a ++ closing_log (isEnabled w info) a |}.

Lemma finish_cleanup (cls i : string) (this : nat) (a : Instance) (w : World) :
  heap w !! this = Some a ->
  finish this (cleanup cls i this w) = cleaned cls i this a w.
Proof.
  intros H. unfold cleanup. rewrite (cleanup_resources this w a H).
  unfold clear_root at 1. rewrite lookup_update. cbn [heap emit]. rewrite H.
  cbn [fmap option_fmap option_map].
  unfold unmark_root at 1. cbn [heap with_dom]. rewrite lookup_update.
  cbn [heap emit]. rewrite H. cbn [fmap option_fmap option_map].
  unfold log_destructed.
  assert (Hrel : forall w1, REG w1 = REG w -> heap (release cls i this w1) = heap w1
                            /\ env (release cls i this w1) = env w1
                            /\ dom (release cls i this w1) = dom w1
                            /\ trace (release cls i this w1) = trace w1
                            /\ nextTimer (release cls i this w1) = nextTimer w1
                            /\ nextFrame (release cls i this w1) = nextFrame w1
                            /\ nextUid (release cls i this w1) = nextUid w1
                            /\ REG (release cls i this w1) = REG (release cls i this w)).
  { intros w1 Hr. unfold release, lookupReg. rewrite Hr.
    destruct (REG w !! cls ≫= (.!! i)) as [r|]; [|now repeat split].
    destruct (Nat.eqb r this); [|now repeat split]. simpl. rewrite Hr.
    now repeat split. }
  match goal with |- context [release cls i this ?w1] =>
    destruct (Hrel w1 eq_refl) as (Rh & Re & Rd & Rt & R1 & R2 & R3 & Rr);
    set (wr := release cls i this w1) in *
  end.
  rewrite Rh. cbn [heap with_dom]. rewrite lookup_update. cbn [heap emit].
  rewrite H. cbn [fmap option_fmap option_map].
  assert (Hen : isEnabled wr info = isEnabled w info).
  { unfold isEnabled. rewrite Re. reflexivity. }
  rewrite Hen. unfold cleaned, closing_log, finish, update, with_heap, L_log, emit.
  destruct (isEnabled w info); cbn [heap trace env dom REG nextTimer nextFrame nextUid];
    rewrite ?Rh, ?Re, ?Rd, ?Rt, ?R1, ?R2, ?R3, ?Rr;
    cbn [heap trace env dom REG nextTimer nextFrame nextUid with_dom update with_heap emit];
    f_equal;
    try (rewrite list_alter_alter_eq; apply list_alter_ext; [|reflexivity];
         intros x Hx; reflexivity);
    rewrite <- ?app_assoc, ?app_nil_r; reflexivity.
Qed.

(** ** Every [destruct()] returns, and what it leaves *)

Lemma not_became_destructed (w w' : World) (j : nat) :
  heap w' !! j = heap w !! j -> ~ became_destructed w w' j.
Proof.
  intros E (a & Ha & Hact & Hd). rewrite E, Ha in Hd. injection Hd as Hd.
  rewrite Hd in Hact. discriminate.
Qed.

(** A step that leaves heap, DOM and registry lookups alone. *)
Lemma evolves_quiet (w w' : World) (delta : list Event) :
  env w' = env w -> heap w' = heap w -> dom w' = dom w ->
  (forall k i, lookupReg w' k i = lookupReg w k i) ->
  (forall k, is_Some (REG w !! k) -> is_Some (REG w' !! k)) ->
  trace w' = (trace w ++ delta)%list -> Forall (traced_to w) delta ->
  nextUid w' = nextUid w -> nextTimer w' = nextTimer w ->
  nextFrame w' = nextFrame w ->
  evolves w w'.
Proof.
  intros He Hh Hd Hr Hb Ht Hf Hu Hti Hfr.
  assert (Hn : forall j, ~ became_destructed w w' j).
  { intros j. apply not_became_destructed. now rewrite Hh. }
  split; auto.
  - now rewrite Hh.
  - intros j. left. now rewrite Hh.
  - intros j a _ B. now destruct (Hn j).
  - intros e. left. now rewrite Hd.
  - intros j a _ B. now destruct (Hn j).
  - intros e. now rewrite Hd.
  - exists delta. split; [exact Ht|]. split; [exact Hf|].
    intros j B. now destruct (Hn j).
Qed.

Lemma emit_evolves (w : World) (evs : list Event) :
  Forall (traced_to w) evs -> evolves w (emit evs w).
Proof. intros H. now apply (evolves_quiet w (emit evs w) evs). Qed.

Lemma ensureClassBucket_fields (cls : string) (w : World) :
  env (ensureClassBucket cls w) = env w
  /\ heap (ensureClassBucket cls w) = heap w
  /\ dom (ensureClassBucket cls w) = dom w
  /\ trace (ensureClassBucket cls w) = trace w.
Proof. unfold ensureClassBucket. now destruct (REG w !! cls). Qed.

Lemma ensureClassBucket_keeps (cls : string) (w : World) (k : string) :
  is_Some (REG w !! k) -> is_Some (REG (ensureClassBucket cls w) !! k).
Proof.
  intros Hk. unfold ensureClassBucket. destruct (REG w !! cls) eqn:E; [exact Hk|].
  simpl. destruct (decide (cls = k)) as [->|Hne].
  - rewrite lookup_insert_eq. eauto.
  - now rewrite lookup_insert_ne.
Qed.

Lemma ensureClassBucket_evolves (cls : string) (w : World) :
  evolves w (ensureClassBucket cls w).
Proof.
  destruct (ensureClassBucket_fields cls w) as (He & Hh & Hd & Ht).
  apply (evolves_quiet w _ []); auto.
  - apply lookupReg_ensureClassBucket.
  - apply ensureClassBucket_keeps.
  - now rewrite app_nil_r.
  - unfold ensureClassBucket. now destruct (REG w !! cls).
  - unfold ensureClassBucket. now destruct (REG w !! cls).
  - unfold ensureClassBucket. now destruct (REG w !! cls).
Qed.

(** [base] returns on every instance of every world with fewer than [n]
    active instances. *)
Definition total_below (n : nat)
    (base : nat -> World -> option (Result unit * World)) : Prop :=
  forall i w b, heap w !! i = Some b -> active_count w < n ->
    exists r w', base i w = Some (r, w') /\ evolves w w'.

Lemma invoke_total (n : nat) base (i : nat) (w : World) (b : Instance) :
  total_below n base -> heap w !! i = Some b -> active_count w < n ->
  exists r w', invoke base i w = Some (r, w') /\ evolves w w'.
Proof.
  intros Hb Hi Hn. unfold invoke. rewrite Hi.
  cbn [fmap option_fmap option_map].
  destruct (Hb i w b Hi Hn) as (r & w' & Hr & Hev).
  destruct (destructImpl b).
  - exists r, w'. split; [exact Hr | exact Hev].
  - eexists _, _. split; [reflexivity | apply evolves_refl].
  - rewrite Hr. destruct r; eexists _, _; (split; [reflexivity | exact Hev]).
Qed.

Lemma cascade_step_total (n : nat) base (el : nat) (w : World) :
  total_below n base -> active_count w < n ->
  exists w', cascade_step base el w = Some w' /\ evolves w w'.
Proof.
  intros Hb Hn. unfold cascade_step.
  destruct (_ || _); [eauto using evolves_refl|].
  destruct (lookupReg w _ _) as [i|]; [|eauto using evolves_refl].
  destruct (heap w !! i) as [b|] eqn:Hi; [|eauto using evolves_refl].
  destruct (is_active b); [|eauto using evolves_refl].
  destruct (invoke_total n base i w b Hb Hi Hn) as (r & w' & Hr & Hev).
  rewrite Hr. destruct r; [eauto|].
  eexists. split; [reflexivity|]. eapply evolves_trans; [exact Hev|].
  apply emit_evolves. repeat constructor.
Qed.

Lemma cascade_total (n : nat) base (nodes : list nat) (w : World) :
  total_below n base -> active_count w < n ->
  exists w', cascade base nodes w = Some w' /\ evolves w w'.
Proof.
  intros Hb. revert w. induction nodes as [|el rest IH]; intros w Hn; simpl.
  - eauto using evolves_refl.
  - destruct (cascade_step_total n base el w Hb Hn) as (w1 & H1 & E1).
    rewrite H1.
    destruct (IH w1) as (w2 & H2 & E2).
    { pose proof (evolves_active_count _ _ E1). lia. }
    exists w2. split; [exact H2 | eapply evolves_trans; eauto].
Qed.

(** The world in which the [try] block of an active [this] starts. *)
Definition entered (this : nat) (a : Instance) (w : World) : World :=
  update this (set_flags true (isDestructed a))
         (emit [EvDestruct this] (ensureClassBucket (className a) w)).

Lemma entered_lookup (this : nat) (a : Instance) (w : World) :
  heap w !! this = Some a ->
  heap (entered this a w) !! this = Some (set_flags true (isDestructed a) a).
Proof.
  intros H. unfold entered. rewrite lookup_update. cbn [heap emit].
  destruct (ensureClassBucket_fields (className a) w) as (_ & -> & _).
  now rewrite H.
Qed.

Lemma entered_lookup_ne (this j : nat) (a : Instance) (w : World) :
  this <> j -> heap (entered this a w) !! j = heap w !! j.
Proof.
  intros H. unfold entered. rewrite lookup_update_ne by auto. cbn [heap emit].
  now destruct (ensureClassBucket_fields (className a) w) as (_ & -> & _).
Qed.

Lemma filter_active_alter (l : list Instance) (this : nat) (a : Instance)
    (g : Instance -> Instance) :
  l !! this = Some a -> is_active a = true -> is_active (g a) = false ->
  S (length (List.filter is_active (alter g this l)))
  = length (List.filter is_active l).
Proof.
  revert this. induction l as [|x l IH]; intros [|this] H Ha Hg; simpl in *;
    try discriminate.
  - injection H as ->. rewrite Ha, Hg. reflexivity.
  - specialize (IH this H Ha Hg).
    change (list_alter g this l) with (alter g this l).
    destruct (is_active x); simpl; lia.
Qed.

Lemma entered_active_count (this : nat) (a : Instance) (w : World) :
  heap w !! this = Some a -> is_active a = true ->
  S (active_count (entered this a w)) = active_count w.
Proof.
  intros H Ha. unfold active_count, entered, update. cbn [heap with_heap emit].
  destruct (ensureClassBucket_fields (className a) w) as (_ & -> & _).
  now apply (filter_active_alter _ this a).
Qed.

Lemma resource_event_traced (w : World) (j : nat) (a : Instance) (ev : Event) :
  heap w !! j = Some a -> is_active a = true -> ev ∈ resource_events a ->
  traced_to w ev.
Proof. intros. destruct ev; simpl; eauto. Qed.

(** From the cascade's result to the result of the whole call. *)
Lemma own_evolves (this : nat) (a : Instance) (w wc : World) :
  heap w !! this = Some a -> is_active a = true ->
  evolves (entered this a w) wc ->
  evolves w (cleaned (className a) (inst_id a) this
                     (set_flags true (isDestructed a) a) wc).
Proof.
  intros Ha Hact Hev.
  set (cls := className a). set (i := inst_id a).
  set (a0 := set_flags true (isDestructed a) a).
  set (w0 := entered this a w) in *.
  assert (H0 : heap w0 !! this = Some a0) by now apply entered_lookup.
  assert (Hc : heap wc !! this = Some a0).
  { eapply evolves_inactive_frame; eauto. }
  destruct (ensureClassBucket_fields (className a) w) as (Ee & Eh & Ed & Et).
  assert (Hthis : became_destructed w (cleaned cls i this a0 wc) this).
  { exists a. repeat split; auto. unfold cleaned. cbn [heap].
    rewrite list_lookup_alter_eq, Hc. reflexivity. }
  assert (Hother : forall j, this <> j ->
             heap (cleaned cls i this a0 wc) !! j = heap w !! j
             \/ became_destructed w (cleaned cls i this a0 wc) j).
  { intros j Hj. unfold cleaned at 1. cbn [heap].
    rewrite list_lookup_alter_ne by auto.
    destruct (ev_heap _ _ Hev j) as [E | (b & Hb & Hbact & Hd)].
    - left. rewrite E. now apply entered_lookup_ne.
    - right. exists b. unfold w0 in Hb. rewrite entered_lookup_ne in Hb by auto.
      repeat split; auto. unfold cleaned. cbn [heap].
      now rewrite list_lookup_alter_ne. }
  assert (Hback : forall j, this <> j ->
             became_destructed w (cleaned cls i this a0 wc) j ->
             became_destructed w0 wc j).
  { intros j Hj (b & Hb & Hbact & Hd). exists b.
    unfold cleaned in Hd. cbn [heap] in Hd.
    rewrite list_lookup_alter_ne in Hd by auto.
    unfold w0. rewrite entered_lookup_ne by auto. auto. }
  assert (Hfwd : forall j, became_destructed w0 wc j ->
             this <> j /\ became_destructed w (cleaned cls i this a0 wc) j).
  { intros j (b & Hb & Hbact & Hd).
    assert (Hj : this <> j).
    { intros <-. rewrite H0 in Hb. injection Hb as <-. discriminate. }
    split; [exact Hj|]. exists b. unfold w0 in Hb.
    rewrite entered_lookup_ne in Hb by auto. repeat split; auto.
    unfold cleaned. cbn [heap]. now rewrite list_lookup_alter_ne. }
  assert (Hreg0 : forall k j, lookupReg w0 k j = lookupReg w k j).
  { intros k j. unfold w0, entered, lookupReg, update. cbn [REG with_heap emit].
    apply (lookupReg_ensureClassBucket cls w k j). }
  assert (Hregc : forall k j,
             lookupReg (cleaned cls i this a0 wc) k j
             = if decide (k = cls /\ j = i /\ lookupReg wc cls i = Some this)
               then None else lookupReg wc k j).
  { intros k j. rewrite <- lookupReg_release. reflexivity. }
  assert (Hdom0 : dom w0 = dom w).
  { unfold w0, entered, update. cbn [dom with_heap emit]. exact Ed. }
  assert (Hmark : forall e,
             getAttribute (dom (cleaned cls i this a0 wc)) e
             = if decide (root a = e) then None else getAttribute (dom wc) e).
  { intros e. unfold cleaned. cbn [dom].
    rewrite getAttribute_removeAttribute. change (root a0) with (root a).
    destruct (decide (root a = e)); [reflexivity | apply getAttribute_clear]. }
  split.
  - unfold cleaned. cbn [env]. rewrite (ev_env _ _ Hev).
    unfold w0, entered, update. cbn [env with_heap emit]. exact Ee.
  - unfold cleaned. cbn [heap]. rewrite length_alter, (ev_len _ _ Hev).
    unfold w0, entered, update. cbn [heap with_heap emit].
    now rewrite length_alter, Eh.
  - intros j. destruct (decide (this = j)) as [<-|Hj]; [now right | now apply Hother].
  - intros k j. rewrite Hregc.
    destruct (decide _) as [(-> & -> & Hl)|Hn].
    + right. split; [reflexivity|]. exists this. split; [|exact Hthis].
      destruct (ev_reg _ _ Hev cls i) as [E | (N & _)]; [|congruence].
      rewrite <- Hreg0. congruence.
    + destruct (ev_reg _ _ Hev k j) as [E | (N & j' & L & B)].
      * left. rewrite E. apply Hreg0.
      * right. split; [exact N|]. exists j'. rewrite <- Hreg0.
        split; [exact L | now apply Hfwd].
  - intros k Hk. unfold cleaned. cbn [REG]. apply release_bucket.
    apply (ev_bucket _ _ Hev). unfold w0, entered, update.
    cbn [REG with_heap emit]. now apply ensureClassBucket_keeps.
  - intros j b Hb B Hl. rewrite Hregc.
    destruct (decide _) as [|Hn]; [reflexivity|].
    destruct (decide (this = j)) as [<-|Hj].
    + assert (b = a) by congruence. subst b. fold cls i in Hl |- *.
      destruct (ev_reg _ _ Hev cls i) as [E | (N & _)]; [|exact N].
      rewrite Hreg0, Hl in E. destruct Hn. auto.
    + apply (ev_released _ _ Hev j b); [|now apply Hback|now rewrite Hreg0].
      unfold w0. now rewrite entered_lookup_ne.
  - intros e. rewrite Hmark. destruct (decide (root a = e)) as [<-|Hr].
    + right. split; [reflexivity|]. exists this, a. auto.
    + destruct (ev_marker _ _ Hev e) as [E | (N & j & b & Hb & Hrb & B)].
      * left. now rewrite E, Hdom0.
      * right. split; [exact N|]. destruct (Hfwd j B) as (Hj & B').
        exists j, b. unfold w0 in Hb. rewrite entered_lookup_ne in Hb by auto.
        auto.
  - intros j b Hb B. rewrite Hmark.
    destruct (decide (root a = root b)) as [|Hr]; [reflexivity|].
    destruct (decide (this = j)) as [<-|Hj]; [congruence|].
    apply (ev_unmarked _ _ Hev j b); [|now apply Hback].
    unfold w0. now rewrite entered_lookup_ne.
  - intros e. unfold cleaned. cbn [dom].
    rewrite getId_removeAttribute, getId_clear, (ev_id _ _ Hev), Hdom0.
    reflexivity.
  - destruct (ev_trace _ _ Hev) as (dc & Tc & Fc & Ic).
    exists (EvDestruct this
            :: dc ++ resource_events a0 ++ closing_log (isEnabled wc info) a0)%list.
    split; [|split].
    + unfold cleaned. cbn [trace]. rewrite Tc.
      unfold w0, entered, update. cbn [trace with_heap emit]. rewrite Et.
      now rewrite <- !app_assoc.
    + constructor; [exact I|].
      apply Forall_app. split; [|apply Forall_app; split].
      * eapply Forall_impl; [exact Fc|]. intros ev.
        unfold traced_to. destruct ev; auto;
          intros (j & b & Hb & Hbact & Hin); exists j, b;
          (split; [|auto]);
          (destruct (decide (this = j)) as [<-|Hj];
           [rewrite H0 in Hb; injection Hb as <-; discriminate
           |unfold w0 in Hb; now rewrite entered_lookup_ne in Hb]).
      * apply Forall_forall. intros ev Hin.
        eapply (resource_event_traced w this a); eauto.
      * unfold closing_log. destruct (isEnabled wc info); repeat constructor.
    + intros j B. destruct (decide (this = j)) as [<-|Hj]; [left|].
      right. apply elem_of_app. left. apply Ic. now apply Hback.
  - unfold cleaned. cbn [nextUid]. rewrite (ev_uid _ _ Hev).
    unfold w0, entered, update. cbn [nextUid with_heap emit].
    unfold ensureClassBucket. now destruct (REG w !! className a).
  - unfold cleaned. cbn [nextTimer]. rewrite (ev_timer _ _ Hev).
    unfold w0, entered, update. cbn [nextTimer with_heap emit].
    unfold ensureClassBucket. now destruct (REG w !! className a).
  - unfold cleaned. cbn [nextFrame]. rewrite (ev_frame _ _ Hev).
    unfold w0, entered, update. cbn [nextFrame with_heap emit].
    unfold ensureClassBucket. now destruct (REG w !! className a).
Qed.

Lemma is_active_flags (a : Instance) :
  is_active a = true -> isDestructing a = false /\ isDestructed a = false.
Proof. unfold is_active. destruct (isDestructing a), (isDestructed a); auto. Qed.

Lemma destruct_active_unfold (fuel this : nat) (w : World) (a : Instance) :
  heap w !! this = Some a -> is_active a = true ->
  destruct (S fuel) this w
  = match cascade (destruct fuel)
            (_collectOwnedDescendantsDeepFirst (dom w) (root a))
            (entered this a w) with
    | Some wc =>
        Some (Ok tt, finish this (cleanup (className a) (inst_id a) this wc))
    | None => None
    end.
Proof.
  intros H Hact. destruct (is_active_flags a Hact) as (Hg & Hd).
  pose proof (entered_lookup this a w H) as He.
  assert (Hdom : dom (entered this a w) = dom w).
  { unfold entered, update. cbn [dom with_heap emit].
    apply (ensureClassBucket_fields (className a) w). }
  cbn [destruct]. rewrite H, Hd, Hg. unfold try_finally, destruct_body.
  unfold entered in *. rewrite Hd in *. rewrite He, Hdom.
  cbn [root set_flags].
  now destruct (cascade _ _ _).
Qed.

Lemma destruct_inactive_unfold (fuel this : nat) (w : World) (a : Instance) :
  heap w !! this = Some a -> is_active a = false ->
  destruct (S fuel) this w
  = Some (Throw (L_error w (if isDestructed a then "LightBase.ALREADY_DESTRUCTED"
                            else "LightBase.DESTRUCT_IN_PROGRESS")
                         (cls_ctx (className a) (inst_id a))),
          ensureClassBucket (className a) w).
Proof.
  intros H Hact. cbn [destruct]. rewrite H.
  assert (He : forall c x, L_error (ensureClassBucket (className a) w) c x
                           = L_error w c x).
  { intros. unfold L_error.
    now destruct (ensureClassBucket_fields (className a) w) as (-> & _). }
  rewrite !He. unfold is_active in Hact.
  destruct (isDestructed a); [reflexivity|].
  destruct (isDestructing a); [reflexivity | discriminate].
Qed.

(** With more fuel than active instances, [destruct] returns on every
    instance, and the world evolves. *)
Lemma destruct_total (fuel : nat) : total_below fuel (destruct fuel).
Proof.
  induction fuel as [|fuel IH]; intros this w a Ha Hn; [lia|].
  destruct (is_active a) eqn:Hact.
  - rewrite (destruct_active_unfold fuel this w a Ha Hact).
    pose proof (entered_active_count this a w Ha Hact) as Hc.
    destruct (cascade_total fuel (destruct fuel)
                (_collectOwnedDescendantsDeepFirst (dom w) (root a))
                (entered this a w) IH) as (wc & Hwc & Hev); [lia|].
    rewrite Hwc. eexists _, _. split; [reflexivity|].
    rewrite (finish_cleanup _ _ this (set_flags true (isDestructed a) a) wc).
    + now apply own_evolves.
    + eapply evolves_inactive_frame; [exact Hev | now apply entered_lookup |].
      reflexivity.
  - rewrite (destruct_inactive_unfold fuel this w a Ha Hact).
    eexists _, _. split; [reflexivity | apply ensureClassBucket_evolves].
Qed.





End Destruction.

Section Lifecycle.

Import LFacade Base.
Local Open Scope string_scope.













(** ** Every tracked resource is released exactly once *)

(** The cancelling calls for what the instance tracks: listener records,
    timeouts, intervals, frames, abortables. *)
Definition tracked_cancels (a : Instance) : list Event :=
  map off_event (_listeners a)
  ++ map EvClearTimeout (elements (_timeouts a))
  ++ map EvClearInterval (elements (_intervals a))
  ++ map EvCancelFrame (elements (_rafs a))
  ++ map EvAbort (elements (_aborts a)).









Lemma tracked_cancel_is_resource (a : Instance) (ev : Event) :
  ev ∈ tracked_cancels a -> ev ∈ resource_events a.
Proof.
  unfold tracked_cancels, resource_events. rewrite !elem_of_app. tauto.
Qed.



End Lifecycle.

Section Ownership.

Import LFacade Base.
Local Open Scope string_scope.

(** Every active instance is registered under its identity, is bound to
    the element with its id, and that element carries its kind. *)
Definition owned (w : World) : Prop :=
  forall j a, heap w !! j = Some a -> is_active a = true ->
    className a <> EmptyString /\ inst_id a <> EmptyString
    /\ lookupReg w (className a) (inst_id a) = Some j
    /\ getId (dom w) (root a) = inst_id a
    /\ getAttribute (dom w) (root a) = Some (className a).

(** The operations of the base class, as calls made by its clients. *)
Inductive step : World -> World -> Prop :=
| step_construct C i w r w' :
    construct C i w = (r, w') -> step w w'
| step_destruct this w r w' :
    destruct (enough_fuel w) this w = Some (r, w') -> step w w'
| step_addEvent this target type a b c w r w' :
    addEvent this target type a b c w = (r, w') -> step w w'
| step_removeEvent d w :
    step w (run_event_disposer d w)
| step_addDisposer this fn w r w' :
    addDisposer this fn w = (r, w') -> step w w'
| step_observe k this el h w r w' :
    observe k this el h w = (r, w') -> step w w'
| step_setT this fn ms w r w' : setT this fn ms w = (r, w') -> step w w'
| step_clearT this h w r w' : clearT this h w = (r, w') -> step w w'
| step_setI this fn ms w r w' : setI this fn ms w = (r, w') -> step w w'
| step_clearI this h w r w' : clearI this h w = (r, w') -> step w w'
| step_requestFrame this fn w r w' :
    requestFrame this fn w = (r, w') -> step w w'
| step_cancelFrame this h w r w' :
    cancelFrame this h w = (r, w') -> step w w'
| step_addAbortController this ac w r w' :
    addAbortController this ac w = (r, w') -> step w w'.

(** [f] changes tracked resources only. *)
Definition tracking_only (f : Instance -> Instance) : Prop :=
  forall a, className (f a) = className a /\ inst_id (f a) = inst_id a
            /\ root (f a) = root a /\ is_active (f a) = is_active a.

Lemma owned_tracking (w w' : World) (this : nat) (f : Instance -> Instance) :
  tracking_only f ->
  dom w' = dom w -> REG w' = REG w -> heap w' = alter f this (heap w) ->
  owned w -> owned w'.
Proof.
  intros Hf Hd Hr Hh Ho j b Hb Hact.
  assert (Hl : forall k i, lookupReg w' k i = lookupReg w k i).
  { intros. unfold lookupReg. now rewrite Hr. }
  rewrite Hh in Hb. rewrite Hd, Hl.
  destruct (decide (this = j)) as [<-|Hj].
  - rewrite list_lookup_alter_eq in Hb.
    destruct (heap w !! this) as [a|] eqn:Ha; [|discriminate].
    injection Hb as <-. destruct (Hf a) as (-> & -> & -> & E).
    apply (Ho this a Ha). now rewrite <- E.
  - rewrite list_lookup_alter_ne in Hb by auto. now apply Ho.
Qed.

Lemma owned_same_heap (w w' : World) :
  dom w' = dom w -> heap w' = heap w ->
  (forall k i, lookupReg w' k i = lookupReg w k i) ->
  owned w -> owned w'.
Proof.
  intros Hd Hh Hl Ho j b Hb Hact. rewrite Hh in Hb. rewrite Hd, Hl.
  now apply Ho.
Qed.

Lemma owned_evolves (w w' : World) : evolves w w' -> owned w -> owned w'.
Proof.
  intros Hev Ho j b Hb Hact.
  pose proof (evolves_active_frame w w' j b Hev Hb Hact) as Hb0.
  destruct (Ho j b Hb0 Hact) as (Hc & Hn & Hl & Hi & Hm).
  assert (Hstill : ~ became_destructed w w' j).
  { intros (a & _ & _ & Hd). rewrite Hb in Hd. injection Hd as ->. discriminate. }
  split; [exact Hc|]. split; [exact Hn|]. split; [|split].
  - destruct (ev_reg _ _ Hev (className b) (inst_id b)) as [E | (_ & j' & L & B)].
    + now rewrite E.
    + rewrite Hl in L. injection L as <-. contradiction.
  - now rewrite (ev_id _ _ Hev).
  - destruct (ev_marker _ _ Hev (root b)) as [E | (_ & j' & a' & Ha' & Hr & B)].
    + now rewrite E.
    + destruct B as (a'' & Ha'' & Hact' & Hd).
      assert (a'' = a') by congruence. subst a''.
      destruct (Ho j' a' Ha' Hact') as (_ & _ & Hl' & Hi' & Hm').
      rewrite Hr in Hi', Hm'.
      assert (className a' = className b) by congruence.
      assert (inst_id a' = inst_id b) by congruence.
      assert (j' = j) by congruence. subst j'.
      destruct Hstill. exists a'. auto.
Qed.

Lemma getElementById_id (d : Dom) (i : string) (el : nat) :
  getElementById d i = Some el -> getId d el = i.
Proof.
  unfold getElementById. intros H. apply find_some in H as (_ & H).
  now apply String.eqb_eq.
Qed.

Lemma getId_setAttribute (d : Dom) (e j : nat) (v : string) :
  getId (setAttribute d e v) j = getId d j.
Proof. unfold getId, setAttribute. simpl. now rewrite lookup_alter_field. Qed.

Lemma getAttribute_setAttribute (d : Dom) (e j : nat) (v : string) :
  getAttribute (setAttribute d e v) j
  = if decide (e = j) then (fun _ => v) <$> elems d !! e else getAttribute d j.
Proof.
  unfold getAttribute, setAttribute. simpl. destruct (decide (e = j)) as [->|Hne].
  - rewrite lookup_alter_eq. now destruct (elems d !! j).
  - now rewrite lookup_alter_ne.
Qed.

Lemma getId_exists (d : Dom) (e : nat) :
  getId d e <> EmptyString -> is_Some (elems d !! e).
Proof. unfold getId. destruct (elems d !! e); [eauto | simpl; congruence]. Qed.

Lemma valid_id_nonempty (i : string) : valid_id i = true -> i <> EmptyString.
Proof. unfold valid_id. intros H ->. discriminate. Qed.

Lemma getClassName_nonempty (C : Class) : getClassName C <> EmptyString.
Proof.
  unfold getClassName. destruct (String.eqb_spec (c_name C) EmptyString);
    [discriminate | assumption].
Qed.

Lemma owner_ok_same (o : option string) (cls k : string) :
  owner_ok o cls = true -> o = Some k -> k <> EmptyString -> k = cls.
Proof.
  intros H -> Hk. simpl in H. apply orb_prop in H as [H|H].
  - apply String.eqb_eq in H. congruence.
  - now apply String.eqb_eq in H.
Qed.

Lemma lookup_claim (r : gmap string (gmap string nat)) (cls i : string)
    (this : nat) (k j : string) :
  (<[cls := <[i := this]> (default ∅ (r !! cls))]> r) !! k ≫= (.!! j)
  = if decide (k = cls /\ j = i) then Some this else r !! k ≫= (.!! j).
Proof.
  destruct (decide (cls = k)) as [<-|Hk].
  - rewrite lookup_insert_eq. cbn. destruct (decide (i = j)) as [<-|Hj].
    + rewrite lookup_insert_eq. now rewrite decide_True.
    + rewrite lookup_insert_ne by auto.
      rewrite decide_False by (intros (_ & ?); congruence).
      destruct (r !! cls); [reflexivity | apply lookup_empty].
  - rewrite lookup_insert_ne by auto.
    now rewrite decide_False by (intros (? & _); congruence).
Qed.

Lemma constructed_fields (C : Class) (i : string) (el : nat) (w : World) :
  let w' := constructed C i el w in
  dom w' = setAttribute (dom w) el (getClassName C)
  /\ (exists w1, heap w' = (heap w ++ [new_instance C i el w1])%list)
  /\ forall k j,
       lookupReg w' k j
       = if decide (k = getClassName C /\ j = i) then Some (length (heap w))
         else lookupReg w k j.
Proof.
  intros w'. unfold w', constructed, scoped_log, L_log.
  destruct (ensureClassBucket_fields (getClassName C) w) as (_ & Hh & Hd & _).
  match goal with |- context [if ?b then _ else _] => destruct b end;
    cbn [dom heap REG emit with_REG with_heap with_dom]; rewrite ?Hh, ?Hd;
    (split; [reflexivity|]); (split; [eexists; reflexivity|]);
    intros k j; unfold lookupReg at 1; cbn [REG emit with_REG with_heap with_dom];
    rewrite lookup_claim;
    (destruct (decide _); [reflexivity|]);
    apply (lookupReg_ensureClassBucket (getClassName C) w k j).
Qed.

Lemma owned_construct (C : Class) (i : string) (w : World) r w' :
  construct C i w = (r, w') -> owned w -> owned w'.
Proof.
  intros Hc Ho. destruct r as [this|e].
  - destruct (construct_ok_inv C i w this w' Hc)
      as (el & Hv & Hvac & Hel & Hok & -> & ->).
    destruct (constructed_fields C i el w) as (Hd & (w1 & Hh) & Hl).
    pose proof (getElementById_id _ _ _ Hel) as Hid.
    pose proof (valid_id_nonempty i Hv) as Hne.
    assert (Hex : is_Some (elems (dom w) !! el)).
    { apply getId_exists. congruence. }
    intros j b Hb Hact. rewrite Hh in Hb. rewrite Hd, Hl.
    rewrite getId_setAttribute, getAttribute_setAttribute.
    destruct (decide (j = length (heap w))) as [->|Hj].
    + rewrite lookup_app_r in Hb by lia. rewrite Nat.sub_diag in Hb.
      injection Hb as <-. cbn [className inst_id root new_instance].
      split; [apply getClassName_nonempty|]. split; [exact Hne|].
      split; [now rewrite decide_True|].
      split; [exact Hid|]. rewrite decide_True by reflexivity.
      destruct Hex as [x ->]. reflexivity.
    + assert (Hb0 : heap w !! j = Some b).
      { destruct (decide (j < length (heap w))).
        - now rewrite lookup_app_l in Hb by lia.
        - rewrite lookup_app_r in Hb by lia.
          destruct (j - length (heap w)) eqn:E; [lia|]. discriminate. }
      destruct (Ho j b Hb0 Hact) as (Hcn & Hin & Hlr & Hi & Hm).
      split; [exact Hcn|]. split; [exact Hin|]. split; [|split; [exact Hi|]].
      * rewrite decide_False; [exact Hlr|]. intros (E1 & E2).
        rewrite E1, E2 in Hlr. congruence.
      * destruct (decide (el = root b)) as [->|Hr]; [|exact Hm].
        destruct Hex as [x ->]. cbn. f_equal. symmetry.
        now apply (owner_ok_same _ _ _ Hok Hm).
  - destruct (construct_throw_inv C i w e w' Hc) as (_ & Hd & Hh & _ & Hl).
    now apply (owned_same_heap w w').
Qed.

Ltac by_tracking Ho :=
  eapply owned_tracking; [ | | |reflexivity|exact Ho];
  [intros x; now repeat split|reflexivity|reflexivity].

Lemma owned_step (w w' : World) : step w w' -> owned w -> owned w'.
Proof.
  intros Hs Ho. destruct Hs as
    [C i w r w' H | this w r w' H | this target type a b c w r w' H | d w
    | this fn w r w' H | k this el h w r w' H | this fn ms w r w' H
    | this h w r w' H | this fn ms w r w' H | this h w r w' H
    | this fn w r w' H | this h w r w' H | this ac w r w' H].
  - eapply owned_construct; eauto.
  - destruct (heap w !! this) as [a|] eqn:Ha.
    + destruct (destruct_total (enough_fuel w) this w a Ha) as (r0 & w0 & H0 & Hev);
        [unfold enough_fuel; lia|].
      rewrite H in H0. injection H0 as <- <-. eapply owned_evolves; eauto.
    + unfold enough_fuel in H. cbn [destruct] in H. rewrite Ha in H. discriminate.
  - unfold addEvent in H. destruct (resolve_target w target).
    + destruct (is_function a); cbv beta iota zeta in H;
        match type of H with
        | context [if on_throws ?x ?y then _ else _] => destruct (on_throws x y)
        end;
        injection H as <- <-;
        first [now apply (owned_same_heap w) | by_tracking Ho].
    + now injection H as <- <-.
  - destruct d; [exact Ho|]. now apply (owned_same_heap w).
  - unfold addDisposer in H. destruct fn; injection H as <- <-; [|exact Ho].
    by_tracking Ho.
  - unfold observe, L_observe, addDisposer in H. injection H as <- <-.
    by_tracking Ho.
  - injection H as <- <-.
    by_tracking Ho.
  - injection H as <- <-.
    by_tracking Ho.
  - injection H as <- <-.
    by_tracking Ho.
  - injection H as <- <-.
    by_tracking Ho.
  - injection H as <- <-.
    by_tracking Ho.
  - injection H as <- <-.
    by_tracking Ho.
  - unfold addAbortController in H. destruct ac; injection H as <- <-; [|exact Ho].
    by_tracking Ho.
Qed.

(** C8.  The marker is one attribute of the element.  Constructing a
    component on an element already marked by the same kind succeeds
    and the marker stays that kind; on an element marked by a different
    kind the construction fails with LightBase.CONFLICT_OWNER and the
    DOM is unchanged.  Starting without instances, every operation of
    the base class keeps this invariant: each active instance is
    registered, is bound to the element with its id, and that element's
    marker is the instance's kind; so an element has at most one active
    owner and never carries the marker of another kind than its
    owner's. *)
Theorem marker_names_the_single_owner :
  (forall C i w el,
      valid_id i = true -> lookupReg w (getClassName C) i = None ->
      getElementById (dom w) i = Some el ->
      getAttribute (dom w) el = Some (getClassName C) ->
      exists w',
        construct C i w = (Ok (length (heap w)), w')
        /\ getAttribute (dom w') el = Some (getClassName C))
  /\ (forall C i w el k,
        valid_id i = true -> lookupReg w (getClassName C) i = None ->
        getElementById (dom w) i = Some el ->
        getAttribute (dom w) el = Some k ->
        k <> EmptyString -> k <> getClassName C ->
        exists e w',
          construct C i w = (Throw e, w')
          /\ err_code e = "LightBase.CONFLICT_OWNER"
          /\ dom w' = dom w
          /\ getAttribute (dom w') el = Some k)
  /\ (forall w, heap w = [] -> owned w)
  /\ (forall w w', step w w' -> owned w -> owned w')
  /\ (forall w, owned w ->
        forall j1 j2 a1 a2,
          heap w !! j1 = Some a1 -> is_active a1 = true ->
          heap w !! j2 = Some a2 -> is_active a2 = true ->
          root a1 = root a2 -> j1 = j2)
  /\ (forall w, owned w ->
        forall j a, heap w !! j = Some a -> is_active a = true ->
          getAttribute (dom w) (root a) = Some (className a)).
Proof.
  split; [|split; [|split; [|split; [|split]]]].
  - intros C i w el Hv Hvac Hel Hm. rewrite construct_cases.
    cbv zeta. rewrite Hv, Hvac, Hel, Hm. cbn [negb owner_ok].
    rewrite String.eqb_refl, orb_true_r. eexists. split; [reflexivity|].
    destruct (constructed_fields C i el w) as (-> & _).
    rewrite getAttribute_setAttribute, decide_True by reflexivity.
    unfold getAttribute in Hm. now destruct (elems (dom w) !! el).
  - intros C i w el k Hv Hvac Hel Hm Hk Hne. rewrite construct_cases.
    cbv zeta. rewrite Hv, Hvac, Hel, Hm. cbn [negb owner_ok].
    destruct (String.eqb_spec k EmptyString); [congruence|].
    destruct (String.eqb_spec k (getClassName C)); [congruence|].
    cbn [orb]. eexists _, _. split; [reflexivity|].
    split; [apply err_code_L_error; [discriminate | reflexivity]|].
    destruct (ensureClassBucket_fields (getClassName C) w) as (_ & _ & -> & _).
    auto.
  - intros w Hh j a Ha. rewrite Hh in Ha. discriminate.
  - exact owned_step.
  - intros w Ho j1 j2 a1 a2 H1 A1 H2 A2 Hr.
    destruct (Ho j1 a1 H1 A1) as (_ & _ & L1 & I1 & M1).
    destruct (Ho j2 a2 H2 A2) as (_ & _ & L2 & I2 & M2).
    rewrite Hr in I1, M1.
    assert (className a1 = className a2) by congruence.
    assert (inst_id a1 = inst_id a2) by congruence.
    congruence.
  - intros w Ho j a Ha Hact. now destruct (Ho j a Ha Hact) as (_ & _ & _ & _ & ?).
Qed.

(** The page whose element [#p] carries [data-light-name="Panel"] from
    the start. *)
Definition premarked : World :=
  with_dom (fun d => setAttribute d 1 "Panel") Scenario.start.

Lemma marker_names_the_single_owner_witness :
  valid_id "p" = true
  /\ lookupReg premarked "Panel" "p" = None
  /\ getElementById (dom premarked) "p" = Some 1
  /\ getAttribute (dom premarked) 1 = Some "Panel"
  /\ (exists w', construct Scenario.Panel "p" premarked = (Ok 0, w')
                 /\ getAttribute (dom w') 1 = Some "Panel")
  /\ (exists e w', construct Scenario.Slot "p" premarked = (Throw e, w')
                   /\ err_code e = "LightBase.CONFLICT_OWNER"
                   /\ getAttribute (dom w') 1 = Some "Panel").
Proof.
  assert (Hv : valid_id "p" = true) by (vm_compute; reflexivity).
  assert (H1 : lookupReg premarked (getClassName Scenario.Panel) "p" = None)
    by (vm_compute; reflexivity).
  assert (H1' : lookupReg premarked (getClassName Scenario.Slot) "p" = None)
    by (vm_compute; reflexivity).
  assert (H2 : getElementById (dom premarked) "p" = Some 1)
    by (vm_compute; reflexivity).
  assert (H3 : getAttribute (dom premarked) 1 = Some (getClassName Scenario.Panel))
    by (vm_compute; reflexivity).
  destruct marker_names_the_single_owner as (Hsame & Hdiff & _).
  split; [exact Hv|]. split; [exact H1|]. split; [exact H2|]. split; [exact H3|].
  split.
  - exact (Hsame Scenario.Panel "p" premarked 1 Hv H1 H2 H3).
  - destruct (Hdiff Scenario.Slot "p" premarked 1 "Panel" Hv H1' H2 H3)
      as (e & w' & Hc & He & _ & Hm); [discriminate | discriminate |].
    exists e, w'. auto.
Defined.

End Ownership.

Section Cascade.

Import LFacade Base.
Local Open Scope string_scope.
Local Open Scope nat_scope.

(** ** The order of the visit *)









(** ** Two marked descendants *)





Lemma depth_root (d : Dom) (root : nat) : depth d root root = 0.
Proof. unfold depth, dom_fuel. simpl. now rewrite Nat.eqb_refl. Qed.




End Cascade.

(* ===================================================================== *)
(** * Every tracked resource is released once                             *)
(* ===================================================================== *)

Section Release.

Import LFacade Base.
Local Open Scope string_scope.

(** ** The worlds the clients of the base class reach *)














(** ** One cancelling call for one tracked resource *)



















End Release.

(* ===================================================================== *)
(** * Properties of clamp                                                 *)
(* ===================================================================== *)

Section Arithmetic.

Import LUtil.
Local Open Scope Q_scope.








End Arithmetic.

(* ===================================================================== *)
(** * Properties of the placement strings                                  *)
(* ===================================================================== *)

Section PlacementStrings.

Import Tip LFacade TipParts.
Local Open Scope string_scope.

Lemma split_on_no_sep (sep : ascii) (s : string) :
  includes_char sep s = false -> split_on sep s = [s].
Proof.
  induction s as [|c s IH]; cbn; [reflexivity|].
  intros H. apply orb_false_iff in H as [Hc Hs].
  rewrite Ascii.eqb_sym, Hc, (IH Hs). reflexivity.
Qed.

Lemma split_on_app (sep : ascii) (s t : string) :
  includes_char sep s = false ->
  split_on sep (s +:+ String sep t) = s :: split_on sep t.
Proof.
  induction s as [|c s IH]; intros H.
  - rewrite app_nil_l. cbn. now rewrite Ascii.eqb_refl.
  - cbn in H. apply orb_false_iff in H as [Hc Hs].
    rewrite app_cons. cbn. rewrite Ascii.eqb_sym, Hc, (IH Hs). reflexivity.
Qed.

Lemma starts_with_auto (s t : string) :
  includes_char "-" s = false ->
  LUtil.starts_with "auto-" (s +:+ String "-" t) = true -> s = "auto".
Proof.
  intros Hs Hp.
  destruct s as [|c1 [|c2 [|c3 [|c4 [|c5 s]]]]];
    repeat rewrite ?app_cons, ?app_nil_l in Hp;
    cbn [LUtil.starts_with] in Hp;
    repeat (apply andb_true_iff in Hp as [Hc Hp];
            apply Ascii.eqb_eq in Hc; try discriminate Hc; subst);
    try reflexivity; try discriminate Hp.
  cbn in Hs. discriminate Hs.
Qed.

Lemma starts_with_auto_dash (s : string) :
  includes_char "-" s = false -> LUtil.starts_with "auto-" s = false.
Proof.
  intros Hs. destruct (LUtil.starts_with "auto-" s) eqn:Hp; [|reflexivity].
  destruct s as [|c1 [|c2 [|c3 [|c4 [|c5 s]]]]];
    cbn [LUtil.starts_with] in Hp;
    repeat (apply andb_true_iff in Hp as [Hc Hp];
            apply Ascii.eqb_eq in Hc; try discriminate Hc; subst);
    try discriminate Hp.
  cbn in Hs. discriminate Hs.
Qed.

(** X6.  [parsePlacement] reads back what [_applyPosition] writes: for a
    side and an alignment that are non-empty and contain no '-', the
    string [side + '-' + align] parses to that side and alignment without
    the auto flag (provided the side is not the word 'auto'), and the same
    string behind the prefix 'auto-' parses to them with the flag.  A
    missing alignment defaults to 'center', a missing option to
    top-center. *)
Theorem parsePlacement_reads_placement_attr (s a : string) :
  s <> EmptyString -> a <> EmptyString ->
  includes_char "-" s = false -> includes_char "-" a = false ->
  (s <> "auto" ->
   parsePlacement (placement_attr s a)
   = {| p_side := s; p_align := a; p_auto := false |})
  /\ parsePlacement ("auto-" +:+ placement_attr s a)
     = {| p_side := s; p_align := a; p_auto := true |}
  /\ parsePlacement s = {| p_side := s; p_align := "center"; p_auto := false |}
  /\ parsePlacement EmptyString
     = {| p_side := "top"; p_align := "center"; p_auto := false |}.
Proof.
  intros Hs Ha Ds Da.
  assert (Es : or_else s "top" = s).
  { unfold or_else. destruct (String.eqb_spec s EmptyString); congruence. }
  assert (Ea : or_else a "center" = a).
  { unfold or_else. destruct (String.eqb_spec a EmptyString); congruence. }
  assert (Esplit : split_on "-" (placement_attr s a) = [s; a]).
  { unfold placement_attr. rewrite app_cons, app_nil_l.
    rewrite (split_on_app "-" s a Ds). now rewrite (split_on_no_sep "-" a Da). }
  assert (Ne : forall t, String.eqb (s +:+ t) EmptyString = false).
  { intros t. destruct s; [congruence|]. now rewrite app_cons. }
  split; [|split; [|split]].
  - intros Hauto. unfold parsePlacement.
    assert (Hp : LUtil.starts_with "auto-" (placement_attr s a) = false).
    { destruct (LUtil.starts_with "auto-" (placement_attr s a)) eqn:E; [|reflexivity].
      unfold placement_attr in E. rewrite app_cons, app_nil_l in E.
      now apply starts_with_auto in E. }
    unfold placement_attr at 1. rewrite Ne, Hp, Esplit. cbn [lookup list_lookup default].
    cbn. now rewrite Es, Ea.
  - unfold parsePlacement.
    change ("auto-" +:+ placement_attr s a)
      with (String "a" (String "u" (String "t" (String "o" (String "-"
             (placement_attr s a)))))).
    cbn [String.eqb slice_from]. 
    cbn [LUtil.starts_with Ascii.eqb Bool.eqb andb].
    rewrite Esplit. cbn. now rewrite Es, Ea.
  - unfold parsePlacement.
    pose proof (starts_with_auto_dash s Ds) as Hp.
    destruct (String.eqb_spec s EmptyString); [congruence|].
    rewrite Hp, (split_on_no_sep "-" s Ds). cbn. now rewrite Es.
  - reflexivity.
Qed.

Lemma parsePlacement_reads_placement_attr_witness :
  parsePlacement "bottom-start"
  = {| p_side := "bottom"; p_align := "start"; p_auto := false |}
  /\ parsePlacement "auto-bottom-start"
     = {| p_side := "bottom"; p_align := "start"; p_auto := true |}.
Proof.
  destruct (parsePlacement_reads_placement_attr "bottom" "start")
    as (H1 & H2 & _); try discriminate; try reflexivity.
  split; [apply H1; discriminate | exact H2].
Defined.

(** X7.  The candidates of [fallbackPlacements] are six placements with
    pairwise different (side, alignment): the search of the auto mode
    never measures the same placement twice. *)
Theorem fallbackPlacements_distinct (preferred : Placement) :
  length (fallbackPlacements preferred) = 6%nat
  /\ NoDup (map (fun p => (side p, align p)) (fallbackPlacements preferred)).
Proof.
  destruct preferred as [s a au].
  split; [destruct s, a; reflexivity|].
  destruct s, a; cbn;
    repeat (apply NoDup_cons; split;
            [ intros H; repeat (apply elem_of_cons in H as [H|H]; [discriminate H|]);
              apply elem_of_nil in H; exact H | ]);
    apply NoDup_nil; exact I.
Qed.

End PlacementStrings.

(* ===================================================================== *)
(** * Properties of the HTML escaping                                      *)
(* ===================================================================== *)

Section Escaping.

Import LFacade LUtil.
Local Open Scope string_scope.

(** The entity each special character is written as. *)
Definition entity (c : ascii) : option string :=
  if Ascii.eqb c "&" then Some "&amp;"
  else if Ascii.eqb c "<" then Some "&lt;"
  else if Ascii.eqb c ">" then Some "&gt;"
  else if Ascii.eqb c (ascii_of_nat 34) then Some "&quot;"
  else if Ascii.eqb c "'" then Some "&#39;"
  else None.

(** A text in which the characters [special] selects are written as
    their entities. *)
Fixpoint written (special : ascii -> bool) (s : string) : string :=
  match s with
  | EmptyString => EmptyString
  | String c s' =>
      match entity c with
      | Some e => if special c then e +:+ written special s'
                  else String c (written special s')
      | None => String c (written special s')
      end
  end.

Definition among (l : list ascii) (c : ascii) : bool := existsb (Ascii.eqb c) l.

Definition ch_amp : ascii := "&".
Definition ch_lt : ascii := "<".
Definition ch_gt : ascii := ">".
Definition ch_quot : ascii := ascii_of_nat 34.
Definition ch_apos : ascii := "'".

Lemma replace_all_nil (pat rep : string) : replace_all pat rep EmptyString = EmptyString.
Proof. reflexivity. Qed.

Lemma replace_lit_skip (pat rep p s : string) :
  replace_lit_from pat rep (String.length p) (p +:+ s) = replace_all pat rep s.
Proof.
  induction p as [|c p IH]; [rewrite app_nil_l; reflexivity|].
  rewrite app_cons. exact IH.
Qed.

Lemma replace_all_match (a : ascii) (p rep s : string) :
  replace_all (String a p) rep (String a p +:+ s) = rep +:+ replace_all (String a p) rep s.
Proof.
  unfold replace_all at 1. rewrite app_cons. cbn [replace_lit_from].
  assert (H : forall q t, starts_with q (q +:+ t) = true).
  { induction q as [|c q IH]; intros t; [reflexivity|].
    rewrite app_cons. cbn. now rewrite Ascii.eqb_refl, IH. }
  rewrite <- (app_cons a p s), H.
  replace (String.length (String a p) - 1) with (String.length p)
    by (cbn [String.length]; lia).
  now rewrite replace_lit_skip.
Qed.

Lemma replace_all_pass (pat rep : string) (c : ascii) (s : string) :
  starts_with pat (String c s) = false ->
  replace_all pat rep (String c s) = String c (replace_all pat rep s).
Proof. intros H. unfold replace_all. cbn [replace_lit_from]. now rewrite H. Qed.

Lemma starts_with_other (a c : ascii) (p s : string) :
  Ascii.eqb c a = false -> starts_with (String a p) (String c s) = false.
Proof. intros H. cbn. now rewrite Ascii.eqb_sym, H. Qed.

(** One pass of [escapeHTML]: the character [a] is written as its
    entity, nothing else changes. *)
Lemma escape_pass (done : list ascii) (a : ascii) (e : string) (s : string) :
  entity a = Some e ->
  among done a = false ->
  (forall c e', among done c = true -> entity c = Some e' ->
                forall t, replace_all (String a EmptyString) e (e' +:+ t)
                          = e' +:+ replace_all (String a EmptyString) e t) ->
  replace_all (String a EmptyString) e (written (among done) s)
  = written (among (done ++ [a])) s.
Proof.
  intros He Ha Hover. induction s as [|c s IH]; [reflexivity|].
  cbn [written].
  assert (Hamong : among (done ++ [a]) c = among done c || Ascii.eqb c a).
  { unfold among. rewrite existsb_app. cbn. now rewrite orb_false_r. }
  rewrite Hamong.
  destruct (entity c) as [e'|] eqn:Ec.
  - destruct (among done c) eqn:Dc; cbn [orb].
    + rewrite (Hover c e' Dc Ec). now rewrite IH.
    + destruct (Ascii.eqb_spec c a) as [->|Hne].
      * rewrite He in Ec. injection Ec as <-.
        rewrite <- (app_nil_l (written _ s)), <- app_cons.
        rewrite replace_all_match. now rewrite IH.
      * rewrite replace_all_pass, IH; [reflexivity|].
        apply starts_with_other. now apply Ascii.eqb_neq.
  - assert (Hne : Ascii.eqb c a = false).
    { apply Ascii.eqb_neq. intros ->. congruence. }
    rewrite replace_all_pass, IH; [reflexivity|].
    now apply starts_with_other.
Qed.

Ltac pass_over :=
  intros c e' Dc Ec t; unfold among, entity in *; cbn in Dc;
  repeat match type of Ec with
         | context [Ascii.eqb c ?x] =>
             destruct (Ascii.eqb_spec c x) as [->|];
             [ try discriminate Dc; injection Ec as <-
             | ]
         end; try discriminate Dc; try discriminate Ec;
  repeat rewrite ?app_cons, ?app_nil_l;
  repeat (rewrite replace_all_pass by reflexivity); reflexivity.

Lemma written_none (s : string) : written (among []) s = s.
Proof.
  induction s as [|c s IH]; [reflexivity|]. cbn [written among existsb].
  destruct (entity c); now rewrite IH.
Qed.

Lemma escapeHTML_written (v : JsVal) :
  escapeHTML v = written (among [ch_amp; ch_lt; ch_gt; ch_quot; ch_apos]) (to_String v).
Proof.
  unfold escapeHTML.
  rewrite <- (written_none (to_String v)) at 1.
  rewrite (escape_pass [] ch_amp "&amp;"); [|reflexivity|reflexivity|pass_over].
  rewrite (escape_pass [ch_amp] ch_lt "&lt;"); [|reflexivity|reflexivity|pass_over].
  rewrite (escape_pass [ch_amp; ch_lt] ch_gt "&gt;"); [|reflexivity|reflexivity|pass_over].
  rewrite (escape_pass [ch_amp; ch_lt; ch_gt] ch_quot "&quot;");
    [|reflexivity|reflexivity|pass_over].
  rewrite (escape_pass [ch_amp; ch_lt; ch_gt; ch_quot] ch_apos "&#39;");
    [|reflexivity|reflexivity|pass_over].
  reflexivity.
Qed.

(** One pass of [unescapeHTML]: the entity of [a] is read back as [a],
    nothing else changes. *)
Lemma unescape_pass (todo rest : list ascii) (a : ascii) (p : string) (s : string) :
  entity a = Some (String ch_amp p) ->
  among todo ch_amp = true ->
  (forall c, among rest c = among todo c && negb (Ascii.eqb c a)) ->
  (forall c e', among rest c = true -> entity c = Some e' ->
                forall t, replace_all (String ch_amp p) (String a EmptyString) (e' +:+ t)
                          = e' +:+ replace_all (String ch_amp p) (String a EmptyString) t) ->
  replace_all (String ch_amp p) (String a EmptyString) (written (among todo) s)
  = written (among rest) s.
Proof.
  intros He Hamp Hrest Hover. induction s as [|c s IH]; [reflexivity|].
  cbn [written]. rewrite (Hrest c).
  assert (Hraw : among todo c = false ->
                 replace_all (String ch_amp p) (String a EmptyString)
                             (String c (written (among todo) s))
                 = String c (written (among rest) s)).
  { intros Hc. rewrite replace_all_pass, IH; [reflexivity|].
    apply starts_with_other. apply Ascii.eqb_neq. intros ->. congruence. }
  destruct (entity c) as [e'|] eqn:Ec.
  - destruct (among todo c) eqn:Dc; cbn [andb]; [|now apply Hraw].
    destruct (Ascii.eqb_spec c a) as [->|Hne]; cbn [negb].
    + rewrite He in Ec. injection Ec as <-.
      rewrite replace_all_match, IH. now rewrite app_cons, app_nil_l.
    + rewrite (Hover c e'), IH; [reflexivity| |exact Ec].
      rewrite Hrest, Dc. cbn. apply negb_true_iff. now apply Ascii.eqb_neq.
  - destruct (among todo c) eqn:Dc; cbn [andb]; [|now apply Hraw].
    destruct (negb (Ascii.eqb c a));
      (rewrite replace_all_pass, IH; [reflexivity|]);
      apply starts_with_other; apply Ascii.eqb_neq; intros ->;
      unfold entity, ch_amp in Ec; cbn in Ec; discriminate Ec.
Qed.

Ltac among_rest :=
  intros c; unfold among; cbn [existsb];
  repeat match goal with
         | |- context [Ascii.eqb c ?x] =>
             destruct (Ascii.eqb_spec c x) as [->|]
         end; reflexivity.

Lemma unescapeHTML_written (s : string) :
  unescapeHTML (JStr (written (among [ch_amp; ch_lt; ch_gt; ch_quot; ch_apos]) s)) = s.
Proof.
  unfold unescapeHTML. cbn [to_String].
  rewrite (unescape_pass [ch_amp; ch_lt; ch_gt; ch_quot; ch_apos] [ch_amp; ch_gt; ch_quot; ch_apos] ch_lt "lt;");
    [|reflexivity|reflexivity|among_rest|pass_over].
  rewrite (unescape_pass [ch_amp; ch_gt; ch_quot; ch_apos] [ch_amp; ch_quot; ch_apos] ch_gt "gt;");
    [|reflexivity|reflexivity|among_rest|pass_over].
  rewrite (unescape_pass [ch_amp; ch_quot; ch_apos] [ch_amp; ch_apos] ch_quot "quot;");
    [|reflexivity|reflexivity|among_rest|pass_over].
  rewrite (unescape_pass [ch_amp; ch_apos] [ch_amp] ch_apos "#39;");
    [|reflexivity|reflexivity|among_rest|pass_over].
  rewrite (unescape_pass [ch_amp] [] ch_amp "amp;");
    [|reflexivity|reflexivity|among_rest|pass_over].
  apply written_none.
Qed.

Lemma includes_char_app (c : ascii) (s t : string) :
  includes_char c (s +:+ t) = includes_char c s || includes_char c t.
Proof.
  induction s as [|d s IH]; [now rewrite app_nil_l|].
  rewrite app_cons. cbn. now rewrite IH, orb_assoc.
Qed.

(** X8.  Whatever value is given, the text [escapeHTML] returns contains
    none of the characters <, >, the double quote and the apostrophe
    (and a text without any of the five special characters is returned
    as it is). *)
Theorem escapeHTML_leaves_no_markup (v : JsVal) (c : ascii) :
  c = ch_lt \/ c = ch_gt \/ c = ch_quot \/ c = ch_apos ->
  includes_char c (escapeHTML v) = false
  /\ ((forall d, among [ch_amp; ch_lt; ch_gt; ch_quot; ch_apos] d = true ->
                 includes_char d (to_String v) = false) ->
      escapeHTML v = to_String v).
Proof.
  intros Hc. rewrite escapeHTML_written. generalize (to_String v) as s.
  intros s. split.
  - assert (Hs : among [ch_amp; ch_lt; ch_gt; ch_quot; ch_apos] c = true /\ entity c <> None).
    { destruct Hc as [-> | [-> | [-> | ->]]]; split; (reflexivity || discriminate). }
    assert (He : forall d e, entity d = Some e -> includes_char c e = false).
    { intros d e Ed. unfold entity in Ed.
      repeat match type of Ed with
             | context [Ascii.eqb d ?x] => destruct (Ascii.eqb d x)
             end; try discriminate Ed; injection Ed as <-;
        destruct Hc as [-> | [-> | [-> | ->]]]; reflexivity. }
    induction s as [|d s IH]; [reflexivity|].
    cbn [written].
    assert (Hraw : (among [ch_amp; ch_lt; ch_gt; ch_quot; ch_apos] d = false \/ entity d = None) ->
                   includes_char c
                     (String d (written (among [ch_amp; ch_lt; ch_gt; ch_quot; ch_apos]) s)) = false).
    { intros Hd. cbn [includes_char]. rewrite IH, orb_false_r.
      apply Ascii.eqb_neq. intros ->. destruct Hs, Hd; congruence. }
    destruct (entity d) as [e|] eqn:Ed; [|apply Hraw; now right].
    destruct (among _ d) eqn:Ad; [|apply Hraw; now left].
    now rewrite includes_char_app, (He d e Ed), IH.
  - intros Hnone. induction s as [|d s IH]; [reflexivity|].
    cbn [written].
    assert (Hd : among [ch_amp; ch_lt; ch_gt; ch_quot; ch_apos] d = false).
    { destruct (among _ d) eqn:E; [|reflexivity].
      specialize (Hnone d E). cbn in Hnone. now rewrite Ascii.eqb_refl in Hnone. }
    rewrite Hd, IH.
    + now destruct (entity d).
    + intros x Hx. specialize (Hnone x Hx). cbn in Hnone.
      now apply orb_false_iff in Hnone.
Qed.

Lemma escapeHTML_leaves_no_markup_witness :
  includes_char "<" (escapeHTML (JStr "<b>Tom & Jerry</b>")) = false.
Proof.
  apply (escapeHTML_leaves_no_markup (JStr "<b>Tom & Jerry</b>") "<").
  left. reflexivity.
Defined.

(** X9.  [unescapeHTML] undoes [escapeHTML]: for every value [v],
    unescaping the escaped text gives back [String(v)]. *)
Theorem unescapeHTML_escapeHTML (v : JsVal) :
  unescapeHTML (JStr (escapeHTML v)) = to_String v.
Proof. rewrite escapeHTML_written. apply unescapeHTML_written. Qed.

End Escaping.

(* ===================================================================== *)
(** * Properties of the array helpers                                      *)
(* ===================================================================== *)

Section ArrayHelpers.

Import LFacade LUtil.
Local Open Scope nat_scope.

Context {A : Type}.

Lemma chunk_size_pos (size : Q) : 1 <= chunk_size size.
Proof. unfold chunk_size. lia. Qed.

Lemma chunk_loop_concat (n : nat) (array : list A) :
  1 <= n ->
  forall fuel i, length array - i <= fuel ->
                 concat (chunk_loop fuel array n i) = drop i array.
Proof.
  intros Hn. induction fuel as [|f IH]; intros i Hf.
  - cbn. symmetry. apply drop_ge. lia.
  - cbn [chunk_loop]. destruct (Nat.ltb_spec i (length array)) as [Hi|Hi].
    + cbn [concat]. rewrite IH by lia.
      rewrite <- drop_drop. apply take_drop.
    + symmetry. apply drop_ge. lia.
Qed.

Lemma chunk_loop_lookup (n : nat) (array : list A) :
  1 <= n ->
  forall fuel i k c,
    length array - i <= fuel ->
    chunk_loop fuel array n i !! k = Some c ->
    c = take n (drop (i + k * n) array) /\ i + k * n < length array.
Proof.
  intros Hn. induction fuel as [|f IH]; intros i k c Hf Hc; [discriminate Hc|].
  cbn [chunk_loop] in Hc.
  destruct (Nat.ltb_spec i (length array)) as [Hi|Hi]; [|discriminate Hc].
  destruct k as [|k].
  - injection Hc as <-. rewrite Nat.add_0_r. auto.
  - cbn in Hc. apply IH in Hc as [-> Hlt]; [|lia].
    replace (i + S k * n) with (i + n + k * n) by lia. auto.
Qed.

Lemma chunk_loop_length (n : nat) (array : list A) :
  1 <= n ->
  forall fuel i,
    length array - i <= fuel ->
    forall k, k < length (chunk_loop fuel array n i) <-> i + k * n < length array.
Proof.
  intros Hn. induction fuel as [|f IH]; intros i Hf k.
  - cbn. lia.
  - cbn [chunk_loop].
    destruct (Nat.ltb_spec i (length array)) as [Hi|Hi].
    + destruct k as [|k]; cbn [length]; [lia|].
      rewrite <- Nat.succ_lt_mono, IH by lia. lia.
    + cbn. nia.
Qed.

(** X10.  [L.chunk(array, size)] cuts the array into consecutive pieces:
    joined again they give the array; with [n = max(1, size|0)], the
    piece of index [k] is the slice from [k*n] to [k*n + n], so every
    piece holds between 1 and [n] elements and every piece but the last
    exactly [n].  A size below 1 (zero, negative, a fraction) counts as 1. *)
Theorem chunk_partitions (array : list A) (size : Q) :
  let n := chunk_size size in
  concat (chunk array size) = array
  /\ (forall k c, chunk array size !! k = Some c ->
                  c = take n (drop (k * n) array)
                  /\ 1 <= length c <= n
                  /\ (S k < length (chunk array size) -> length c = n))
  /\ ((Tip.bitor0 size < 1)%Z -> n = 1).
Proof.
  intros n. pose proof (chunk_size_pos size) as Hn. fold n in Hn.
  unfold chunk. fold n.
  split; [|split].
  - now rewrite (chunk_loop_concat n array Hn) by lia.
  - intros k c Hc.
    destruct (chunk_loop_lookup n array Hn (length array) 0 k c ltac:(lia) Hc)
      as [-> Hlt].
    cbn [Nat.add] in *. split; [reflexivity|].
    rewrite length_take, length_drop. split; [lia|].
    intros Hk. apply (chunk_loop_length n array Hn) in Hk; lia.
  - intros Hs. unfold n, chunk_size. lia.
Qed.

Context `{EqDecision A}.

Lemma elem_of_set_add (s : list A) (x y : A) : y ∈ set_add s x <-> y ∈ s \/ y = x.
Proof.
  unfold set_add. destruct (decide (x ∈ s)) as [Hx|Hx].
  - split; [auto|]. intros [H| ->]; assumption.
  - rewrite elem_of_app, list_elem_of_singleton. reflexivity.
Qed.

Lemma NoDup_set_add (s : list A) (x : A) : NoDup s -> NoDup (set_add s x).
Proof.
  intros Hs. unfold set_add. destruct (decide (x ∈ s)) as [Hx|Hx]; [exact Hs|].
  apply NoDup_app. split; [exact Hs|]. split; [|apply NoDup_singleton].
  intros y Hy Hy'. apply list_elem_of_singleton in Hy'. now subst.
Qed.

Lemma foldl_set_add_spec (l acc : list A) :
  NoDup acc ->
  NoDup (foldl set_add acc l)
  /\ forall y, y ∈ foldl set_add acc l <-> y ∈ acc \/ y ∈ l.
Proof.
  revert acc. induction l as [|x l IH]; intros acc Hacc; cbn [foldl].
  - split; [exact Hacc|]. intros y. rewrite elem_of_nil. tauto.
  - destruct (IH (set_add acc x) (NoDup_set_add acc x Hacc)) as [Hn Hin].
    split; [exact Hn|]. intros y.
    rewrite Hin, elem_of_set_add, elem_of_cons. tauto.
Qed.

Lemma set_add_nil (x : A) : set_add [] x = [x].
Proof. unfold set_add. destruct (decide (x ∈ [])) as [H|H]; [|reflexivity].
  now apply elem_of_nil in H.
Qed.

Lemma filter_filter_and {B : Type} (f g : B -> bool) (l : list B) :
  List.filter f (List.filter g l) = List.filter (fun y => g y && f y) l.
Proof.
  induction l as [|z l IH]; [reflexivity|]. cbn [List.filter].
  destruct (g z); cbn [List.filter andb]; [destruct (f z)|]; now rewrite IH.
Qed.

Lemma foldl_set_add_from (l acc : list A) :
  foldl set_add acc l = acc ++ List.filter (fun y => bool_decide (y ∉ acc)) (unique l).
Proof.
  revert acc. induction l as [|x l IH]; intros acc.
  - cbn. now rewrite app_nil_r.
  - unfold unique. cbn [foldl]. rewrite set_add_nil.
    rewrite (IH (set_add acc x)), (IH [x]). cbn [app List.filter].
    unfold set_add. destruct (decide (x ∈ acc)) as [Hx|Hx].
    + rewrite bool_decide_false by tauto. f_equal.
      rewrite filter_filter_and. apply List.filter_ext. intros y.
      rewrite <- bool_decide_and. apply bool_decide_ext.
      rewrite list_elem_of_singleton. split; [|tauto].
      intros Hy. split; [|exact Hy]. intros ->. tauto.
    + rewrite bool_decide_true by exact Hx. rewrite <- app_assoc. cbn [app].
      do 2 f_equal.
      rewrite filter_filter_and. apply List.filter_ext. intros y.
      rewrite <- bool_decide_and. apply bool_decide_ext.
      rewrite elem_of_app, list_elem_of_singleton. tauto.
Qed.

(** X11.  [L.unique(array)] keeps the first occurrence of every element,
    in the order of these occurrences: the result has no duplicates and
    the same elements as the array, and the result for [x :: l] is [x]
    followed by the result for [l] without [x]. *)
Theorem unique_first_occurrences (x : A) (l : list A) :
  NoDup (unique l)
  /\ (forall y, y ∈ unique l <-> y ∈ l)
  /\ unique (@nil A) = []
  /\ unique (x :: l) = x :: List.filter (fun y => bool_decide (y <> x)) (unique l).
Proof.
  destruct (foldl_set_add_spec l [] (NoDup_nil_2)) as [Hn Hin].
  split; [exact Hn|]. split.
  { intros y. unfold unique. rewrite Hin, elem_of_nil. tauto. }
  split; [reflexivity|].
  unfold unique at 1. cbn [foldl]. rewrite set_add_nil.
  rewrite foldl_set_add_from. cbn [app]. f_equal.
  apply List.filter_ext. intros y. apply bool_decide_ext.
  now rewrite list_elem_of_singleton.
Qed.

End ArrayHelpers.

Section KeyedArrays.

Import LFacade LUtil.
Local Open Scope nat_scope.

Context {A K : Type} `{EqDecision K}.

Lemma keys_map_set (m : list (K * A)) (k : K) (v : A) :
  (map_set m k v).*1 = set_add (m.*1) k.
Proof.
  induction m as [|[k' v'] m IH]; cbn [map_set].
  - change ([]: list (K * A)).*1 with (@nil K). now rewrite set_add_nil.
  - change (((k', v') :: m).*1) with (k' :: m.*1).
    unfold set_add in *. destruct (decide (k' = k)) as [->|Hk].
    + rewrite decide_True by apply list_elem_of_here. reflexivity.
    + change (((k', v') :: map_set m k v).*1) with (k' :: (map_set m k v).*1).
      rewrite IH.
      destruct (decide (k ∈ m.*1)) as [Hin|Hin].
      * rewrite decide_True by (now apply list_elem_of_further). reflexivity.
      * rewrite decide_False; [reflexivity|].
        rewrite elem_of_cons. intros [->|?]; tauto.
Qed.

Lemma elem_of_map_set (m : list (K * A)) (k0 : K) (v0 : A) (k : K) (v : A) :
  NoDup (m.*1) ->
  (k, v) ∈ map_set m k0 v0 <-> (k = k0 /\ v = v0) \/ (k <> k0 /\ (k, v) ∈ m).
Proof.
  induction m as [|[k' v'] m IH]; intros Hnd; cbn [map_set].
  - rewrite list_elem_of_singleton, elem_of_nil. split.
    + intros [= -> ->]. auto.
    + intros [[-> ->]|[_ []]]. reflexivity.
  - cbn in Hnd. apply NoDup_cons in Hnd as [Hk' Hnd].
    destruct (decide (k' = k0)) as [->|Hne].
    + rewrite !elem_of_cons. split.
      * intros [[= -> ->]|Hin]; [auto|]. right. split; [|auto].
        intros ->. apply Hk'. apply list_elem_of_fmap. now exists (k0, v).
      * intros [[-> ->]|[Hne [[= -> ->]|Hin]]]; [auto|tauto|auto].
    + rewrite !elem_of_cons, (IH Hnd). split.
      * intros [[= -> ->]|[?|[? ?]]]; auto.
      * intros [?|[? [?|?]]]; auto.
Qed.

(** [v] is the last item of [l] whose key is [k]. *)
Definition last_with (keyFn : A -> K) (l : list A) (k : K) (v : A) : Prop :=
  keyFn v = k
  /\ exists l1 l2, l = l1 ++ v :: l2 /\ forall y, y ∈ l2 -> keyFn y <> k.

Lemma last_with_snoc (keyFn : A -> K) (l : list A) (x : A) (k : K) (v : A) :
  last_with keyFn (l ++ [x]) k v
  <-> (k = keyFn x /\ v = x) \/ (k <> keyFn x /\ last_with keyFn l k v).
Proof.
  unfold last_with. split.
  - intros (Hk & l1 & l2 & E & Hl2).
    destruct l2 as [|y l2 _] using rev_ind.
    + apply app_inj_tail in E as [-> ->]. auto.
    + rewrite app_comm_cons, app_assoc in E. apply app_inj_tail in E as [-> ->].
      right. split.
      * intros ->. apply (Hl2 y); [|reflexivity].
        apply elem_of_app. right. apply list_elem_of_singleton. reflexivity.
      * split; [exact Hk|]. exists l1, l2. split; [reflexivity|].
        intros z Hz. apply Hl2. apply elem_of_app. now left.
  - intros [[-> ->]|[Hne (Hk & l1 & l2 & -> & Hl2)]].
    + split; [reflexivity|]. exists l, []. split; [reflexivity|].
      intros y Hy. now apply elem_of_nil in Hy.
    + split; [exact Hk|]. exists l1, (l2 ++ [x]).
      split; [now rewrite <- app_assoc|].
      intros y Hy. apply elem_of_app in Hy as [Hy|Hy]; [now apply Hl2|].
      apply list_elem_of_singleton in Hy as ->. congruence.
Qed.

Lemma map_fold_spec (keyFn : A -> K) (l : list A) :
  let m := foldl (fun m item => map_set m (keyFn item) item) [] l in
  m.*1 = unique (map keyFn l)
  /\ forall k v, (k, v) ∈ m <-> last_with keyFn l k v.
Proof.
  induction l as [|x l IH] using rev_ind; cbn zeta.
  - split; [reflexivity|]. intros k v. cbn. rewrite elem_of_nil. split; [tauto|].
    intros (_ & l1 & l2 & E & _). now destruct l1.
  - cbn zeta in IH. destruct IH as [Hkeys Hin].
    rewrite foldl_app. cbn [foldl]. split.
    + rewrite keys_map_set, Hkeys, map_app. unfold unique.
      now rewrite foldl_app.
    + intros k v. rewrite elem_of_map_set, last_with_snoc, Hin; [reflexivity|].
      rewrite Hkeys.
      apply (foldl_set_add_spec (map keyFn l) [] (NoDup_nil_2)).
Qed.

(** X12.  [L.uniqueBy(array, keyFn)] returns one item per key: the last
    item of the array that has the key, at the place where the key first
    occurred.  The keys of the result are the first occurrences of the
    keys of the array, and an item is in the result exactly when no later
    item of the array has its key. *)
Theorem uniqueBy_last_item_first_place (array : list A) (keyFn : A -> K) :
  map keyFn (uniqueBy array keyFn) = unique (map keyFn array)
  /\ forall v, v ∈ uniqueBy array keyFn
               <-> exists l1 l2, array = l1 ++ v :: l2
                                 /\ forall y, y ∈ l2 -> keyFn y <> keyFn v.
Proof.
  unfold uniqueBy. destruct (map_fold_spec keyFn array) as [Hkeys Hin].
  cbn zeta in Hkeys, Hin.
  set (m := foldl _ [] array) in *. split.
  - rewrite <- Hkeys.
    assert (Hall : forall p, p ∈ m -> keyFn p.2 = p.1).
    { intros [k v] Hp. now apply Hin in Hp as [Hk _]. }
    clear Hkeys Hin. induction m as [|p m IHm]; [reflexivity|].
    cbn. rewrite (Hall p) by apply list_elem_of_here. f_equal.
    apply IHm. intros q Hq. apply Hall. now apply list_elem_of_further.
  - intros v. rewrite list_elem_of_fmap. split.
    + intros ([k v'] & -> & Hp). apply Hin in Hp as (<- & Hlast). exact Hlast.
    + intros Hlast. exists (keyFn v, v). split; [reflexivity|].
      apply Hin. split; [reflexivity | exact Hlast].
Qed.

(** The items of [l] whose key is [k], in the order of [l]. *)
Definition group (keyFn : A -> string) (l : list A) (k : string) : option (list A) :=
  match List.filter (fun x => bool_decide (keyFn x = k)) l with
  | [] => None
  | g => Some g
  end.

Lemma groupBy_snoc (keyFn : A -> string) (l : list A) (x : A) :
  groupBy (l ++ [x]) keyFn = groupBy l keyFn ≫= fun m => groupBy_step keyFn m x.
Proof. unfold groupBy. now rewrite foldl_app. Qed.

Lemma group_snoc_same (keyFn : A -> string) (l : list A) (x : A) :
  group keyFn (l ++ [x]) (keyFn x)
  = Some (default [] (group keyFn l (keyFn x)) ++ [x]).
Proof.
  unfold group. rewrite List.filter_app. cbn [List.filter].
  rewrite bool_decide_true by reflexivity.
  destruct (List.filter _ l) as [|y g]; reflexivity.
Qed.

Lemma group_snoc_other (keyFn : A -> string) (l : list A) (x : A) (k : string) :
  k <> keyFn x -> group keyFn (l ++ [x]) k = group keyFn l k.
Proof.
  intros Hk. unfold group. rewrite List.filter_app. cbn [List.filter].
  rewrite bool_decide_false by congruence. now rewrite app_nil_r.
Qed.

Lemma group_Some_key (keyFn : A -> string) (l : list A) (k : string) (g : list A) :
  group keyFn l k = Some g -> exists y, y ∈ l /\ keyFn y = k.
Proof.
  unfold group. destruct (List.filter _ l) as [|y g'] eqn:E; [discriminate|].
  intros _. assert (Hy : In y (List.filter (fun x => bool_decide (keyFn x = k)) l))
    by (rewrite E; now left).
  apply List.filter_In in Hy as [Hy Hk]. exists y.
  split; [now apply list_elem_of_In|]. now apply bool_decide_eq_true in Hk.
Qed.

Lemma groupBy_spec (keyFn : A -> string) (l : list A) :
  match groupBy l keyFn with
  | Some m => (forall x, x ∈ l -> inherited (keyFn x) = false)
              /\ forall k, m !! k = group keyFn l k
  | None => exists x, x ∈ l /\ inherited (keyFn x) = true
  end.
Proof.
  induction l as [|x l IH] using rev_ind.
  - cbn. split; [intros x Hx; now apply elem_of_nil in Hx|].
    intros k. apply lookup_empty.
  - rewrite groupBy_snoc. destruct (groupBy l keyFn) as [m|]; cbn [mbind option_bind].
    + destruct IH as [Hown Hm]. unfold groupBy_step. rewrite Hm.
      assert (Hlook : forall k,
                 (<[keyFn x := (default [] (group keyFn l (keyFn x)) ++ [x])]> m) !! k
                 = group keyFn (l ++ [x]) k).
      { intros k. destruct (decide (k = keyFn x)) as [->|Hk].
        - now rewrite lookup_insert_eq, group_snoc_same.
        - rewrite lookup_insert_ne by congruence.
          now rewrite Hm, group_snoc_other. }
      destruct (group keyFn l (keyFn x)) as [g|] eqn:Eg.
      * split; [|exact Hlook].
        intros y Hy. apply elem_of_app in Hy as [Hy|Hy]; [now apply Hown|].
        apply list_elem_of_singleton in Hy as ->.
        apply group_Some_key in Eg as (z & Hz & Ez). rewrite <- Ez. now apply Hown.
      * destruct (inherited (keyFn x)) eqn:Ei.
        -- exists x. split; [|exact Ei]. apply elem_of_app. right.
           now apply list_elem_of_singleton.
        -- split; [|exact Hlook].
           intros y Hy. apply elem_of_app in Hy as [Hy|Hy]; [now apply Hown|].
           now apply list_elem_of_singleton in Hy as ->.
    + destruct IH as (y & Hy & Ei). exists y. split; [|exact Ei].
      apply elem_of_app. now left.
Qed.

(** X13.  [L.groupBy(array, keyFn)] returns, under every key that occurs,
    the items with that key in the order of the array, and has no other
    own key, provided none of the keys is the name of a member of
    Object.prototype ('constructor', 'toString', '__proto__', ...); if
    the key of some item is such a name, the call throws a TypeError. *)
Theorem groupBy_groups_or_throws (array : list A) (keyFn : A -> string) :
  ((forall x, x ∈ array -> inherited (keyFn x) = false) ->
   exists m, groupBy array keyFn = Some m
             /\ forall k, m !! k = group keyFn array k)
  /\ (forall x, x ∈ array -> inherited (keyFn x) = true ->
       groupBy array keyFn = None).
Proof.
  pose proof (groupBy_spec keyFn array) as H.
  destruct (groupBy array keyFn) as [m|].
  - destruct H as [Hown Hm]. split.
    + intros _. now exists m.
    + intros x Hx Hi. rewrite (Hown x Hx) in Hi. discriminate Hi.
  - destruct H as (y & Hy & Hi). split.
    + intros Hown. rewrite (Hown y Hy) in Hi. discriminate Hi.
    + reflexivity.
Qed.

End KeyedArrays.

Lemma chunk_partitions_witness :
  LUtil.chunk [1; 2; 3; 4; 5]%nat 2 = [[1; 2]; [3; 4]; [5]]%nat
  /\ LUtil.chunk_size 0 = 1%nat.
Proof.
  destruct (@chunk_partitions nat [1; 2; 3; 4; 5]%nat 0) as (_ & _ & H).
  split; [reflexivity|]. apply H. reflexivity.
Defined.

Lemma groupBy_groups_or_throws_witness :
  (exists m, LUtil.groupBy ["ab"; "cd"; "ae"]%string (fun s => String.substring 0 1 s)
             = Some m
             /\ m !! "a"%string = Some ["ab"; "ae"]%string)
  /\ LUtil.groupBy ["toString"; "x"]%string (fun s => s) = None.
Proof.
  destruct (@groupBy_groups_or_throws string ["ab"; "cd"; "ae"]%string
              (fun s => String.substring 0 1 s)) as (H & _).
  destruct (@groupBy_groups_or_throws string ["toString"; "x"]%string
              (fun s => s)) as (_ & H').
  split.
  - destruct H as (m & Hm & Hk).
    + intros x Hx. repeat (apply elem_of_cons in Hx as [->|Hx]; [reflexivity|]).
      now apply elem_of_nil in Hx.
    + exists m. split; [exact Hm|]. rewrite Hk. reflexivity.
  - apply (H' "toString"%string); [apply list_elem_of_here | reflexivity].
Defined.

(* ===================================================================== *)
(** * Properties of setByPath, getByPath and hasByPath                     *)
(* ===================================================================== *)

Section Paths.

Import LFacade LUtil.
Local Open Scope string_scope.
Local Open Scope nat_scope.

Lemma walk_walk_sym (cur : JsVal) (tokens : list Token) (def : JsVal) :
  walk cur tokens def = default def <$> walk_sym cur tokens.
Proof.
  revert cur. induction tokens as [|t rest IH]; intros cur; cbn [walk walk_sym].
  - now destruct cur.
  - destruct (nullish cur); [reflexivity|].
    destruct (get_prop cur t); [apply IH | reflexivity].
Qed.

Lemma store_lookup (l : list JsVal) (i : nat) (v : JsVal) :
  store l i v !! i = Some v.
Proof.
  unfold store. destruct (Nat.ltb_spec i (length l)) as [Hi|Hi].
  - now apply list_lookup_insert_eq.
  - rewrite lookup_app_r by lia.
    rewrite lookup_app_r by (rewrite length_replicate; lia).
    rewrite length_replicate. now replace (i - length l - (i - length l)) with 0 by lia.
Qed.

Lemma store_lookup_ne (l : list JsVal) (i j : nat) (v : JsVal) :
  i <> j -> default JUndef (store l i v !! j) = default JUndef (l !! j).
Proof.
  intros Hij. unfold store. destruct (Nat.ltb_spec i (length l)) as [Hi|Hi].
  - now rewrite list_lookup_insert_ne.
  - destruct (Nat.lt_ge_cases j (length l)) as [Hj|Hj].
    + now rewrite lookup_app_l.
    + rewrite (lookup_ge_None_2 l j) by lia. rewrite lookup_app_r by lia.
      destruct (Nat.lt_ge_cases (j - length l) (i - length l)) as [Hp|Hp].
      * rewrite lookup_app_l by (rewrite length_replicate; lia).
        now rewrite lookup_replicate_2.
      * rewrite lookup_app_r by (rewrite length_replicate; lia).
        rewrite length_replicate.
        destruct (j - length l - (i - length l)) as [|d] eqn:E; [lia|].
        reflexivity.
Qed.

Lemma store_length (l : list JsVal) (i : nat) (v : JsVal) : i < length (store l i v).
Proof.
  apply lookup_lt_is_Some. rewrite store_lookup. eauto.
Qed.

Lemma key_number_pretty (k : string) (n : N) : key_number k = Some n -> pretty n = k.
Proof.
  unfold key_number.
  destruct (negb (String.eqb k EmptyString) && all_digits k) ; [|discriminate].
  cbn [andb].
  destruct (String.eqb_spec (pretty (digits_to_N 0%N k)) k) as [E|]; [|discriminate].
  intros [= <-]. exact E.
Qed.

Lemma key_number_digits (k : string) (n : N) :
  key_number k = Some n -> all_digits k = true.
Proof.
  unfold key_number. destruct (all_digits k); [reflexivity|].
  now rewrite andb_false_r.
Qed.

Lemma item_store (l : list JsVal) (n : N) (v : JsVal) :
  item (store l (N.to_nat n) v) n = v.
Proof.
  unfold item. pose proof (store_length l (N.to_nat n) v) as Hl.
  destruct (N.ltb_spec n (N.of_nat (length (store l (N.to_nat n) v)))); [|lia].
  now rewrite store_lookup.
Qed.

(** Reading back what was assigned. *)
Lemma get_set_prop (cur : JsVal) (t : Token) (x cur' : JsVal) :
  set_prop cur t x = Some (Returns cur') ->
  get_prop cur' t = Some x /\ isObj cur' = true.
Proof.
  destruct cur as [| | b | z | s | f | l | m]; cbn [set_prop];
    try discriminate; try (destruct (bool_decide _); discriminate).
  - unfold token_index.
    destruct t as [n|k|ds]; cbn [mbind option_bind]; [| |discriminate].
    + destruct (n <? 4294967295)%N; [|discriminate]. intros [= <-].
      split; [|reflexivity]. cbn [get_prop]. now rewrite item_store.
    + destruct (key_number k) as [n|] eqn:E; [|discriminate]. cbn.
      destruct (n <? 4294967295)%N; [|discriminate]. intros [= <-].
      split; [|reflexivity]. cbn [get_prop].
      assert (Hl : String.eqb k "length" = false).
      { apply String.eqb_neq. intros ->. apply key_number_digits in E.
        discriminate E. }
      now rewrite Hl, E, item_store.
  - destruct (token_key t) as [k|] eqn:Ek; [|discriminate].
    destruct (String.eqb _ _ && _); [discriminate|]. intros [= <-].
    split; [|reflexivity].
    destruct t as [n|k'|ds]; cbn [get_prop token_key] in *; [| |discriminate];
      injection Ek as <-; unfold object_get; now rewrite lookup_insert_eq.
Qed.

Lemma set_walk_step (cur : JsVal) (t next : Token) (rest : list Token)
    (val child : JsVal) :
  nullish cur = false -> get_prop cur t = Some child ->
  set_walk cur (t :: next :: rest) val
  = let start := if isObj child then child else fresh_for next in
    match set_prop cur t start with
    | Some (Returns _) =>
        match set_walk start (next :: rest) val with
        | Some (Returns child') => set_prop cur t child'
        | other => other
        end
    | other => other
    end.
Proof. intros Hn Hg. cbn [set_walk]. now rewrite Hn, Hg. Qed.

(** A call on more than one token that returns went through a child. *)
Lemma set_walk_returns (cur : JsVal) (t next : Token) (rest : list Token)
    (val cur' : JsVal) :
  set_walk cur (t :: next :: rest) val = Some (Returns cur') ->
  exists child, nullish cur = false /\ get_prop cur t = Some child.
Proof.
  cbn [set_walk]. destruct (nullish cur); [discriminate|].
  destruct (get_prop cur t) as [child|]; [eauto|].
  destruct cur; cbn [set_prop]; try discriminate;
    destruct (bool_decide _); discriminate.
Qed.

(** What [setByPath] stored is what the same path reads. *)
Lemma walk_sym_set_walk (tokens : list Token) (cur val cur' : JsVal) :
  tokens <> [] ->
  set_walk cur tokens val = Some (Returns cur') ->
  walk_sym cur' tokens = Some (match val with JUndef => None | _ => Some val end).
Proof.
  revert cur cur'. induction tokens as [|t rest IH]; intros cur cur' Hne H;
    [congruence|].
  destruct rest as [|next rest].
  - cbn [set_walk] in H. apply get_set_prop in H as [Hg Ho].
    cbn [walk_sym]. rewrite Hg.
    destruct cur'; try discriminate Ho; reflexivity.
  - destruct (set_walk_returns _ _ _ _ _ _ H) as (child & Hn & Hc).
    rewrite (set_walk_step _ _ _ _ _ child Hn Hc) in H. cbn zeta in H.
    destruct (set_prop cur t _) as [[c0|]|] eqn:E0; try discriminate H.
    destruct (set_walk _ (next :: rest) val) as [[child'|]|] eqn:E1;
      try discriminate H.
    apply IH in E1; [|discriminate].
    apply get_set_prop in H as [Hg Ho].
    cbn [walk_sym]. rewrite Hg.
    destruct cur'; try discriminate Ho; exact E1.
Qed.

(** A token that can be assigned on a new container: not the key
    ['__proto__'], and an index below 2^32 - 1. *)
Definition plain_token (t : Token) : Prop :=
  match t with
  | TIdx n => (n < 4294967295)%N
  | TKey k => k <> "__proto__"
  | TRounded _ => False
  end.

Definition digit_head (s : string) : Prop :=
  match s with
  | EmptyString => True
  | String c _ => is_digit c = true
  end.

Lemma pretty_N_go_digit_head (x : N) (s : string) :
  digit_head s -> digit_head (pretty_N_go x s).
Proof.
  revert s. induction (N.lt_wf_0 x) as [x _ IH]. intros s Hs.
  destruct (N.eq_dec x 0%N) as [->|Hx]; [now rewrite pretty_N_go_0|].
  rewrite pretty_N_go_step by lia. apply IH.
  - apply N.div_lt; lia.
  - cbn. unfold pretty_N_char.
    repeat match goal with
           | |- context [match ?y with _ => _ end] => destruct y
           end; reflexivity.
Qed.

Lemma pretty_N_not_proto (n : N) : String.eqb (pretty n) "__proto__" = false.
Proof.
  apply String.eqb_neq. intros E.
  assert (H : digit_head (pretty n)).
  { unfold pretty, pretty_N. destruct (decide (n = 0%N)); [reflexivity|].
    now apply pretty_N_go_digit_head. }
  rewrite E in H. discriminate H.
Qed.

Lemma plain_token_key (t : Token) :
  plain_token t ->
  exists k, token_key t = Some k /\ String.eqb k "__proto__" = false.
Proof.
  destruct t as [n|k|ds]; cbn; [| |contradiction].
  - intros _. exists (pretty n). split; [reflexivity | apply pretty_N_not_proto].
  - intros Hk. exists k. split; [reflexivity | now apply String.eqb_neq].
Qed.

(** The containers [setByPath] makes, and what a token needs to be
    assigned on one. *)
Definition takes (start : JsVal) (t : Token) : Prop :=
  plain_token t
  /\ (start = JObj ∅ \/ (start = JArr [] /\ exists n, t = TIdx n)).

Lemma takes_fresh (next : Token) : plain_token next -> takes (fresh_for next) next.
Proof.
  intros Hp. split; [exact Hp|]. destruct next; cbn; eauto. contradiction.
Qed.

Lemma set_prop_takes (start : JsVal) (t : Token) (x : JsVal) :
  takes start t -> exists r, set_prop start t x = Some (Returns r).
Proof.
  intros [Hp [->|[-> [n ->]]]]; cbn [set_prop].
  - destruct (plain_token_key t Hp) as (k & -> & Hk). rewrite Hk.
    cbn [andb]. eauto.
  - cbn in Hp. unfold token_index. cbn [mbind option_bind].
    apply N.ltb_lt in Hp. rewrite Hp. eauto.
Qed.

Lemma get_prop_takes (start : JsVal) (t : Token) :
  takes start t ->
  nullish start = false
  /\ exists child, get_prop start t = Some child /\ isObj child = false.
Proof.
  intros [Hp [->|[-> [n ->]]]]; (split; [reflexivity|]).
  - destruct (plain_token_key t Hp) as (k & Hk & Hn).
    assert (H : isObj (object_get ∅ k) = false).
    { unfold object_get. rewrite lookup_empty. unfold prototype_member.
      destruct (negb (inherited k)); [reflexivity|].
      destruct (String.eqb k "constructor"); [reflexivity|].
      now rewrite Hn. }
    destruct t as [n|k'|ds]; cbn [get_prop token_key] in *; [| |discriminate];
      injection Hk as <-; eauto.
  - cbn [get_prop]. eexists. split; [reflexivity|]. unfold item.
    now destruct (n <? N.of_nat (length []))%N.
Qed.

Lemma set_walk_takes (tokens : list Token) (start val : JsVal) :
  Forall plain_token tokens ->
  (forall t, head tokens = Some t -> takes start t) ->
  exists r, set_walk start tokens val = Some (Returns r).
Proof.
  revert start. induction tokens as [|t rest IH]; intros start Hall Hhead;
    [cbn; eauto|].
  apply Forall_cons in Hall as [Hp Hall].
  specialize (Hhead t eq_refl).
  destruct rest as [|next rest]; [now apply set_prop_takes|].
  destruct (get_prop_takes start t Hhead) as (Hn & child & Hc & Ho).
  rewrite (set_walk_step _ _ _ _ _ child Hn Hc). cbn zeta. rewrite Ho.
  destruct (set_prop_takes start t (fresh_for next) Hhead) as [r0 ->].
  destruct (IH (fresh_for next) Hall) as [child' ->].
  - intros t' [= <-]. apply takes_fresh.
    apply Forall_cons in Hall as [Hnx _]. exact Hnx.
  - now apply set_prop_takes.
Qed.

(** X14.  [getByPath] and [hasByPath] read what [setByPath] stored: when
    [setByPath(obj, path, val)] returns, for a path with at least one
    token and a value other than undefined, [getByPath] with the same
    path returns [val] (never the default) and [hasByPath] is true.  On
    an empty object the call returns for every path whose keys are not
    '__proto__' and whose indices are below 2^32 - 1, making the objects
    and arrays on the way. *)
Theorem setByPath_then_getByPath (obj : JsVal) (path : string) (val def : JsVal) :
  pathToTokens path <> [] -> val <> JUndef ->
  (forall obj', setByPath obj path val = Some (Returns obj') ->
                getByPath obj' path def = Some val
                /\ hasByPath obj' path = Some true)
  /\ (Forall plain_token (pathToTokens path) ->
      exists obj', setByPath (JObj ∅) path val = Some (Returns obj')).
Proof.
  intros Hne Hval. unfold setByPath, getByPath, hasByPath.
  destruct (pathToTokens path) as [|t rest] eqn:Et; [congruence|].
  split.
  - intros obj' H. apply walk_sym_set_walk in H; [|discriminate].
    rewrite walk_walk_sym, H.
    destruct val; try congruence; split; reflexivity.
  - intros Hall. apply set_walk_takes; [exact Hall|].
    intros t' [= <-]. split; [|now left].
    apply Forall_cons in Hall as [Hp _]. exact Hp.
Qed.

Lemma setByPath_then_getByPath_witness :
  exists obj', setByPath (JObj ∅) "user.tags[1]" (JStr "x") = Some (Returns obj')
               /\ getByPath obj' "user.tags[1]" JNull = Some (JStr "x")
               /\ hasByPath obj' "user.tags[1]" = Some true.
Proof.
  destruct (setByPath_then_getByPath (JObj ∅) "user.tags[1]" (JStr "x") JNull)
    as [Hget Hset]; [vm_compute; discriminate | discriminate |].
  destruct Hset as [obj' Hobj].
  - assert (E : pathToTokens "user.tags[1]" = [TKey "user"; TKey "tags"; TIdx 1])
      by (vm_compute; reflexivity).
    rewrite E. repeat (apply Forall_cons; split); cbn [plain_token];
      [discriminate | discriminate | reflexivity | apply Forall_nil_2].
  - exists obj'. split; [exact Hobj|]. now apply Hget.
Defined.



(** X16.  A target that is no object makes [setByPath] throw: for null,
    undefined, a boolean, a number or a string, and a path whose first
    key is not '__proto__', the call ends in a TypeError (the code runs
    in strict mode); with a path without tokens the target is returned
    untouched, whatever it is. *)
Theorem setByPath_primitive_target (obj : JsVal) (path : string) (val : JsVal) :
  (pathToTokens path = [] -> setByPath obj path val = Some (Returns obj))
  /\ (forall t rest,
        pathToTokens path = t :: rest ->
        token_key t <> Some "__proto__" ->
        isObj obj = false -> (forall f, obj <> JFn f) ->
        setByPath obj path val = Some TypeError).
Proof.
  unfold setByPath. split; [now intros ->|].
  intros t rest -> Hk Ho Hf.
  assert (H1 : forall x, set_prop obj t x = Some TypeError).
  { intros x. destruct obj; cbn [set_prop]; try discriminate Ho;
      try reflexivity; try (now rewrite bool_decide_eq_false_2).
    now destruct (Hf name). }
  destruct rest as [|next rest]; [apply H1|].
  cbn [set_walk]. destruct (nullish obj) eqn:En; [reflexivity|].
  destruct (get_prop obj t) as [child|].
  - cbn zeta. now rewrite H1.
  - destruct obj as [| | b | z | s | f | l | m]; try discriminate Ho;
      try discriminate En; try apply H1. now destruct (Hf f).
Qed.

Lemma setByPath_primitive_target_witness :
  setByPath JNull "a.b" (JNum 1) = Some TypeError.
Proof.
  destruct (setByPath_primitive_target JNull "a.b" (JNum 1)) as [_ H].
  apply (H (TKey "a") [TKey "b"]);
    [reflexivity | discriminate | reflexivity | discriminate].
Defined.

End Paths.

(* ===================================================================== *)
(** * Properties of the error registry                                     *)
(* ===================================================================== *)

Section ErrorRegistry.

Import LFacade LUtil.
Local Open Scope string_scope.

(** The template registered for [ns.k]. *)
Definition registered (st : LState) (ns k : string) : option string :=
  _errorsByNs st !! ns ≫= (.!! k).

(** [store[k]] is truthy. *)
Definition taken (store : gmap string string) (k : string) : bool :=
  negb (String.eqb (default EmptyString (store !! k)) EmptyString).

Lemma register_loop_keeps (ns : string) (entries : list (string * JsVal))
    (store : gmap string string) (k tpl : string) :
  store !! k = Some tpl -> tpl <> EmptyString ->
  (register_loop ns false entries store).2 !! k = Some tpl.
Proof.
  revert store. induction entries as [|[k' v] rest IH]; intros store Hk Ht;
    cbn [register_loop]; [exact Hk|].
  cbn [negb andb]. destruct (String.eqb_spec (default EmptyString (store !! k')) EmptyString)
    as [E|E]; cbn [negb]; [|exact Hk].
  apply IH; [|exact Ht]. rewrite lookup_insert_ne; [exact Hk|].
  intros ->. rewrite Hk in E. cbn in E. congruence.
Qed.

Lemma register_loop_clash (ns : string) (override : bool)
    (pre post : list (string * JsVal)) (k : string) (v : JsVal)
    (store : gmap string string) :
  override = false ->
  (forall k' v', (k', v') ∈ pre -> taken store k' = false /\ k' <> k) ->
  NoDup (pre.*1) ->
  taken store k = true ->
  register_loop ns override (pre ++ (k, v) :: post) store
  = (Raised ("registerErrors: code " +:+ ns +:+ "." +:+ k +:+ " already exists"),
     foldl (fun s p => <[p.1 := to_String p.2]> s) store pre).
Proof.
  intros -> Hpre Hnd Hk. revert store Hpre Hk.
  induction pre as [|[k' v'] pre IH]; intros store Hpre Hk.
  - cbn [app register_loop foldl negb andb]. unfold taken in Hk. now rewrite Hk.
  - cbn [app register_loop foldl negb andb fst snd].
    destruct (Hpre k' v' (list_elem_of_here _ _)) as [Hfree Hne].
    unfold taken in Hfree. rewrite Hfree.
    cbn in Hnd. apply NoDup_cons in Hnd as [Hk' Hnd].
    apply (IH Hnd).
    + intros k2 v2 H2. destruct (Hpre k2 v2 (list_elem_of_further _ _ _ H2)) as [F N].
      split; [|exact N]. unfold taken in *.
      rewrite lookup_insert_ne; [exact F|].
      intros ->. apply Hk'. apply list_elem_of_fmap. now exists (k2, v2).
    + unfold taken in *. rewrite lookup_insert_ne by congruence. exact Hk.
Qed.

(** X17.  Without [override], [registerErrors] never replaces a template:
    whatever the call does, every code that had a non-empty template
    before has the same template afterwards.  When the map holds a code
    that is taken, the call throws 'registerErrors: code <ns>.<code>
    already exists' at the first such code, and the codes before it in
    the order of Object.keys stay registered: the registration is not
    undone. *)
Theorem registerErrors_keeps_registered (namespace : JsVal)
    (entries : list (string * JsVal)) (st : LState) :
  let st' := (registerErrors namespace (Some entries) false st).2 in
  (forall ns k tpl, registered st ns k = Some tpl -> tpl <> EmptyString ->
                    registered st' ns k = Some tpl)
  /\ (forall s pre post k v,
        namespace = JStr s -> s <> EmptyString ->
        entries = (pre ++ (k, v) :: post)%list ->
        NoDup (pre.*1) ->
        (forall k' v', (k', v') ∈ pre ->
                       taken (default ∅ (_errorsByNs st !! trim s)) k' = false
                       /\ k' <> k) ->
        taken (default ∅ (_errorsByNs st !! trim s)) k = true ->
        (registerErrors namespace (Some entries) false st).1
        = Raised ("registerErrors: code " +:+ trim s +:+ "." +:+ k
                  +:+ " already exists")
        /\ forall k' v', (k', v') ∈ pre ->
                         registered st' (trim s) k' = Some (to_String v')).
Proof.
  intros st'. split.
  - intros ns k tpl Hreg Ht. unfold st', registerErrors.
    destruct namespace as [| | | | [|c s] | | |]; try exact Hreg.
    destruct (register_loop _ _ _ _) as [r store'] eqn:El. cbn [snd].
    unfold registered in *. cbn [_errorsByNs].
    destruct (decide (ns = trim (String c s))) as [->|Hns];
      [|now rewrite lookup_insert_ne].
    rewrite lookup_insert_eq. cbn [mbind option_bind].
    destruct (_errorsByNs st !! trim (String c s)) as [store|] eqn:Es;
      [|discriminate Hreg].
    cbn [mbind option_bind] in Hreg.
    change (default ∅ (Some store)) with store in El.
    pose proof (register_loop_keeps (trim (String c s)) entries store k tpl Hreg Ht) as H.
    now rewrite El in H.
  - intros s pre post k v -> Hs -> Hnd Hpre Hk.
    destruct s as [|c s]; [congruence|].
    unfold st', registerErrors.
    rewrite (register_loop_clash _ false pre post k v _ eq_refl Hpre Hnd Hk).
    cbn [fst snd]. split; [reflexivity|].
    intros k' v' Hin. unfold registered. cbn [_errorsByNs].
    rewrite lookup_insert_eq. cbn [mbind option_bind].
    clear Hk Hpre. generalize (default ∅ (_errorsByNs st !! trim (String c s))).
    induction pre as [|[k2 v2] pre IH] using rev_ind; intros store;
      [now apply elem_of_nil in Hin|].
    rewrite foldl_app. cbn [foldl fst snd].
    rewrite fmap_app in Hnd. apply NoDup_app in Hnd as (Hnd & Hdis & _).
    apply elem_of_app in Hin as [Hin|Hin].
    + rewrite lookup_insert_ne; [now apply IH|].
      intros ->. apply (Hdis k').
      * apply list_elem_of_fmap. now exists (k', v').
      * cbn. apply list_elem_of_here.
    + apply list_elem_of_singleton in Hin. injection Hin as -> ->.
      apply lookup_insert_eq.
Qed.

(** The map LightBase registers when it is loaded, in the order of its
    keys. *)
Definition LightBase_map : list (string * JsVal) :=
  [ ("CONFLICT_OWNER",
       JStr ("Element #{{id}} is already owned by " +:+ dq +:+ "{{owner}}" +:+ dq));
    ("INVALID_CONSTRUCTOR_ID",
       JStr ("Constructor requires a non-empty string id without "
             +:+ dq +:+ "#" +:+ dq));
    ("ALREADY_DESTRUCTED",
       JStr ("Instance " +:+ dq +:+ "{{cls}}" +:+ dq
             +:+ " for #{{id}} already destructed"));
    ("DESTRUCT_IN_PROGRESS",
       JStr ("Destruction already in progress for " +:+ dq +:+ "{{cls}}" +:+ dq
             +:+ " #{{id}}")) ].

Lemma registerErrors_keeps_registered_witness :
  (registerErrors (JStr "LightBase") (Some LightBase_map) false loaded).1
  = Raised "registerErrors: code LightBase.CONFLICT_OWNER already exists".
Proof.
  destruct (registerErrors_keeps_registered (JStr "LightBase") LightBase_map loaded)
    as [_ H].
  refine (proj1 (H "LightBase" [] (tl LightBase_map) "CONFLICT_OWNER"
                   (snd (hd (EmptyString, JNull) LightBase_map)) eq_refl _ eq_refl _ _ _)).
  - discriminate.
  - apply NoDup_nil_2.
  - intros k' v' Hin. now apply elem_of_nil in Hin.
  - vm_compute. reflexivity.
Defined.

Lemma register_loop_fine (ns : string) (override : bool)
    (entries : list (string * JsVal)) (store store' : gmap string string) :
  register_loop ns override entries store = (Fine tt, store') ->
  store' = foldl (fun s p => <[p.1 := to_String p.2]> s) store entries.
Proof.
  revert store. induction entries as [|[k v] rest IH]; intros store;
    cbn [register_loop foldl fst snd].
  - now intros [= <-].
  - destruct (negb override && _); [discriminate|]. apply IH.
Qed.

Lemma foldl_insert_lookup (entries : list (string * JsVal))
    (store : gmap string string) (k : string) (v : JsVal) :
  NoDup (entries.*1) -> (k, v) ∈ entries ->
  foldl (fun s p => <[p.1 := to_String p.2]> s) store entries !! k
  = Some (to_String v).
Proof.
  intros Hnd Hin. revert store.
  induction entries as [|[k2 v2] pre IH] using rev_ind; intros store;
    [now apply elem_of_nil in Hin|].
  rewrite foldl_app. cbn [foldl fst snd].
  rewrite fmap_app in Hnd. apply NoDup_app in Hnd as (Hnd & Hdis & _).
  apply elem_of_app in Hin as [Hin|Hin].
  - rewrite lookup_insert_ne; [now apply IH|].
    intros ->. apply (Hdis k).
    + apply list_elem_of_fmap. now exists (k, v).
    + cbn. apply list_elem_of_here.
  - apply list_elem_of_singleton in Hin. injection Hin as -> ->.
    apply lookup_insert_eq.
Qed.

Lemma span_not_dot (ns rest : string) :
  includes_char "." ns = false ->
  span (fun c => negb (is_dot c)) (ns +:+ String "." rest) = (ns, String "." rest).
Proof.
  induction ns as [|c ns IH]; intros H.
  - rewrite app_nil_l. reflexivity.
  - cbn [includes_char] in H. apply orb_false_iff in H as [Hc Hns].
    rewrite app_cons. cbn [span]. unfold is_dot at 1.
    rewrite Ascii.eqb_sym, Hc. cbn [negb]. now rewrite (IH Hns).
Qed.

Lemma includes_dot (ns rest : string) :
  includes_char "." (ns +:+ String "." rest) = true.
Proof.
  induction ns as [|c ns IH]; [rewrite app_nil_l; reflexivity|].
  rewrite app_cons. cbn [includes_char]. rewrite IH. apply orb_true_r.
Qed.

(** X18.  A template registered under a namespace is the one [L.assert]
    uses for the code [<namespace>.<code>]: after a call of
    [registerErrors] that returns, for a namespace that (trimmed)
    contains no '.', and a code of the map whose template is not empty,
    [L.assert(false, '<ns>.<code>', data)] throws an error with that
    code whose message is the registered template interpolated with the
    data, whatever [L.errors] holds. *)
Theorem registerErrors_then_assert (s : string) (entries : list (string * JsVal))
    (override : bool) (st : LState) (r : option (gmap string string))
    (k : string) (v : JsVal) (data : JsVal) :
  s <> EmptyString ->
  includes_char "." (trim s) = false ->
  NoDup (entries.*1) -> (k, v) ∈ entries ->
  to_String v <> EmptyString ->
  (registerErrors (JStr s) (Some entries) override st).1 = Fine r ->
  let st' := (registerErrors (JStr s) (Some entries) override st).2 in
  let code := trim s +:+ "." +:+ k in
  resolve_template st' code = JStr (to_String v)
  /\ exists e, assert st' false code data = Throw e
               /\ err_code e = code
               /\ err_message e = interpolate (to_String v) (assert_data code data).
Proof.
  intros Hs Hdot Hnd Hin Hv Hfine st' code.
  assert (Hres : resolve_template st' code = JStr (to_String v)).
  { unfold st', registerErrors in *. destruct s as [|c s]; [congruence|].
    destruct (register_loop _ _ _ _) as [[[]|m] store'] eqn:El;
      [|discriminate Hfine].
    apply register_loop_fine in El. cbn [snd].
    unfold resolve_template, code, split_code.
    rewrite app_cons, app_nil_l, includes_dot, (span_not_dot _ _ Hdot).
    cbn [_errorsByNs]. rewrite lookup_insert_eq. cbn [mbind option_bind].
    rewrite El, (foldl_insert_lookup entries _ k v Hnd Hin).
    cbn [default]. unfold id.
    destruct (String.eqb_spec (to_String v) EmptyString); [congruence|].
    reflexivity. }
  split; [exact Hres|].
  unfold assert, assert_error. eexists. split; [reflexivity|].
  rewrite Hres. cbn [err_code err_message]. split; [|reflexivity].
  unfold code. destruct (trim s); rewrite ?app_nil_l, ?app_cons; reflexivity.
Qed.

Lemma registerErrors_then_assert_witness :
  let st' := (registerErrors (JStr " Cart ") (Some [("EMPTY", JStr "Cart {{id}} is empty")])
                false loaded).2 in
  exists e, assert st' false "Cart.EMPTY" (JObj {[ "id" := JNum 7 ]}) = Throw e
            /\ err_message e = Some "Cart 7 is empty".
Proof.
  intros st'.
  destruct (registerErrors_then_assert " Cart " [("EMPTY", JStr "Cart {{id}} is empty")]
              false loaded
              (Some {[ "EMPTY" := "Cart {{id}} is empty" ]})
              "EMPTY" (JStr "Cart {{id}} is empty") (JObj {[ "id" := JNum 7 ]}))
    as (_ & e & He & _ & Hm).
  - discriminate.
  - reflexivity.
  - apply NoDup_singleton.
  - apply list_elem_of_here.
  - discriminate.
  - vm_compute. reflexivity.
  - exists e. split; [exact He|]. rewrite Hm. vm_compute. reflexivity.
Defined.

End ErrorRegistry.

(* ===================================================================== *)
(** * Properties of the logger configuration                               *)
(* ===================================================================== *)

Section Logging.

Import LFacade Log.
Local Open Scope string_scope.

(** X19.  The log levels are nested: whenever 'info' is enabled so is
    'warning', and whenever 'warning' is enabled so is 'danger'; at level
    'off', and at a level that is no number, none of the three is
    enabled.  A name that is no level is never enabled when the level is
    a number. *)
Theorem log_levels_nested (st : State) :
  (enabled st "info" = true -> enabled st "warning" = true)
  /\ (enabled st "warning" = true -> enabled st "danger" = true)
  /\ (level st = LNumber 0 \/ (exists m, level st = LMember m) ->
      enabled st "info" = false /\ enabled st "warning" = false
      /\ enabled st "danger" = false)
  /\ (forall lvl n, level st = LNumber n ->
                   lvl <> "off" -> lvl <> "danger" -> lvl <> "warning" ->
                   lvl <> "info" ->
                   enabled st lvl = false).
Proof.
  unfold enabled. cbn [LEVELS String.eqb Ascii.eqb Bool.eqb].
  change (LEVELS "info") with (Some (LNumber 3)).
  change (LEVELS "warning") with (Some (LNumber 2)).
  change (LEVELS "danger") with (Some (LNumber 1)).
  destruct (level st) as [n|m] eqn:El; cbn [level_le not_off].
  - split; [|split; [|split]].
    + rewrite !andb_true_iff, !Nat.leb_le. intros [H ?]. split; [lia|assumption].
    + rewrite !andb_true_iff, !Nat.leb_le. intros [H ?]. split; [lia|assumption].
    + intros [[= ->]|[m Hm]]; [|discriminate Hm]. auto.
    + intros lvl n' [= <-] H0 H1 H2 H3. unfold LEVELS.
      apply String.eqb_neq in H0, H1, H2, H3. rewrite H0, H1, H2, H3.
      destruct (inherited lvl); reflexivity.
  - split; [discriminate|]. split; [discriminate|]. split; [auto|].
    intros lvl n Hn. discriminate Hn.
Qed.

Lemma log_levels_nested_witness :
  enabled (init (Some "WARNING")) "danger" = true.
Proof.
  destruct (log_levels_nested (init (Some "WARNING"))) as (_ & H & _).
  apply H. reflexivity.
Defined.

(** The names of the four levels. *)
Definition level_word (l : string) : Prop :=
  l = "off" \/ l = "danger" \/ l = "warning" \/ l = "info".

(** X20.  [L.log.configure({ level })] takes the name of a level in any
    letter case, and [L.log.level()] then reports it; a name that is
    neither a level nor a member of Object.prototype leaves the state as
    it was.  A name that lower-cased is a member of Object.prototype
    ('constructor', '__proto__') is taken for a level: it silences the
    three loggers and [level()] reports 'off'. *)
Theorem configure_level (name : string) (st : State) :
  name <> EmptyString ->
  let opts := {| o_level := JStr name; o_prefix := JUndef |} in
  (level_word (toLowerCase name) ->
   level_name (configure opts st) = toLowerCase name
   /\ prefix (configure opts st) = prefix st)
  /\ (LEVELS (toLowerCase name) = None -> configure opts st = st)
  /\ (inherited (toLowerCase name) = true ->
      enabled (configure opts st) "info" = false
      /\ enabled (configure opts st) "warning" = false
      /\ enabled (configure opts st) "danger" = false
      /\ level_name (configure opts st) = "off").
Proof.
  intros Hne opts. unfold configure, opts. cbn [o_level o_prefix truthy to_String].
  destruct (String.eqb_spec name EmptyString) as [|_]; [congruence|]. cbn [negb].
  split; [|split].
  - intros [E|[E|[E|E]]]; rewrite E; split; reflexivity.
  - intros ->. reflexivity.
  - intros Hi.
    assert (Hm : LEVELS (toLowerCase name) = Some (LMember (toLowerCase name))).
    { unfold LEVELS. rewrite Hi.
      destruct (String.eqb_spec (toLowerCase name) "off") as [E|_];
        [rewrite E in Hi; discriminate Hi|].
      destruct (String.eqb_spec (toLowerCase name) "danger") as [E|_];
        [rewrite E in Hi; discriminate Hi|].
      destruct (String.eqb_spec (toLowerCase name) "warning") as [E|_];
        [rewrite E in Hi; discriminate Hi|].
      destruct (String.eqb_spec (toLowerCase name) "info") as [E|_];
        [rewrite E in Hi; discriminate Hi|].
      reflexivity. }
    rewrite Hm. repeat split.
Qed.

Lemma configure_level_witness :
  level_name (configure {| o_level := JStr "Danger"; o_prefix := JUndef |}
                        (init None)) = "danger"
  /\ enabled (configure {| o_level := JStr "Constructor"; o_prefix := JUndef |}
                        (init None)) "danger" = false.
Proof.
  destruct (configure_level "Danger" (init None)) as (H & _); [discriminate|].
  destruct (configure_level "Constructor" (init None)) as (_ & _ & H');
    [discriminate|].
  split.
  - apply H. right. left. reflexivity.
  - apply H'. reflexivity.
Defined.

End Logging.

(* ===================================================================== *)
(** * Properties of L.throttle                                             *)
(* ===================================================================== *)

Section Throttling.

Import Throttle.
Local Open Scope Z_scope.

Variables (wait : Z) (o : Opts).

(** Calls of [fn] that follow each other are at least [wait] apart. *)
Fixpoint spaced (times : list Z) : Prop :=
  match times with
  | [] => True
  | t1 :: rest =>
      match rest with
      | [] => True
      | t2 :: _ => t1 + wait <= t2
      end /\ spaced rest
  end.

Lemma spaced_snoc (times : list Z) (t : Z) :
  spaced times ->
  (forall l x, times = (l ++ [x])%list -> x + wait <= t) ->
  spaced (times ++ [t]).
Proof.
  induction times as [|t1 rest IH]; intros Hs Hl; [cbn; auto|].
  destruct Hs as [H1 Hs]. cbn [app spaced]. split.
  - destruct rest as [|t2 rest]; [|exact H1].
    cbn. apply (Hl [] t1). reflexivity.
  - apply IH; [exact Hs|]. intros l x ->. apply (Hl (t1 :: l) x). reflexivity.
Qed.

Definition times (st : State) : list Z := (invoked st).*1.

(** What holds between two steps: [last] is the time of the latest call
    of [fn], if there was one; it does not lie in the future; a pending
    timeout does not run before [last + wait]; and the calls so far are
    spaced. *)
Record inv (clock : Z) (st : State) : Prop := {
  inv_last : forall l x, times st = (l ++ [x])%list -> x = last st /\ 0 < x;
  inv_clock : 0 <= last st <= clock;
  inv_timer : forall due, timer st = Some due -> last st + wait <= due;
  inv_set : forall due, timer st = Some due -> leading o = false -> last st <> 0;
  inv_spaced : spaced (times st)
}.

Lemma inv_init : inv 0 init.
Proof.
  split; cbn; try discriminate; try lia; try exact I.
  intros l x E. now destruct l.
Qed.

Lemma inv_invoke (clock now : Z) (throws : bool) (st : State) :
  inv clock st -> timer st = None -> 0 < now ->
  (last st <> 0 -> last st + wait <= now) ->
  inv now (invoke now throws st).
Proof.
  intros [Il Ic It Is Isp] Ht Hpos Hspace.
  split; unfold times in *; cbn [invoke last timer invoked].
  - intros l x E. rewrite fmap_app in E. cbn in E.
    apply app_inj_tail in E as [_ <-]. auto.
  - lia.
  - intros due. rewrite Ht. discriminate.
  - intros due. rewrite Ht. discriminate.
  - rewrite fmap_app. cbn. apply spaced_snoc; [exact Isp|].
    intros l x E. destruct (Il l x E) as [-> Hx]. apply Hspace. lia.
Qed.

Lemma inv_call (clock ts now : Z) (args : nat) (throws : bool) (st : State) :
  inv clock st -> 0 < ts -> clock <= ts -> ts <= now ->
  inv now (call wait o ts now args throws st).
Proof.
  intros Hinv Hts Hclock Hnow. pose proof Hinv as [Il Ic It Is Isp].
  unfold call.
  set (last1 := if (last st =? 0) && negb (leading o) then ts else last st).
  assert (H1 : (last st <> 0 -> last1 = last st)
               /\ (last1 = last st \/ (last1 = ts /\ last st = 0 /\ leading o = false))
               /\ (leading o = false -> last1 <> 0)).
  { unfold last1. destruct (Z.eqb_spec (last st) 0) as [E|E]; cbn [andb].
    - destruct (leading o); cbn [negb]; repeat split; auto; try congruence; lia.
    - repeat split; auto. }
  destruct H1 as (Hsame & Hcases & Hnz). clearbody last1.
  cbn [last timer pendingArgs invoked].
  destruct ((wait - (ts - last1) <=? 0) || (wait <? wait - (ts - last1))) eqn:Eb.
  - apply (inv_invoke ts); [| reflexivity | lia |].
    + split; unfold times in *; cbn [last timer invoked].
      * intros l x E. destruct (Il l x E) as [-> Hx]. split; [|exact Hx].
        symmetry. apply Hsame. lia.
      * destruct Hcases as [->|[-> _]]; lia.
      * discriminate.
      * discriminate.
      * exact Isp.
    + cbn [last]. intros _.
      apply orb_true_iff in Eb as [Eb|Eb]; [apply Z.leb_le in Eb; lia|].
      apply Z.ltb_lt in Eb. destruct Hcases as [E|[E _]]; lia.
  - apply orb_false_iff in Eb as [Eb1 Eb2].
    apply Z.leb_gt in Eb1. apply Z.ltb_ge in Eb2.
    destruct (negb (bool_decide (is_Some (timer st))) && trailing o) eqn:Et.
    + split; unfold times in *; cbn [last timer invoked].
      * intros l x E. destruct (Il l x E) as [-> Hx]. split; [|exact Hx].
        symmetry. apply Hsame. lia.
      * destruct Hcases as [->|[-> _]]; lia.
      * intros due [= <-]. lia.
      * intros due _ Hl. now apply Hnz.
      * exact Isp.
    + split; unfold times in *; cbn [last timer invoked].
      * intros l x E. destruct (Il l x E) as [-> Hx]. split; [|exact Hx].
        symmetry. apply Hsame. lia.
      * destruct Hcases as [->|[-> _]]; lia.
      * intros due Hd. destruct Hcases as [->|[_ [E0 El]]]; [now apply It|].
        now destruct (Is due Hd El).
      * intros due Hd Hl. destruct Hcases as [->|[_ [E0 El]]]; [now apply (Is due)|].
        now destruct (Is due Hd El).
      * exact Isp.
Qed.

Lemma inv_fire (clock at_ now due : Z) (throws : bool) (st : State) :
  inv clock st -> timer st = Some due -> due <= at_ -> 0 < at_ ->
  clock <= at_ -> at_ <= now ->
  inv now (fire o now throws st).
Proof.
  intros [Il Ic It Is Isp] Hd Hdue Hpos Hclock Hnow. unfold fire.
  cbn [last timer pendingArgs invoked].
  assert (Hq : inv clock {| last := last st; timer := None;
                            pendingArgs := pendingArgs st;
                            invoked := invoked st |}).
  { split; unfold times in *; cbn [last timer invoked]; auto; discriminate. }
  destruct (trailing o && bool_decide (is_Some (pendingArgs st))).
  - apply (inv_invoke clock); [exact Hq | reflexivity | lia |].
    cbn [last]. intros _. specialize (It due Hd). lia.
  - destruct Hq as [Il' Ic' It' Is' Isp']. split; auto.
    cbn [last] in *. lia.
Qed.

Lemma run_spaced (inputs : list Input) (clock : Z) (st : State) :
  inv clock st -> admissible wait o clock st inputs ->
  spaced (times (run wait o inputs st)).
Proof.
  revert clock st. induction inputs as [|i rest IH]; intros clock st Hinv Hadm.
  - apply (inv_spaced _ _ Hinv).
  - cbn [admissible] in Hadm. destruct Hadm as [Hi Hrest].
    unfold run. cbn [foldl]. eapply IH; [|exact Hrest].
    destruct i as [ts now args throws | at_ now throws]; cbn [step].
    + destruct Hi as (H1 & H2 & H3). now apply (inv_call clock).
    + destruct Hi as ((due & Hd & Hdue) & H1 & H2 & H3).
      now apply (inv_fire clock at_ now due).
Qed.

(** X21.  A function throttled with [L.throttle(fn, wait, opts)] is never
    called twice within [wait] milliseconds: on a host whose clock does
    not go back and whose timeouts do not run early, whatever the
    options are, however often the throttled function is called (from
    outside [fn]) and whether or not [fn] throws, any two calls of [fn]
    that follow each other are at least [wait] apart. *)
Theorem throttle_spaces_calls (inputs : list Input) :
  admissible wait o 0 init inputs ->
  spaced (times (run wait o inputs init)).
Proof. apply run_spaced. apply inv_init. Qed.

End Throttling.

Lemma throttle_spaces_calls_witness :
  let o := {| Throttle.leading := true; Throttle.trailing := true |} in
  let inputs := [ Throttle.Call 1000 1000 1 false; Throttle.Call 1030 1030 2 false;
                  Throttle.Fire 1100 1101 false; Throttle.Call 1150 1150 3 false ] in
  times (Throttle.run 100 o inputs Throttle.init) = [1000; 1101]%Z
  /\ spaced 100 (times (Throttle.run 100 o inputs Throttle.init)).
Proof.
  intros o inputs. split; [reflexivity|].
  apply (throttle_spaces_calls 100 o inputs).
  cbn. repeat split; try lia. exists 1100%Z. split; [reflexivity | lia].
Defined.

(* ===================================================================== *)
(** * Properties of L.debounce                                             *)
(* ===================================================================== *)

Section Debouncing.

Import Debounce.
Local Open Scope Z_scope.

Variables (wait : Z) (o : Opts).

(** Every call of [fn] answers the event just before it: a call of the
    debounced function with the same arguments, made at least [wait]
    earlier. *)
Definition answered (tr : list Event) : Prop :=
  forall pre time args post,
    tr = (pre ++ Invoked time args :: post)%list ->
    exists pre' ts, pre = (pre' ++ [Called ts args])%list /\ ts + wait <= time.

Lemma answered_snoc_quiet (tr : list Event) (e : Event) :
  answered tr -> (forall time args, e <> Invoked time args) ->
  answered (tr ++ [e]).
Proof.
  intros H He pre time args post E.
  destruct post as [|x post _] using rev_ind.
  - apply app_inj_tail in E. destruct E as [_ E]. now destruct (He time args).
  - change (pre ++ Invoked time args :: post ++ [x])%list
      with (pre ++ (Invoked time args :: post) ++ [x])%list in E.
    rewrite app_assoc in E. apply app_inj_tail in E. destruct E as [E _].
    now apply (H pre time args post).
Qed.

Lemma answered_snoc_invoked (pre' : list Event) (ts time : Z) (args : nat) :
  answered (pre' ++ [Called ts args]) -> ts + wait <= time ->
  answered ((pre' ++ [Called ts args]) ++ [Invoked time args]).
Proof.
  intros H Hle pre time' args' post E.
  destruct post as [|x post _] using rev_ind.
  - apply app_inj_tail in E. destruct E as [<- [= <- <-]]. eauto.
  - change (pre ++ Invoked time' args' :: post ++ [x])%list
      with (pre ++ (Invoked time' args' :: post) ++ [x])%list in E.
    rewrite app_assoc in E. apply app_inj_tail in E. destruct E as [E _].
    now apply (H pre time' args' post).
Qed.

(** What holds between two steps when [leading] is off: a pending timeout
    belongs to the call that is the latest event, and the calls of [fn]
    so far are answers. *)
Record waiting (st : State) : Prop := {
  waiting_timer : forall due args,
      t st = Some (due, args) ->
      exists pre ts, trace st = (pre ++ [Called ts args])%list
                     /\ ts + wait <= due;
  waiting_trace : answered (trace st)
}.

Lemma waiting_init : waiting init.
Proof.
  split; [discriminate|]. intros pre time args post E.
  now destruct pre.
Qed.

Lemma waiting_step (i : Input) (st : State) :
  leading o = false -> waiting st ->
  match i, t st with
  | Fire now1 now2, Some (due, _) => due <= now1 /\ now1 <= now2
  | _, _ => True
  end ->
  waiting (step wait o i st).
Proof.
  intros Hl I Hi. pose proof I as [Ht Ha].
  destruct i as [ts now args|now1 now2|]; cbn [step].
  - unfold call. rewrite Hl, andb_false_r. split; cbn [t trace].
    + intros due args' [= <- <-]. exists (trace st), ts. split; [reflexivity|lia].
    + apply answered_snoc_quiet; [exact Ha|discriminate].
  - destruct (t st) as [[due args]|] eqn:E; [|exact I].
    unfold fire. rewrite Hl. cbn [negb orb]. rewrite andb_true_r.
    destruct (Ht due args eq_refl) as (pre & ts & Etr & Hdue).
    destruct (trailing o); split; cbn [t trace invoke]; try discriminate.
    + rewrite Etr. apply answered_snoc_invoked; [now rewrite <- Etr|lia].
    + exact Ha.
  - split; cbn [t trace cancel]; [discriminate|].
    apply answered_snoc_quiet; [exact Ha|discriminate].
Qed.

Lemma waiting_run (inputs : list Input) (st : State) :
  leading o = false -> waiting st -> admissible wait o st inputs ->
  waiting (run wait o inputs st).
Proof.
  intros Hl. revert st. induction inputs as [|i inputs IH]; intros st I A; [exact I|].
  cbn [admissible] in A. destruct A as [Ai A]. cbn [run foldl].
  apply IH; [|exact A]. apply waiting_step; [exact Hl|exact I|].
  destruct i; exact Ai.
Qed.

Lemma quiet_step (i : Input) (st : State) :
  leading o = false -> trailing o = false ->
  (forall time args, Invoked time args ∉ trace st) ->
  forall time args, Invoked time args ∉ trace (step wait o i st).
Proof.
  intros Hl Htr H time args. destruct i as [ts now a|now1 now2|]; cbn [step].
  - unfold call. rewrite Hl, andb_false_r. cbn [trace].
    rewrite elem_of_app, list_elem_of_singleton. intros [Hin|[=]]. now apply (H time args).
  - destruct (t st) as [[due a]|]; [|apply H].
    unfold fire. rewrite Htr. cbn [andb trace]. apply H.
  - cbn [cancel trace].
    rewrite elem_of_app, list_elem_of_singleton. intros [Hin|[=]]. now apply (H time args).
Qed.

(** X22.  A function debounced with [L.debounce(fn, wait, opts)] without
    the [leading] option waits for silence: on a host whose timeouts do
    not run early, whatever is passed for [trailing] and [maxWait] and
    however the debounced function is called and cancelled, every call
    of [fn] comes directly after a call of the debounced function that
    was made at least [wait] milliseconds earlier, and has the arguments
    of that call; nothing, no further call, no cancel and no other call
    of [fn], lies between the two.  With [trailing: false] in addition,
    [fn] is never called. *)
Theorem debounce_waits_for_silence (inputs : list Input) :
  leading o = false ->
  admissible wait o init inputs ->
  answered (trace (run wait o inputs init))
  /\ (trailing o = false ->
      forall time args, Invoked time args ∉ trace (run wait o inputs init)).
Proof.
  intros Hl A. split.
  - apply (waiting_trace _ (waiting_run inputs init Hl waiting_init A)).
  - intros Htr. clear A.
    assert (H : forall st,
               (forall time args, Invoked time args ∉ trace st) ->
               forall time args, Invoked time args ∉ trace (run wait o inputs st)).
    { induction inputs as [|i rest IH]; intros st Hs; [exact Hs|].
      cbn [run foldl]. apply IH. now apply quiet_step. }
    apply H. intros time args. apply not_elem_of_nil.
Qed.

End Debouncing.

Lemma debounce_waits_for_silence_witness :
  let o := {| Debounce.leading := false; Debounce.trailing := true;
              Debounce.maxWait := Some 150%Z |} in
  let inputs := [ Debounce.Call 1000 1000 1; Debounce.Call 1080 1080 2;
                  Debounce.Call 1160 1160 3; Debounce.Fire 1262 1262 ] in
  Debounce.trace (Debounce.run 100 o inputs Debounce.init)
  = [ Debounce.Called 1000 1; Debounce.Called 1080 2; Debounce.Called 1160 3;
      Debounce.Invoked 1262 3 ]
  /\ answered 100 (Debounce.trace (Debounce.run 100 o inputs Debounce.init)).
Proof.
  intros o inputs. split; [reflexivity|].
  apply (debounce_waits_for_silence 100 o inputs); [reflexivity|].
  cbn. repeat split; lia.
Defined.

(* ===================================================================== *)
(** * [on] and [off]: the registry accounts for every listener            *)
(* ===================================================================== *)

Section EventRegistry.

Import LUtil Events.
Local Open Scope string_scope.

Definition map_of (w : World) (root : nat) : list (string * list Rec) :=
  default [] (events w !! root).

(** The listeners a removal of the records [recs] takes away. *)
Definition gone (type : string) (recs : list Rec) : list Listener :=
  (fun rec => (type, wrapped rec, capture rec))
    <$> filter (fun rec => callback_kind (wrapped rec) = Some true) recs.

Definition gone_entries (map : list (string * list Rec)) : list Listener :=
  mjoin ((fun e => gone (baseType (fst e)) (snd e)) <$> map).

(** [w'] is [w] without the listeners [G] of [root]. *)
Definition removed (G : list Listener) (root : nat) (w w' : World) : Prop :=
  events w' = events w /\ closures w' = closures w
  /\ captures w' = captures w
  /\ forall r l,
       l ∈ listeners_of w' r <->
       l ∈ listeners_of w r /\ (r = root -> l ∉ G).

Lemma removed_refl root w : removed [] root w w.
Proof.
  repeat split; try tauto.
  - intros _. apply not_elem_of_nil.
Qed.

Lemma removed_trans G1 G2 root w w1 w2 :
  removed G1 root w w1 -> removed G2 root w1 w2 ->
  removed (G1 ++ G2) root w w2.
Proof.
  intros (E1 & C1 & P1 & L1) (E2 & C2 & P2 & L2).
  repeat split; try congruence.
  - apply L2 in H. destruct H as [H _]. now apply L1 in H.
  - intros ->. apply L2 in H. destruct H as [H N2]. apply L1 in H.
    destruct H as [_ N1]. rewrite elem_of_app. intros [?|?]; [now apply N1 | now apply N2].
  - intros [H N]. apply L2. split.
    + apply L1. split; [exact H|]. intros e Hin. apply (N e). apply elem_of_app. now left.
    + intros e Hin. apply (N e). apply elem_of_app. now right.
Qed.

Lemma listeners_of_set w root ls r :
  listeners_of (set_listeners w root ls) r
  = if decide (r = root) then ls else listeners_of w r.
Proof.
  unfold listeners_of, set_listeners. cbn [listeners].
  destruct (decide (r = root)) as [->|N].
  - now rewrite lookup_insert_eq.
  - now rewrite lookup_insert_ne by congruence.
Qed.

Lemma removeEventListener_spec root type rec w :
  callback_kind (wrapped rec) <> None ->
  exists w',
    removeEventListener root type (wrapped rec) (VBool (capture rec)) w
    = (Returns tt, w')
    /\ removed (gone type [rec]) root w w'.
Proof.
  intros Hk. unfold removeEventListener, gone.
  destruct (callback_kind (wrapped rec)) as [[|]|] eqn:K; [| |congruence].
  - eexists. split; [reflexivity|].
    rewrite filter_cons_True by exact K. rewrite filter_nil.
    repeat split; cbn [flatten] in *.
    + rewrite listeners_of_set in H. destruct (decide (r = root)) as [->|N].
      * apply list_elem_of_filter in H. tauto.
      * exact H.
    + intros ->. rewrite listeners_of_set, decide_True in H by reflexivity.
      apply list_elem_of_filter in H. destruct H as [N _].
      cbn. rewrite list_elem_of_singleton. exact N.
    + intros [H N]. rewrite listeners_of_set.
      destruct (decide (r = root)) as [->|Nr]; [|exact H].
      apply list_elem_of_filter. split; [|exact H].
      specialize (N eq_refl). cbn in N. rewrite list_elem_of_singleton in N. exact N.
  - exists w. split; [reflexivity|].
    rewrite filter_cons_False by (rewrite K; discriminate). rewrite filter_nil.
    apply removed_refl.
Qed.

Lemma gone_cons type rec recs :
  gone type (rec :: recs) = (gone type [rec] ++ gone type recs)%list.
Proof.
  unfold gone. change (rec :: recs) with ([rec] ++ recs)%list.
  now rewrite filter_app, fmap_app.
Qed.

Definition removable (recs : list Rec) : Prop :=
  forall rec, rec ∈ recs -> callback_kind (wrapped rec) <> None.

Lemma removable_cons rec recs :
  removable (rec :: recs) ->
  callback_kind (wrapped rec) <> None /\ removable recs.
Proof.
  intros H. split.
  - apply H. apply list_elem_of_here.
  - intros r Hr. apply H. now apply list_elem_of_further.
Qed.

Lemma remove_matching_spec root type handler recs w :
  removable recs ->
  exists w',
    remove_matching root type handler recs w
    = (Returns tt, filter (fun rec => matches handler rec = false) recs, w')
    /\ removed (gone type (filter (fun rec => matches handler rec = true) recs))
         root w w'.
Proof.
  revert w. induction recs as [|rec recs IH]; intros w Hr.
  - exists w. split; [reflexivity|]. apply removed_refl.
  - apply removable_cons in Hr. destruct Hr as [Hk Hr].
    cbn [remove_matching]. destruct (matches handler rec) eqn:M.
    + destruct (removeEventListener_spec root type rec w Hk) as (w1 & E1 & R1).
      rewrite E1. destruct (IH w1 Hr) as (w2 & E2 & R2).
      exists w2. rewrite E2. split.
      * now rewrite filter_cons_False by (rewrite M; discriminate).
      * rewrite filter_cons_True by exact M. rewrite gone_cons.
        eapply removed_trans; eassumption.
    + destruct (IH w Hr) as (w2 & E2 & R2). exists w2. rewrite E2. split.
      * now rewrite filter_cons_True by exact M.
      * now rewrite filter_cons_False by (rewrite M; discriminate).
Qed.

Lemma remove_set_spec root type recs w :
  removable recs ->
  exists w',
    remove_set root type recs w = (Returns tt, w')
    /\ removed (gone type recs) root w w'.
Proof.
  revert w. induction recs as [|rec recs IH]; intros w Hr.
  - exists w. split; [reflexivity|]. apply removed_refl.
  - apply removable_cons in Hr. destruct Hr as [Hk Hr].
    cbn [remove_set].
    destruct (removeEventListener_spec root type rec w Hk) as (w1 & E1 & R1).
    rewrite E1. destruct (IH w1 Hr) as (w2 & E2 & R2).
    exists w2. split; [exact E2|]. rewrite gone_cons.
    eapply removed_trans; eassumption.
Qed.

Lemma remove_entries_spec root map w :
  (forall k recs, (k, recs) ∈ map -> removable recs) ->
  exists w',
    remove_entries root map w = (Returns tt, w')
    /\ removed (gone_entries map) root w w'.
Proof.
  revert w. induction map as [|[k recs] map IH]; intros w Hr.
  - exists w. split; [reflexivity|]. apply removed_refl.
  - cbn [remove_entries].
    destruct (remove_set_spec root (baseType k) recs w) as (w1 & E1 & R1).
    { apply (Hr k). apply list_elem_of_here. }
    rewrite E1. destruct (IH w1) as (w2 & E2 & R2).
    { intros k' recs' Hin. apply (Hr k'). now apply list_elem_of_further. }
    exists w2. split; [exact E2|].
    unfold gone_entries. cbn [fmap list_fmap mjoin list_join fst snd].
    eapply removed_trans; eassumption.
Qed.

(** *** Keys *)

Lemma append_nil_r (s : string) : s ++ EmptyString = s.
Proof. induction s as [|c s IH]; [reflexivity|]. now rewrite app_cons, IH. Qed.

Lemma baseType_no_colon (t : string) : no_colon t = true -> baseType t = t.
Proof.
  induction t as [|c t IH]; [reflexivity|].
  cbn [no_colon]. intros H. apply andb_prop in H. destruct H as [Hc Ht].
  cbn [baseType starts_with].
  destruct (Ascii.eqb ":" c) eqn:E.
  - apply Ascii.eqb_eq in E. subst c. discriminate Hc.
  - now rewrite IH.
Qed.

Lemma baseType_key (t s : string) :
  no_colon t = true -> baseType (t ++ "::" ++ s) = t.
Proof.
  induction t as [|c t IH].
  - intros _. rewrite app_nil_l. reflexivity.
  - cbn [no_colon]. intros H. apply andb_prop in H. destruct H as [Hc Ht].
    rewrite app_cons. cbn [baseType starts_with].
    destruct (Ascii.eqb ":" c) eqn:E.
    + apply Ascii.eqb_eq in E. subst c. discriminate Hc.
    + now rewrite IH.
Qed.

Lemma baseType_key_of (t : string) (selector : Val) :
  no_colon t = true -> baseType (key_of t selector) = t.
Proof.
  intros H. unfold key_of. destruct (truthy selector).
  - now apply baseType_key.
  - rewrite append_nil_r. now apply baseType_no_colon.
Qed.

Lemma map_get_Some key map recs :
  map_get key map = Some recs -> (key, recs) ∈ map.
Proof.
  induction map as [|[k s] map IH]; [discriminate|].
  cbn [map_get]. destruct (k =? key) eqn:E.
  - apply String.eqb_eq in E. subst k. intros [= ->]. apply list_elem_of_here.
  - intros H. apply list_elem_of_further. now apply IH.
Qed.

Lemma map_get_elem key map recs :
  NoDup (fst <$> map) -> (key, recs) ∈ map -> map_get key map = Some recs.
Proof.
  induction map as [|[k s] map IH]; intros Hn Hin.
  - now apply elem_of_nil in Hin.
  - cbn [fmap list_fmap fst] in Hn. apply NoDup_cons in Hn. destruct Hn as [Hk Hn].
    cbn [map_get]. apply elem_of_cons in Hin. destruct Hin as [[= <- <-]|Hin].
    + now rewrite String.eqb_refl.
    + destruct (k =? key) eqn:E.
      * apply String.eqb_eq in E. subst k. exfalso. apply Hk.
        apply list_elem_of_fmap. exists (key, recs). now split.
      * now apply IH.
Qed.

Lemma map_put_keys key recs map :
  fst <$> map_put key recs map
  = match map_get key map with
    | Some _ => fst <$> map
    | None => ((fst <$> map) ++ [key])%list
    end.
Proof.
  induction map as [|[k s] map IH]; [reflexivity|].
  cbn [map_put map_get]. destruct (k =? key) eqn:E; [reflexivity|].
  cbn [fmap list_fmap fst]. rewrite IH.
  now destruct (map_get key map).
Qed.

Lemma map_get_None key map :
  map_get key map = None -> key ∉ fst <$> map.
Proof.
  induction map as [|[k s] map IH]; [intros _; apply not_elem_of_nil|].
  cbn [map_get]. destruct (k =? key) eqn:E; [discriminate|].
  intros H. cbn [fmap list_fmap fst]. apply not_elem_of_cons. split.
  - intros ->. now rewrite String.eqb_refl in E.
  - now apply IH.
Qed.

Lemma map_put_NoDup key recs map :
  NoDup (fst <$> map) -> NoDup (fst <$> map_put key recs map).
Proof.
  intros H. rewrite map_put_keys. destruct (map_get key map) eqn:E; [exact H|].
  apply NoDup_app. split; [exact H|]. split.
  - intros x Hx. rewrite list_elem_of_singleton. intros ->.
    now apply (map_get_None _ _ E).
  - apply NoDup_singleton.
Qed.

Lemma elem_of_map_put key recs map k s :
  NoDup (fst <$> map) ->
  (k, s) ∈ map_put key recs map ->
  (k = key /\ s = recs) \/ (k <> key /\ (k, s) ∈ map).
Proof.
  induction map as [|[k0 s0] map IH]; cbn [map_put]; intros Hn.
  - rewrite list_elem_of_singleton. intros [= -> ->]. now left.
  - cbn [fmap list_fmap fst] in Hn. apply NoDup_cons in Hn.
    destruct Hn as [Hk Hn]. destruct (k0 =? key) eqn:E.
    + apply String.eqb_eq in E. subst k0.
      rewrite elem_of_cons. intros [[= -> ->]|H]; [now left|].
      right. split; [|now apply list_elem_of_further].
      intros ->. apply Hk. apply list_elem_of_fmap. exists (key, s). now split.
    + apply String.eqb_neq in E.
      rewrite elem_of_cons. intros [[= -> ->]|H].
      * right. split; [exact E|]. apply list_elem_of_here.
      * destruct (IH Hn H) as [?|[? ?]]; [now left|right].
        split; [assumption|]. now apply list_elem_of_further.
Qed.

Lemma map_put_other key recs map k s :
  k <> key -> (k, s) ∈ map -> (k, s) ∈ map_put key recs map.
Proof.
  intros N. induction map as [|[k0 s0] map IH]; cbn [map_put].
  - intros H. now apply elem_of_nil in H.
  - rewrite elem_of_cons. intros [[= <- <-]|H].
    + destruct (k =? key) eqn:E; [now apply String.eqb_eq in E|].
      apply list_elem_of_here.
    + destruct (k0 =? key); apply list_elem_of_further; auto.
Qed.

Lemma map_put_here key recs map : (key, recs) ∈ map_put key recs map.
Proof.
  induction map as [|[k0 s0] map IH]; cbn [map_put].
  - apply list_elem_of_here.
  - destruct (k0 =? key) eqn:E.
    + apply String.eqb_eq in E. subst k0. apply list_elem_of_here.
    + now apply list_elem_of_further.
Qed.

Lemma elem_of_map_delete key map k s :
  (k, s) ∈ map_delete key map <-> k <> key /\ (k, s) ∈ map.
Proof. unfold map_delete. now rewrite list_elem_of_filter. Qed.

Lemma map_delete_NoDup key map :
  NoDup (fst <$> map) -> NoDup (fst <$> map_delete key map).
Proof.
  unfold map_delete. induction map as [|[k s] map IH]; [auto|].
  cbn [fmap list_fmap fst]. intros Hn. apply NoDup_cons in Hn.
  destruct Hn as [Hk Hn]. destruct (decide (k = key)) as [->|N].
  - rewrite filter_cons_False by (cbn; tauto). auto.
  - rewrite filter_cons_True by exact N. cbn [fmap list_fmap fst].
    apply NoDup_cons. split; [|auto].
    intros Hin. apply Hk. apply list_elem_of_fmap in Hin.
    destruct Hin as ([k' s'] & -> & Hin). apply list_elem_of_filter in Hin.
    apply list_elem_of_fmap. exists (k', s'). tauto.
Qed.

Lemma in_gone type recs rec :
  rec ∈ recs -> callback_kind (wrapped rec) = Some true ->
  (type, wrapped rec, capture rec) ∈ gone type recs.
Proof.
  intros Hin K. unfold gone. apply list_elem_of_fmap. exists rec.
  split; [reflexivity|]. apply list_elem_of_filter. now split.
Qed.

Lemma in_gone_entries map k recs rec :
  (k, recs) ∈ map -> rec ∈ recs -> callback_kind (wrapped rec) = Some true ->
  (baseType k, wrapped rec, capture rec) ∈ gone_entries map.
Proof.
  intros Hm Hin K. unfold gone_entries. apply list_elem_of_join.
  exists (gone (baseType k) recs). split; [now apply in_gone|].
  apply list_elem_of_fmap. exists (k, recs). now split.
Qed.

(** *** The invariant of the registry

    Keys are distinct; every record can be handed back to the host, and a
    record of an undelegated handler sits under the bare type; and every
    listener of a target is accounted for by a record of that target. *)
Record Inv (w : World) : Prop := {
  inv_keys : forall root, NoDup (fst <$> map_of w root);
  inv_recs : forall root k recs rec,
      (k, recs) ∈ map_of w root -> rec ∈ recs ->
      callback_kind (wrapped rec) <> None
      /\ (forall h, wrapped rec = Direct h -> baseType k = k);
  inv_listeners : forall root t cb cap,
      (t, cb, cap) ∈ listeners_of w root ->
      callback_kind cb = Some true
      /\ exists k recs rec,
           (k, recs) ∈ map_of w root /\ rec ∈ recs
           /\ baseType k = t /\ wrapped rec = cb /\ capture rec = cap
}.

Lemma Inv_start c : Inv (start c).
Proof.
  split.
  - intros root. unfold map_of, start. cbn. rewrite lookup_empty. apply NoDup_nil_2.
  - intros root k recs rec H. unfold map_of, start in H. cbn in H.
    rewrite lookup_empty in H. now apply elem_of_nil in H.
  - intros root t cb cap H. unfold listeners_of, start in H. cbn in H.
    rewrite lookup_empty in H. now apply elem_of_nil in H.
Qed.

Lemma map_of_set w root map r :
  map_of (set_events w root map) r
  = if decide (r = root) then map else map_of w r.
Proof.
  unfold map_of, set_events. cbn [events].
  destruct (decide (r = root)) as [->|N].
  - now rewrite lookup_insert_eq.
  - now rewrite lookup_insert_ne by congruence.
Qed.

Lemma listeners_of_set_events w root map r :
  listeners_of (set_events w root map) r = listeners_of w r.
Proof. reflexivity. Qed.

Lemma map_of_removed G root w w' r :
  removed G root w w' -> map_of w' r = map_of w r.
Proof. intros (E & _). unfold map_of. now rewrite E. Qed.

(** Records and listeners are taken away together. *)
Lemma Inv_shrink w w2 root map' G :
  Inv w -> removed G root w w2 ->
  NoDup (fst <$> map') ->
  (forall k recs rec, (k, recs) ∈ map' -> rec ∈ recs ->
     exists recs0, (k, recs0) ∈ map_of w root /\ rec ∈ recs0) ->
  (forall k recs rec, (k, recs) ∈ map_of w root -> rec ∈ recs ->
     callback_kind (wrapped rec) = Some true ->
     (baseType k, wrapped rec, capture rec) ∉ G ->
     exists recs', (k, recs') ∈ map' /\ rec ∈ recs') ->
  Inv (set_events w2 root map').
Proof.
  intros I R Hn Hsub Hkeep. split.
  - intros r. rewrite map_of_set. destruct (decide (r = root)); [exact Hn|].
    rewrite (map_of_removed _ _ _ _ r R). apply (inv_keys _ I).
  - intros r k recs rec. rewrite map_of_set.
    destruct (decide (r = root)) as [->|N].
    + intros Hm Hin. destruct (Hsub _ _ _ Hm Hin) as (recs0 & Hm0 & Hin0).
      apply (inv_recs _ I root k recs0 rec Hm0 Hin0).
    + rewrite (map_of_removed _ _ _ _ r R). apply (inv_recs _ I).
  - intros r t cb cap. rewrite listeners_of_set_events.
    intros Hl. pose proof (map_of_removed _ _ _ _ r R) as Em.
    destruct R as (_ & _ & _ & RL). apply RL in Hl.
    destruct Hl as [Hl Hg].
    destruct (inv_listeners _ I r t cb cap Hl)
      as (K & k & recs & rec & Hm & Hin & Hb & Hw & Hc).
    split; [exact K|]. rewrite map_of_set.
    destruct (decide (r = root)) as [->|N].
    + destruct (Hkeep k recs rec Hm Hin) as (recs' & Hm' & Hin').
      * now rewrite Hw.
      * rewrite Hb, Hw, Hc. now apply Hg.
      * exists k, recs', rec. auto.
    + rewrite Em. exists k, recs, rec. auto.
Qed.

Lemma capture_agrees w w1 opts :
  captures w1 = captures w -> opts_ok opts = true ->
  bool_decide (opts = VBool true) || (isObj opts && flatten w opts)
  = flatten w1 (if truthy opts then opts else VBool false).
Proof.
  intros E H. destruct opts as [| |s|[|]|o]; try discriminate H; try reflexivity.
  cbn. now rewrite E.
Qed.

Lemma Inv_on_shifted root type selector handler opts w :
  Inv w -> no_colon type = true ->
  (truthy selector = false -> handler_ok handler = true) ->
  opts_ok opts = true ->
  Inv (snd (on_shifted root type selector handler opts w)).
Proof.
  intros I Ht Hh Ho. unfold on_shifted.
  set (finalHandler := if truthy selector then _ else _).
  set (capture := (_ || _)%bool).
  set (map := default [] (events w !! root)).
  set (key := key_of type selector).
  set (recs := default [] (map_get key map)).
  set (rec := {| wrapped := finalHandler |}).
  set (w1 := {| events := _ |}).
  assert (Hk : callback_kind finalHandler <> None).
  { unfold finalHandler. destruct (truthy selector); [discriminate|].
    specialize (Hh eq_refl). now destruct handler. }
  assert (Hm1 : forall r, map_of w1 r
            = if decide (r = root) then map_put key (recs ++ [rec]) map
              else map_of w r).
  { intros r. unfold map_of, w1. cbn [events].
    destruct (decide (r = root)) as [->|N].
    - now rewrite lookup_insert_eq.
    - now rewrite lookup_insert_ne by congruence. }
  assert (Hold : forall k s x, (k, s) ∈ map -> x ∈ s ->
            exists s', (k, s') ∈ map_put key (recs ++ [rec]) map /\ x ∈ s').
  { intros k s x Hin Hx. destruct (decide (k = key)) as [->|N].
    - exists (recs ++ [rec])%list. split; [apply map_put_here|].
      apply elem_of_app. left. unfold recs.
      rewrite (map_get_elem key map s (inv_keys _ I root) Hin). exact Hx.
    - exists s. split; [now apply map_put_other|exact Hx]. }
  assert (I1 : Inv w1).
  { split.
    - intros r. rewrite Hm1. destruct (decide (r = root)).
      + apply map_put_NoDup. apply (inv_keys _ I).
      + apply (inv_keys _ I).
    - intros r k s x. rewrite Hm1. destruct (decide (r = root)) as [->|N].
      + intros Hin Hx.
        apply elem_of_map_put in Hin; [|apply (inv_keys _ I)].
        destruct Hin as [[-> ->]|[N Hin]].
        * apply elem_of_app in Hx. destruct Hx as [Hx|Hx].
          -- unfold recs in Hx. destruct (map_get key map) as [s|] eqn:G.
             ++ apply (inv_recs _ I root key s x); [|exact Hx].
                now apply map_get_Some.
             ++ now apply elem_of_nil in Hx.
          -- apply list_elem_of_singleton in Hx. subst x. cbn [wrapped].
             split; [exact Hk|]. intros h Hd. unfold key, key_of.
             unfold finalHandler in Hd. destruct (truthy selector); [discriminate Hd|].
             rewrite append_nil_r. rewrite baseType_no_colon; auto.
        * now apply (inv_recs _ I root k s x).
      + apply (inv_recs _ I).
    - intros r t cb cap Hl.
      destruct (inv_listeners _ I r t cb cap Hl)
        as (K & k & s & x & Hm & Hx & Hb & Hw & Hc).
      split; [exact K|]. rewrite Hm1. destruct (decide (r = root)) as [->|N].
      + destruct (Hold k s x Hm Hx) as (s' & Hm' & Hx').
        exists k, s', x. auto.
      + exists k, s, x. auto. }
  unfold addEventListener.
  destruct (callback_kind finalHandler) as [[|]|] eqn:K; [| exact I1 | congruence].
  cbv zeta.
  match goal with
  | |- context [@bool_decide ?P ?d] => destruct (@bool_decide P d)
  end; [exact I1|]. cbn [snd].
  split.
  - intros r. apply (inv_keys _ I1).
  - intros r. apply (inv_recs _ I1).
  - intros r t cb cap. rewrite listeners_of_set.
    destruct (decide (r = root)) as [->|N]; [|apply (inv_listeners _ I1)].
    rewrite elem_of_app, list_elem_of_singleton. intros [Hl|[= -> -> ->]].
    + apply (inv_listeners _ I1 root t cb cap Hl).
    + split; [exact K|]. exists key, (recs ++ [rec])%list, rec.
      change (map_of (set_listeners w1 root ?l) root) with (map_of w1 root).
      rewrite Hm1, decide_True by reflexivity.
      split; [apply map_put_here|].
      split; [apply elem_of_app; right; now apply list_elem_of_singleton|].
      split; [now apply baseType_key_of|]. split; [reflexivity|].
      cbn [Events.capture rec]. unfold capture.
      now apply capture_agrees.
Qed.

Lemma removable_of w root k recs :
  Inv w -> (k, recs) ∈ map_of w root -> removable recs.
Proof. intros I Hm rec Hin. now apply (inv_recs _ I root k recs rec). Qed.

Lemma Inv_off_shifted root type selector handler w :
  Inv w -> (forall t, type = Some t -> no_colon t = true) ->
  Inv (snd (off_shifted root type selector handler w)).
Proof.
  intros I Ht. unfold off_shifted.
  destruct (events w !! root) as [map|] eqn:Em; [|exact I].
  assert (Hmap : map_of w root = map) by (unfold map_of; now rewrite Em).
  assert (Hall :
    Inv (snd (match remove_entries root map w with
              | (Returns _, w') => (Returns tt, set_events w' root [])
              | (TypeError, w') => (TypeError, w')
              end))).
  { destruct (remove_entries_spec root map w) as (w2 & E & R).
    { intros k recs Hin. apply (removable_of w root k); [exact I|]. now rewrite Hmap. }
    rewrite E. cbn [snd].
    apply (Inv_shrink w w2 root [] (gone_entries map) I R).
    - apply NoDup_nil_2.
    - intros k recs rec Hin. now apply elem_of_nil in Hin.
    - intros k recs rec Hm Hin K Hg. exfalso. apply Hg.
      rewrite Hmap in Hm. now apply (in_gone_entries map k recs rec). }
  destruct type as [[|c t]|]; [exact Hall| |exact Hall].
  set (type := String c t) in *.
  specialize (Ht type eq_refl).
  destruct (map_get (key_of type selector) map) as [recs|] eqn:G; [|exact I].
  set (key := key_of type selector) in *.
  pose proof (map_get_Some _ _ _ G) as Hin0.
  destruct (remove_matching_spec root type handler recs w) as (w2 & E & R).
  { apply (removable_of w root key); [exact I|]. now rewrite Hmap. }
  rewrite E.
  set (kept := filter (fun rec => matches handler rec = false) recs) in *.
  assert (Hn : NoDup (fst <$> map)) by (rewrite <- Hmap; apply (inv_keys _ I)).
  assert (Hgone : forall k s x, (k, s) ∈ map -> x ∈ s ->
            callback_kind (wrapped x) = Some true ->
            (baseType k, wrapped x, capture x)
              ∉ gone type (filter (fun rec => matches handler rec = true) recs) ->
            k <> key \/ x ∈ kept).
  { intros k s x Hm Hx K Hg. destruct (decide (k = key)) as [->|N]; [right|now left].
    rewrite (map_get_elem key map s Hn Hm) in G. injection G as ->.
    unfold kept. apply list_elem_of_filter. split; [|exact Hx].
    destruct (matches handler x) eqn:M; [|reflexivity].
    exfalso. apply Hg. unfold key. rewrite baseType_key_of by exact Ht.
    apply in_gone; [|exact K]. apply list_elem_of_filter. now split. }
  assert (Hres : Inv (set_events w2 root
            (match kept with [] => map_delete key map | _ => map_put key kept map end))).
  { apply (Inv_shrink w w2 root _ _ I R).
    - destruct kept; [now apply map_delete_NoDup | now apply map_put_NoDup].
    - intros k s x Hm Hx. rewrite Hmap.
      assert (Hput : (k, s) ∈ map_put key kept map ->
                exists recs0, (k, recs0) ∈ map /\ x ∈ recs0).
      { intros Hp. apply elem_of_map_put in Hp; [|exact Hn].
        destruct Hp as [[-> ->]|[N Hp]].
        - exists recs. split; [exact Hin0|].
          unfold kept in Hx. apply list_elem_of_filter in Hx. tauto.
        - exists s. now split. }
      destruct kept as [|r0 kept0] eqn:Ek; [|now apply Hput].
      apply elem_of_map_delete in Hm. exists s. tauto.
    - intros k s x Hm Hx K Hg. rewrite Hmap in Hm.
      destruct (Hgone k s x Hm Hx K Hg) as [N|Hk].
      + exists s. split; [|exact Hx].
        destruct kept; [apply elem_of_map_delete; now split|now apply map_put_other].
      + destruct (decide (k = key)) as [->|N].
        * exists kept. split; [|exact Hk].
          destruct kept as [|r0 kept0] eqn:Ek; [now apply elem_of_nil in Hk|].
          apply map_put_here.
        * exists s. split; [|exact Hx].
          destruct kept; [apply elem_of_map_delete; now split|now apply map_put_other]. }
  exact Hres.
Qed.

Lemma Inv_call c w : Inv w -> usual c = true -> Inv (call c w).
Proof.
  intros I U. destruct c as [root type selector handler opts|root type selector handler];
    cbn [call usual] in *.
  - apply andb_prop in U. destruct U as [Ht U]. unfold on.
    destruct (isFn selector) eqn:F.
    + apply Inv_on_shifted; auto. intros _. now destruct selector.
    + apply andb_prop in U. destruct U as [Hh Ho].
      apply Inv_on_shifted; auto.
  - unfold off.
    destruct (isFn selector && bool_decide (handler = VNone));
      apply Inv_off_shifted; auto; intros t ->; exact U.
Qed.

Lemma Inv_run calls w :
  Inv w -> forallb usual calls = true -> Inv (run calls w).
Proof.
  revert w. induction calls as [|c calls IH]; intros w I U; [exact I|].
  cbn [forallb] in U. apply andb_prop in U. destruct U as [Uc U].
  cbn [run foldl]. apply IH; [|exact U]. now apply Inv_call.
Qed.

Lemma off_all_leaves_none root selector handler type w :
  Inv w -> type = None \/ type = Some EmptyString ->
  exists w',
    off_shifted root type selector handler w = (Returns tt, w')
    /\ listeners_of w' root = [] /\ map_of w' root = [].
Proof.
  intros I Ht. unfold off_shifted.
  destruct (events w !! root) as [map|] eqn:Em.
  - assert (Hmap : map_of w root = map) by (unfold map_of; now rewrite Em).
    destruct (remove_entries_spec root map w) as (w2 & E & R).
    { intros k recs Hin. apply (removable_of w root k); [exact I|]. now rewrite Hmap. }
    exists (set_events w2 root []).
    split; [destruct Ht as [-> | ->]; now rewrite E|].
    split; [|now rewrite map_of_set, decide_True].
    rewrite listeners_of_set_events. apply elem_of_nil_inv. intros [[t cb] cap] Hl.
    destruct R as (_ & _ & _ & RL). apply RL in Hl. destruct Hl as [Hl Hg].
    destruct (inv_listeners _ I root t cb cap Hl)
      as (K & k & recs & rec & Hm & Hin & <- & <- & <-).
    apply (Hg eq_refl). rewrite Hmap in Hm. now apply (in_gone_entries map k recs rec).
  - exists w. split; [now destruct Ht as [-> | ->]|].
    assert (Hmap : map_of w root = []) by (unfold map_of; now rewrite Em).
    split; [|exact Hmap].
    apply elem_of_nil_inv. intros [[t cb] cap] Hl.
    destruct (inv_listeners _ I root t cb cap Hl) as (_ & k & recs & rec & Hm & _).
    rewrite Hmap in Hm. now apply elem_of_nil in Hm.
Qed.

Lemma off_handler_leaves_none root type f w :
  Inv w -> no_colon type = true ->
  exists w',
    off_shifted root (Some type) VNone (VFn f) w = (Returns tt, w')
    /\ forall cap, (type, Direct (VFn f), cap) ∉ listeners_of w' root.
Proof.
  intros I Ht.
  destruct type as [|c t].
  { destruct (off_all_leaves_none root VNone (VFn f) (Some EmptyString) w I)
      as (w' & E & Hl & _); [now right|].
    exists w'. split; [exact E|]. intros cap. rewrite Hl. apply not_elem_of_nil. }
  set (type := String c t) in *.
  assert (Hrec : forall cap, (type, Direct (VFn f), cap) ∈ listeners_of w root ->
            exists recs rec, (type, recs) ∈ map_of w root /\ rec ∈ recs
              /\ wrapped rec = Direct (VFn f) /\ capture rec = cap).
  { intros cap Hl.
    destruct (inv_listeners _ I root _ _ _ Hl)
      as (_ & k & recs & rec & Hm & Hin & Hb & Hw & Hc).
    destruct (inv_recs _ I root k recs rec Hm Hin) as [_ Hd].
    rewrite (Hd _ Hw) in Hb. subst k. exists recs, rec. auto. }
  unfold off_shifted. fold type.
  assert (Hkey : key_of type VNone = type) by apply append_nil_r.
  rewrite Hkey.
  destruct (events w !! root) as [map|] eqn:Em.
  - assert (Hmap : map_of w root = map) by (unfold map_of; now rewrite Em).
    assert (Hn : NoDup (fst <$> map)) by (rewrite <- Hmap; apply (inv_keys _ I)).
    rewrite Hmap in Hrec.
    destruct (map_get type map) as [recs|] eqn:G.
    + destruct (remove_matching_spec root type (VFn f) recs w) as (w2 & E & R).
      { apply (removable_of w root type); [exact I|].
        rewrite Hmap. now apply map_get_Some. }
      rewrite E. eexists. split; [reflexivity|].
      intros cap. rewrite listeners_of_set_events. intros Hl.
      destruct R as (_ & _ & _ & RL). apply RL in Hl. destruct Hl as [Hl Hg].
      destruct (Hrec cap Hl) as (recs' & rec & Hm & Hin & Hw & Hc).
      rewrite (map_get_elem type map recs' Hn Hm) in G. injection G as ->.
      apply (Hg eq_refl). rewrite <- Hw, <- Hc. apply in_gone.
      * apply list_elem_of_filter. split; [|exact Hin].
        unfold matches. rewrite Hw.
        rewrite (bool_decide_true (Direct (VFn f) = Direct (VFn f))) by reflexivity.
        now rewrite orb_true_r.
      * now rewrite Hw.
    + exists w. split; [reflexivity|]. intros cap Hl.
      destruct (Hrec cap Hl) as (recs' & rec & Hm & _).
      now rewrite (map_get_elem type map recs' Hn Hm) in G.
  - exists w. split; [reflexivity|]. intros cap Hl.
    destruct (Hrec cap Hl) as (recs' & rec & Hm & _).
    unfold map_of in Hm. rewrite Em in Hm. now apply elem_of_nil in Hm.
Qed.

(** X23.  L.off(root) with no event type removes everything L.on has put
    on the target: after a history of [on] and [off] calls of the usual
    kind (event types without a colon, a function or an object for the
    handler, a boolean or an object for the options), it returns without
    an exception and leaves the target without a listener and without a
    record. *)
Theorem off_without_type_removes_every_listener
    (calls : list Call) (c : gmap nat bool) (root : nat) (selector handler : Val) :
  forallb usual calls = true ->
  exists w',
    off root None selector handler (run calls (start c)) = (Returns tt, w')
    /\ listeners_of w' root = []
    /\ map_of w' root = [].
Proof.
  intros U. pose proof (Inv_run calls (start c) (Inv_start c) U) as I.
  unfold off.
  destruct (isFn selector && bool_decide (handler = VNone)).
  - apply (off_all_leaves_none root VNone selector None _ I). now left.
  - apply (off_all_leaves_none root selector handler None _ I). now left.
Qed.

(** X24.  L.off(root, type, handler) takes the handler off the target in
    both phases: after a history of [on] and [off] calls of the usual
    kind, no listener of that type with that function is left on the
    target, however often and with whatever options it was put there. *)
Theorem off_removes_the_handler
    (calls : list Call) (c : gmap nat bool) (root : nat) (type : string) (f : nat) :
  forallb usual calls = true -> no_colon type = true ->
  exists w',
    off root (Some type) (VFn f) VNone (run calls (start c)) = (Returns tt, w')
    /\ forall cap, (type, Direct (VFn f), cap) ∉ listeners_of w' root.
Proof.
  intros U Ht. pose proof (Inv_run calls (start c) (Inv_start c) U) as I.
  unfold off. cbn [isFn andb].
  rewrite (bool_decide_true (VNone = VNone)) by reflexivity.
  now apply off_handler_leaves_none.
Qed.

End EventRegistry.

Lemma off_without_type_removes_every_listener_witness :
  let calls :=
    [Events.On 0 "click" (Events.VFn 1) Events.VNone Events.VNone;
     Events.On 0 "click" (Events.VStr ".item") (Events.VFn 2) (Events.VObj 7);
     Events.On 0 "keydown" (Events.VFn 1) (Events.VBool true) Events.VNone;
     Events.Off 0 (Some "click") (Events.VFn 1) Events.VNone] in
  exists w',
    Events.off 0 None Events.VNone Events.VNone
      (Events.run calls (Events.start {[7 := true]}))
    = (LUtil.Returns tt, w')
    /\ Events.listeners_of w' 0 = [] /\ map_of w' 0 = [].
Proof.
  intros calls.
  apply (off_without_type_removes_every_listener calls {[7 := true]} 0).
  reflexivity.
Defined.

Lemma off_removes_the_handler_witness :
  let calls :=
    [Events.On 0 "click" (Events.VFn 1) Events.VNone Events.VNone;
     Events.On 0 "click" (Events.VFn 1) (Events.VObj 7) Events.VNone;
     Events.On 0 "click" (Events.VFn 2) Events.VNone Events.VNone] in
  exists w',
    Events.off 0 (Some "click") (Events.VFn 1) Events.VNone
      (Events.run calls (Events.start {[7 := true]}))
    = (LUtil.Returns tt, w')
    /\ forall cap,
         ("click", Events.Direct (Events.VFn 1), cap) ∉ Events.listeners_of w' 0.
Proof.
  intros calls.
  apply (off_removes_the_handler calls {[7 := true]} 0 "click" 1); reflexivity.
Defined.

(* ===================================================================== *)
(** * Releasing by hand and destruct()                                     *)
(* ===================================================================== *)

Section ManualRelease.

Import LFacade Base.
Local Open Scope string_scope.











End ManualRelease.

(* ===================================================================== *)
(** * Constructing again after destruct()                                  *)
(* ===================================================================== *)

Section Reconstruction.

Import LFacade Base.
Local Open Scope string_scope.












End Reconstruction.
